(** * pystachio-smt: low-level algorithms and dataset simulation

    A shallow embedding of [src/algorithms.py] ([fwhm], [get_distance_list],
    [find_local_maxima], [ultimate_erode]) and of the spot bookkeeping of
    [pystachio_smt/simulation.py] ([simulate], [simulate_stepwise_bleaching]),
    with the properties the specification states about them.

    Conventions of the embedding
    - Python integers are [Z]; loop ranges are lists of [Z] built by [range].
    - A 2-D numpy array is an [ndarray]: its shape and its rows.  Its
      elements are of any type with a zero, an order and an equality
      ([Scalar]); NaN is left out.
    - [np.sqrt n] of a non-negative integer [n] is kept exact, as the surd
      [Sqrt n]; its real value is [surd_R].  Comparisons of such values are
      decided on the radicands, which is what binary64 does for the
      radicands of radius 16 ([surd_order_is_binary64_order]).
    - [fwhm] is written over an arbitrary float arithmetic ([FloatArith]),
      with binary64 and the exact rationals as instances; [np.max],
      [np.argmax] and [np.argmin] treat a NaN as numpy does.
    - In the simulators floats are exact rationals, and the random
      generator is a function from the position of a draw to its outcome;
      a statement for every such function is a statement for every outcome
      of the draws.
    - A raised Python exception is [None]. *)

From Stdlib Require Import ZArith List Bool Lia Sorted Permutation.
From Stdlib Require Import QArith Reals Lqa.
From Stdlib Require PrimFloat Uint63.
Import ListNotations.
Local Open Scope Z_scope.

(* ================================================================== *)
(** ** Ranges and loops *)

(** [range lo hi] is Python's [range(lo, hi)]. *)
Definition range (lo hi : Z) : list Z :=
  map (fun k => lo + Z.of_nat k) (seq 0 (Z.to_nat (hi - lo))).

(** Row-major pairs of two index lists. *)
Definition grid (rs cs : list Z) : list (Z * Z) :=
  flat_map (fun i => map (pair i) cs) rs.

(* ================================================================== *)
(** ** Scalars stored in arrays *)

(** What the code needs from array elements: the constant [0], [<=] and
    [==]. *)
Class Scalar (V : Type) := {
  s_zero : V;
  s_leb : V -> V -> bool;
  s_eqb : V -> V -> bool
}.

(** The elements are totally ordered and [==] is the equality of that
    order (true of integers and of floats other than NaN). *)
Class ScalarOrder (V : Type) `{Scalar V} := {
  s_leb_total : forall x y, s_leb x y = true \/ s_leb y x = true;
  s_leb_trans : forall x y z,
      s_leb x y = true -> s_leb y z = true -> s_leb x z = true;
  s_eqb_leb : forall x y, s_eqb x y = s_leb x y && s_leb y x
}.

#[export] Instance Z_Scalar : Scalar Z :=
  {| s_zero := 0; s_leb := Z.leb; s_eqb := Z.eqb |}.

(** The value of [np.sqrt n] for an integer [n]. *)
Inductive surd : Type := Sqrt (n : Z).

Definition radicand (s : surd) : Z := let 'Sqrt n := s in n.

(** The real number a surd stands for. *)
Definition surd_R (s : surd) : R := sqrt (IZR (radicand s)).

#[export] Instance surd_Scalar : Scalar surd :=
  {| s_zero := Sqrt 0;
     s_leb := fun a b => radicand a <=? radicand b;
     s_eqb := fun a b => radicand a =? radicand b |}.

(** [s <= r] for a surd [s] and an integer [r >= 0]. *)
Definition surd_le_int (s : surd) (r : Z) : bool := radicand s <=? r * r.

(* ================================================================== *)
(** ** Arrays *)

Record ndarray (V : Type) := mk_ndarray {
  shape0 : Z;
  shape1 : Z;
  rows : list (list V)
}.
Arguments mk_ndarray {V}.
Arguments shape0 {V}.
Arguments shape1 {V}.
Arguments rows {V}.

(** The rows agree with the shape. *)
Definition wf {V} (a : ndarray V) : Prop :=
  0 <= shape1 a /\
  Z.of_nat (length (rows a)) = shape0 a /\
  Forall (fun r => Z.of_nat (length r) = shape1 a) (rows a).

Definition wfb {V} (a : ndarray V) : bool :=
  (0 <=? shape1 a) && (Z.of_nat (length (rows a)) =? shape0 a)
  && forallb (fun r => Z.of_nat (length r) =? shape1 a) (rows a).

Section Arrays.
Context {V : Type} `{Scalar V}.

(** [a[i, j]] for in-range indices. *)
Definition get (a : ndarray V) (i j : Z) : V :=
  nth (Z.to_nat j) (nth (Z.to_nat i) (rows a) []) s_zero.

Fixpoint upd {A} (n : nat) (x : A) (l : list A) : list A :=
  match l, n with
  | [], _ => []
  | _ :: t, O => x :: t
  | h :: t, S m => h :: upd m x t
  end.

(** [a[i, j] = v] for in-range indices. *)
Definition set (a : ndarray V) (i j : Z) (v : V) : ndarray V :=
  mk_ndarray (shape0 a) (shape1 a)
    (upd (Z.to_nat i)
         (upd (Z.to_nat j) v (nth (Z.to_nat i) (rows a) [])) (rows a)).

(** [np.zeros(shape)]. *)
Definition zeros (n m : Z) : ndarray V :=
  mk_ndarray n m (repeat (repeat s_zero (Z.to_nat m)) (Z.to_nat n)).

(** [l[lo:hi]] for [0 <= lo]. *)
Definition slice {A} (lo hi : Z) (l : list A) : list A :=
  firstn (Z.to_nat (hi - lo)) (skipn (Z.to_nat lo) l).

(** The elements of [a[i0:i1, j0:j1]], row by row. *)
Definition slice2 (a : ndarray V) (i0 i1 j0 j1 : Z) : list V :=
  concat (map (slice j0 j1) (slice i0 i1 (rows a))).

Definition s_max (x y : V) : V := if s_leb x y then y else x.

(** [np.max] of a non-empty sequence. *)
Definition np_max (l : list V) : option V :=
  match l with
  | [] => None
  | x :: t => Some (fold_left s_max t x)
  end.
(** The values of the 3x3 window around [(i, j)], row by row. *)
Definition window (a : ndarray V) (i j : Z) : list V :=
  map (fun d => get a (i + fst d) (j + snd d)) (grid [-1; 0; 1] [-1; 0; 1]).
End Arrays.

(* ================================================================== *)
(** ** [get_distance_list] *)

(** One entry [[dx, dy, distance]] of the distance list. *)
Record offset := mk_offset { dx : Z; dy : Z; dist : surd }.

(** The first pair of loops: [distance_map[i,j] = sqrt((i-r)^2 + (j-r)^2)]. *)
Definition distance_map (r_max : Z) : ndarray surd :=
  let L := 2 * r_max + 1 in
  mk_ndarray L L
    (map (fun i => map (fun j => Sqrt ((i - r_max) ^ 2 + (j - r_max) ^ 2))
                       (range 0 L))
         (range 0 L)).

(** The second pair of loops: the offsets of the disk, in scan order. *)
Definition disk_offsets (r_max : Z) : list offset :=
  let L := 2 * r_max + 1 in
  let dm := distance_map r_max in
  fold_left (fun acc i =>
    fold_left (fun acc j =>
      if surd_le_int (get dm i j) r_max
      then acc ++ [mk_offset (i - r_max) (j - r_max) (get dm i j)]
      else acc) (range 0 L) acc) (range 0 L) [].

(** [list.sort(key=lambda x: x[2])]: a stable sort by distance. *)
Fixpoint insert_offset (p : offset) (l : list offset) : list offset :=
  match l with
  | [] => [p]
  | q :: t => if s_leb (dist p) (dist q) then p :: q :: t
              else q :: insert_offset p t
  end.

Definition sort_by_dist (l : list offset) : list offset :=
  fold_right insert_offset [] l.

(** [get_distance_list(r_max)]; a negative [r_max] gives a negative array
    size, which [np.zeros] refuses. *)
Definition get_distance_list (r_max : Z) : option (list offset) :=
  if r_max <? 0 then None else Some (sort_by_dist (disk_offsets r_max)).

(** Order of two entries by the radicands of their distances. *)
Definition dist_le (p q : offset) : Prop :=
  radicand (dist p) <= radicand (dist q).

(** [distance] as a real number. *)
Definition distance (p : offset) : R := surd_R (dist p).

(* ================================================================== *)
(** ** [find_local_maxima] *)

(** Row-major order of coordinates. *)
Definition row_major_lt (p q : Z * Z) : Prop :=
  fst p < fst q \/ (fst p = fst q /\ snd p < snd q).

Section LocalMaxima.
Context {V : Type} `{Scalar V}.

(** [np.max(img[i-1:i+2, j-1:j+2]) == img[i,j]]; the slice around an
    interior pixel is never empty. *)
Definition max_is_centre (img : ndarray V) (i j : Z) : bool :=
  match np_max (slice2 img (i - 1) (i + 2) (j - 1) (j + 2)) with
  | Some m => s_eqb m (get img i j)
  | None => false
  end.

Definition is_local_max (img : ndarray V) (i j : Z) : bool :=
  negb (s_eqb (get img i j) s_zero) && max_is_centre img i j.

Definition find_local_maxima (img : ndarray V) : list (Z * Z) :=
  fold_left (fun local_maxima i =>
    fold_left (fun local_maxima j =>
      if is_local_max img i j then local_maxima ++ [(i, j)]
      else local_maxima)
      (range 1 (shape1 img - 1)) local_maxima)
    (range 1 (shape0 img - 1)) [].
End LocalMaxima.

(* ================================================================== *)
(** ** [ultimate_erode] *)

(** A loop body either goes on with a new state or returns from the
    function. *)
Inductive flow (S R : Type) : Type :=
| Next (s : S)
| Return (r : R).
Arguments Next {S R}.
Arguments Return {S R}.

Fixpoint for_each {A S R} (body : A -> S -> flow S R) (l : list A) (s : S)
  : flow S R :=
  match l with
  | [] => Next s
  | x :: t => match body x s with
              | Next s' => for_each body t s'
              | Return r => Return r
              end
  end.

Section UltimateErode.
Context {V : Type} `{Scalar V}.

Definition out_of_bounds (img : ndarray V) (i j : Z) : bool :=
  (i <? 0) || (i >=? shape0 img) || (j <? 0) || (j >=? shape1 img).

(** [for pixel in distance_list: ...], left at the first offset that is
    out of bounds or on a zero pixel. *)
Fixpoint scan_offsets (img : ndarray V) (i j : Z) (distance_list : list offset)
         (img_dist : ndarray surd) : ndarray surd :=
  match distance_list with
  | [] => img_dist
  | pixel :: rest =>
      if out_of_bounds img (i + dx pixel) (j + dy pixel)
      then set img_dist i j (dist pixel)
      else if s_eqb (get img (i + dx pixel) (j + dy pixel)) s_zero
      then set img_dist i j (dist pixel)
      else scan_offsets img i j rest img_dist
  end.

(** The body of the two loops over the pixels. *)
Definition erode_pixel (img : ndarray V) (distance_list : list offset)
           (i j : Z) (img_dist : ndarray surd)
  : flow (ndarray surd) (list (Z * Z)) :=
  if negb (s_eqb (get img i j) s_zero) then
    let img_dist' := scan_offsets img i j distance_list img_dist in
    if s_eqb (get img_dist' i j) s_zero then Return [] else Next img_dist'
  else Next img_dist.

Definition erode_loops (img : ndarray V) (distance_list : list offset)
  : flow (ndarray surd) (list (Z * Z)) :=
  for_each (fun i =>
    for_each (fun j => erode_pixel img distance_list i j)
             (range 0 (shape1 img)))
    (range 0 (shape0 img)) (zeros (shape0 img) (shape1 img)).

(** [ultimate_erode(img, orig)]. *)
Definition ultimate_erode {O : Type} (img : ndarray V) (orig : O)
  : list (Z * Z) :=
  match get_distance_list 16 with
  | None => []
  | Some distance_list =>
      match erode_loops img distance_list with
      | Return r => r
      | Next img_dist => find_local_maxima img_dist
      end
  end.

(** *** The detector as the specification words it, with a radius *)

(** Distance of the first offset that lands outside the mask or on a zero
    pixel, if there is one. *)
Definition first_hit (mask : ndarray V) (i j : Z) (dl : list offset)
  : option surd :=
  option_map dist
    (find (fun p => out_of_bounds mask (i + dx p) (j + dy p)
                    || s_eqb (get mask (i + dx p) (j + dy p)) s_zero) dl).

(** The distance-to-background value of a pixel; [0] for a background
    pixel and for a foreground pixel with no background within reach. *)
Definition pixel_distance (mask : ndarray V) (dl : list offset) (i j : Z)
  : surd :=
  if s_eqb (get mask i j) s_zero then s_zero
  else match first_hit mask i j dl with
       | Some d => d
       | None => s_zero
       end.

Definition distance_field (mask : ndarray V) (dl : list offset)
  : ndarray surd :=
  mk_ndarray (shape0 mask) (shape1 mask)
    (map (fun i => map (fun j => pixel_distance mask dl i j)
                       (range 0 (shape1 mask)))
         (range 0 (shape0 mask))).

(** A foreground pixel at which the scan aborts. *)
Definition aborts_at (img : ndarray V) (dl : list offset) (ij : Z * Z) : bool :=
  negb (s_eqb (get img (fst ij) (snd ij)) s_zero)
  && s_eqb (pixel_distance img dl (fst ij) (snd ij)) s_zero.

(** Some foreground pixel has distance [0]. *)
Definition inconclusive (mask : ndarray V) (dl : list offset) : bool :=
  existsb (fun ij => negb (s_eqb (get mask (fst ij) (snd ij)) s_zero)
                     && s_eqb (pixel_distance mask dl (fst ij) (snd ij)) s_zero)
          (grid (range 0 (shape0 mask)) (range 0 (shape1 mask))).

(** The contract [ultimate_erode(mask, radius)] of the specification. *)
Definition ultimate_erode_spec (mask : ndarray V) (radius : Z)
  : option (list (Z * Z)) :=
  match get_distance_list radius with
  | None => None
  | Some dl =>
      Some (if inconclusive mask dl then []
            else find_local_maxima (distance_field mask dl))
  end.
End UltimateErode.

(* ================================================================== *)
(** ** Exceptions *)

Definition obind {A B} (m : option A) (k : A -> option B) : option B :=
  match m with
  | Some x => k x
  | None => None
  end.

Declare Scope opt_scope.
Delimit Scope opt_scope with opt.
Notation "'try' x <- m ; k" := (obind m (fun x => k))
  (at level 10, x name, m at level 100, k at level 200) : opt_scope.

(* ================================================================== *)
(** ** [fwhm] *)

(** The float arithmetic [fwhm] uses.  Nothing is assumed about it: the
    properties of [fwhm] below hold for every interpretation, IEEE
    doubles included. *)
Class FloatArith (F : Type) := {
  f_of_Z : Z -> F;
  f_half : F;
  f_add : F -> F -> F;
  f_sub : F -> F -> F;
  f_mul : F -> F -> F;
  f_div : F -> F -> F;
  f_ltb : F -> F -> bool;
  f_leb : F -> F -> bool;
  f_eqb : F -> F -> bool;
  f_isnan : F -> bool;
  f_sign : F -> F
}.

Definition Qltb (x y : Q) : bool := negb (Qle_bool y x).

Definition Qsign (x : Q) : Q :=
  match Qcompare x 0 with
  | Lt => (-1)%Q
  | Eq => 0%Q
  | Gt => 1%Q
  end.

(** Exact rational arithmetic; no rational is a NaN. *)
#[export] Instance Q_FloatArith : FloatArith Q :=
  {| f_of_Z := inject_Z; f_half := (1 # 2)%Q;
     f_add := Qplus; f_sub := Qminus; f_mul := Qmult; f_div := Qdiv;
     f_ltb := Qltb; f_leb := Qle_bool; f_eqb := Qeq_bool;
     f_isnan := fun _ => false; f_sign := Qsign |}.

(** IEEE binary64, the [float64] of numpy. *)
Definition b64_of_Z (z : Z) : PrimFloat.float :=
  if z <? 0 then PrimFloat.opp (PrimFloat.of_uint63 (Uint63.of_Z (- z)))
  else PrimFloat.of_uint63 (Uint63.of_Z z).

Definition b64_sign (x : PrimFloat.float) : PrimFloat.float :=
  if PrimFloat.ltb x (b64_of_Z 0) then b64_of_Z (-1)
  else if PrimFloat.ltb (b64_of_Z 0) x then b64_of_Z 1
  else if PrimFloat.eqb x (b64_of_Z 0) then b64_of_Z 0
  else PrimFloat.nan.

#[export] Instance b64_FloatArith : FloatArith PrimFloat.float :=
  {| f_of_Z := b64_of_Z; f_half := PrimFloat.div (b64_of_Z 1) (b64_of_Z 2);
     f_add := PrimFloat.add; f_sub := PrimFloat.sub;
     f_mul := PrimFloat.mul; f_div := PrimFloat.div;
     f_ltb := PrimFloat.ltb; f_leb := PrimFloat.leb; f_eqb := PrimFloat.eqb;
     f_isnan := PrimFloat.is_nan; f_sign := b64_sign |}.

(** [x_width]: a float, or the integer [0] of the truncated case. *)
Inductive width (F : Type) : Type :=
| Wfloat (w : F)
| Wint (z : Z).
Arguments Wfloat {F}.
Arguments Wint {F}.

Section Fwhm.
Context {F : Type} `{FloatArith F}.
Local Open Scope opt_scope.

(** [x = np.linspace(0, 255, 256).astype(int)], indexed. *)
Definition x_at (k : nat) : option Z :=
  if (k <? 256)%nat then Some (Z.of_nat k) else None.

(** [np.max(data)]: the reduction of [np.maximum], whose step keeps the
    running value [m] when [m >= y] or [m] is a NaN and takes [y]
    otherwise.  A NaN in the array is therefore the result; of equal
    elements the first is kept. *)
Definition np_fmax (data : list F) : option F :=
  match data with
  | [] => None
  | v :: t =>
      Some (fold_left (fun m y => if f_leb y m || f_isnan m then m else y) t v)
  end.

(** The scan of [np.argmax] and [np.argmin] from the running best
    [(k, v)]: it stops as soon as the best is a NaN, and moves to an
    element that [beats] the best. *)
Fixpoint arg_best (beats : F -> F -> bool) (l : list F) (pos : nat)
         (best : nat * F) : nat :=
  if f_isnan (snd best) then fst best
  else match l with
       | [] => fst best
       | y :: t => arg_best beats t (S pos)
                     (if beats y (snd best) then (pos, y) else best)
       end.

(** [np.argmax(data)] and [np.argmin(data)]: the index of the first NaN
    if there is one, else the first index of the greatest, respectively
    the least, element.  numpy tests [!(y <= m)] and [!(y >= m)], which
    a NaN [y] passes. *)
Definition np_argmax (data : list F) : nat :=
  match data with
  | [] => O
  | v :: t => arg_best (fun y m => negb (f_leb y m)) t 1%nat (O, v)
  end.

Definition np_argmin (data : list F) : nat :=
  match data with
  | [] => O
  | v :: t => arg_best (fun y m => negb (f_leb m y)) t 1%nat (O, v)
  end.

(** [np.sign(a - lev50) == np.sign(b - lev50)] *)
Definition same_side (a b : F) : bool :=
  f_eqb (f_sign (f_sub a f_half)) (f_sign (f_sub b f_half)).

(** [data = data / np.max(data)] *)
Definition normalise (data : list F) : option (list F) :=
  try m <- np_fmax data;
  Some (map (fun v => f_div v m) data).

(** [centre_index], by the polarity of the profile. *)
Definition centre_index (data : list F) : option nat :=
  try d0 <- nth_error data 0;
  Some (if f_ltb d0 f_half then np_argmax data else np_argmin data).

(** The first [while]: stops at the first sign change, fails when [i]
    runs off the array. *)
Fixpoint lead_walk (data : list F) (fuel i : nat) : option nat :=
  match fuel with
  | O => None
  | S fuel' =>
      try a <- nth_error data i;
      try b <- nth_error data (i - 1);
      if same_side a b then lead_walk data fuel' (S i) else Some i
  end.

(** The interpolated crossing between samples [i-1] and [i]. *)
Definition crossing (data : list F) (i : nat) : option F :=
  try a <- nth_error data i;
  try b <- nth_error data (i - 1);
  try xi <- x_at i;
  try xi1 <- x_at (i - 1);
  let interp := f_div (f_sub f_half b) (f_sub a b) in
  Some (f_add (f_of_Z xi1) (f_mul interp (f_of_Z (xi - xi1)))).

Definition leading_edge (data : list F) : option F :=
  try i <- lead_walk data (length data) 1;
  crossing data i.

(** The second [while]: the sign test comes first, then [i <= N-1]. *)
Fixpoint trail_walk (data : list F) (N : Z) (fuel i : nat) : option nat :=
  match fuel with
  | O => None
  | S fuel' =>
      try a <- nth_error data i;
      try b <- nth_error data (i - 1);
      if same_side a b && (Z.of_nat i <=? N - 1)
      then trail_walk data N fuel' (S i)
      else Some i
  end.

Definition fwhm (data : list F) : option (width F * Z) :=
  try data <- normalise data;
  let N := Z.of_nat (length data) - 1 in
  try centre <- centre_index data;
  try extremum_val <- x_at centre;
  try lead_t <- leading_edge data;
  try i <- trail_walk data N (length data) (centre + 1);
  if negb (Z.of_nat i =? N) then
    try trail_t <- crossing data i;
    Some (Wfloat (f_sub trail_t lead_t), extremum_val)
  else
    Some (Wint 0, extremum_val).
End Fwhm.

(* ================================================================== *)
(** ** Simulation: parameters, spots and the random source *)

(** The parameters the two simulators read.  Floats are exact rationals. *)
Record Params := mk_Params {
  num_spots : nat;
  num_frames : nat;
  frame_size : Z * Z;
  diffusionCoeff : Q;
  frameTime : Q;
  pixelSize : Q;
  bleach_time : Q;
  Isingle : Q;
  num_spot_molecules : option Z;
  max_spot_molecules : Z;
  p_bleach_per_frame : Q
}.

(** The fields of a [Spots] object that the simulators touch. *)
Record Spots := mk_Spots {
  positions : list (Q * Q);
  traj_num : list Z;
  spot_intensity : list Q;
  frame : Z
}.

Definition set_positions (s : Spots) (p : list (Q * Q)) : Spots :=
  mk_Spots p (traj_num s) (spot_intensity s) (frame s).
Definition set_traj_num (s : Spots) (t : list Z) : Spots :=
  mk_Spots (positions s) t (spot_intensity s) (frame s).
Definition set_spot_intensity (s : Spots) (v : list Q) : Spots :=
  mk_Spots (positions s) (traj_num s) v (frame s).
Definition set_frame (s : Spots) (f : Z) : Spots :=
  mk_Spots (positions s) (traj_num s) (spot_intensity s) f.

(** [l[n] = x]; an index out of range raises [IndexError]. *)
Definition assign {A} (n : nat) (x : A) (l : list A) : option (list A) :=
  if (n <? length l)%nat then Some (upd n x l) else None.

(** A computation that consumes random draws: it reads the generator from
    a position and leaves it at a later one, or raises. *)
Definition Rand (A : Type) : Type := nat -> option (A * nat).

Definition rret {A} (x : A) : Rand A := fun k => Some (x, k).
Definition rbind {A B} (m : Rand A) (f : A -> Rand B) : Rand B :=
  fun k => match m k with
           | Some (x, k') => f x k'
           | None => None
           end.
Definition lift {A} (o : option A) : Rand A :=
  fun k => option_map (fun x => (x, k)) o.

Declare Scope rand_scope.
Delimit Scope rand_scope with rand.
Notation "x <~ m ;; k" := (rbind m (fun x => k))
  (at level 61, m at next level, right associativity) : rand_scope.

(** [for x in l: s = body x s] *)
Fixpoint rfor {A S} (l : list A) (body : A -> S -> Rand S) (s : S) : Rand S :=
  match l with
  | [] => rret s
  | x :: t => rbind (body x s) (rfor t body)
  end.

(** [n] draws in a row. *)
Fixpoint rrepeat {A} (n : nat) (m : Rand A) : Rand (list A) :=
  match n with
  | O => rret []
  | S n' => rbind m (fun x => rbind (rrepeat n' m) (fun t => rret (x :: t)))
  end.

Definition two_53 : Z := 2 ^ 53.

Section Simulation.
Local Open Scope rand_scope.

(** The outcome of the random draws: the raw output of the generator
    and the standard normal deviates it yields, by position. *)
Variable bits : nat -> Z.
Variable gauss : nat -> Q.

(** [np.sqrt] on floats. *)
Variable np_sqrt : Q -> Q.

(** [Spots(num_spots)]: the constructor belongs to [spots.py], outside
    the two modules embedded here; nothing is assumed about the object it
    returns. *)
Variable Spots_new : nat -> Spots.

(** [random.rand()]: a multiple of [2^-53] in [[0, 1)]. *)
Definition rand : Rand Q :=
  fun k => Some (Qmake (bits k mod two_53) (Z.to_pos two_53), S k).

(** One element of [random.normal(loc, scale, ...)]. *)
Definition normal (loc scale : Q) : Rand Q :=
  fun k => Some ((loc + scale * gauss k)%Q, S k).

(** [random.randint(low, high, n)]: [n] integers of [[low, high)];
    [ValueError] when that range is empty. *)
Definition randint1 (low high : Z) : Rand Z :=
  fun k => Some (low + bits k mod (high - low), S k).

Definition randint (low high : Z) (n : nat) : Rand (list Z) :=
  if low <? high then rrepeat n (randint1 low high) else lift None.

(** [random.rand(n) * scale] *)
Definition rand_scaled (n : nat) (scale : Z) : Rand (list Q) :=
  v <~ rrepeat n rand ;;
  rret (map (fun u => (u * inject_Z scale)%Q) v).

(** [random.normal(positions, S, (num_spots, 2))], row by row. *)
Fixpoint normal_positions (pos : list (Q * Q)) (S : Q) : Rand (list (Q * Q)) :=
  match pos with
  | [] => rret []
  | (x, y) :: t =>
      x' <~ normal x S ;;
      y' <~ normal y S ;;
      t' <~ normal_positions t S ;;
      rret ((x', y') :: t')
  end.

(** [real_spots[0].positions[:, 0] = ...; real_spots[0].positions[:, 1] = ...] *)
Definition init_positions (params : Params) (real_spots : list Spots)
  : Rand (list Spots) :=
  xs <~ rand_scaled (num_spots params) (fst (frame_size params)) ;;
  s0 <~ lift (nth_error real_spots 0) ;;
  ys <~ rand_scaled (num_spots params) (snd (frame_size params)) ;;
  rret (upd 0 (set_positions s0 (combine xs ys)) real_spots).

(** *** [simulate] *)

(** One turn of [for spot in bleached_spots]: the filter is lazy, so the
    draw that selects a spot comes right before its redraw. *)
Definition bleach_spot (params : Params) (spot : nat) (s : Spots) : Rand Spots :=
  u <~ rand ;;
  if Qltb u (1 / bleach_time params)%Q then
    x <~ rand ;;
    old <~ lift (nth_error (positions s) spot) ;;
    pos1 <~ lift (assign spot ((x * inject_Z (fst (frame_size params)))%Q, snd old)
                         (positions s)) ;;
    y <~ rand ;;
    pos2 <~ lift (assign spot ((x * inject_Z (fst (frame_size params)))%Q,
                               (y * inject_Z (snd (frame_size params)))%Q) pos1) ;;
    top <~ lift (np_max (traj_num s)) ;;
    let next_traj_num := top + 1 in
    traj <~ lift (assign spot next_traj_num (traj_num s)) ;;
    rret (set_traj_num (set_positions s pos2) traj)
  else rret s.

(** The body of [for frame in range(1, params.num_frames)].  The ids of
    the previous frame are copied ([traj_num[:]] on a list), as the
    specification has it, so a write to the copy leaves the previous frame
    alone.  Without bleaching nothing is written to them at all. *)
Definition diffuse_frame (params : Params) (S : Q) (frame : nat)
           (real_spots : list Spots) : Rand (list Spots) :=
  cur <~ lift (nth_error real_spots frame) ;;
  prev <~ lift (nth_error real_spots (frame - 1)) ;;
  let cur := set_frame cur (Z.of_nat frame) in
  let cur := set_traj_num cur (traj_num prev) in
  pos <~ normal_positions (positions prev) S ;;
  let cur := set_positions cur pos in
  cur <~ (if Qltb 0 (bleach_time params)
          then rfor (seq 0 (num_spots params)) (bleach_spot params) cur
          else rret cur) ;;
  rret (upd frame cur real_spots).

(** [real_spots] when the diffusion loop of [simulate] is over (lines
    39-71).  The rest of [simulate] renders the frames; of these records
    it writes [spot_intensity] only. *)
Definition simulate_spots (params : Params) : Rand (list Spots) :=
  let real_spots := map (fun _ => Spots_new (num_spots params))
                        (seq 0 (num_frames params)) in
  real_spots <~ init_positions params real_spots ;;
  s0 <~ lift (nth_error real_spots 0) ;;
  let real_spots := upd 0 (set_frame s0 0) real_spots in
  let S := (np_sqrt (2 * diffusionCoeff params * frameTime params)
            / pixelSize params)%Q in
  rfor (seq 1 (num_frames params - 1)) (diffuse_frame params S) real_spots.

(** *** [simulate_stepwise_bleaching] *)

(** [for j in range(n_mols[i]): if random.rand() < p: n_mols[i] -= 1];
    the range is fixed when the loop starts. *)
Fixpoint bleach_molecules (p : Q) (turns : nat) (count : Z) : Rand Z :=
  match turns with
  | O => rret count
  | S turns' =>
      u <~ rand ;;
      bleach_molecules p turns' (if Qltb u p then count - 1 else count)
  end.

(** The body of [for i in range(params.num_spots)]. *)
Definition bleach_count (params : Params) (i : nat) (n_mols : list Z)
  : Rand (list Z) :=
  n <~ lift (nth_error n_mols i) ;;
  if 0 <? n then
    n' <~ bleach_molecules (p_bleach_per_frame params) (Z.to_nat n) n ;;
    lift (assign i n' n_mols)
  else rret n_mols.

(** The state of the frame loop: the spot records and the counts. *)
Record stepwise_state := mk_state {
  st_spots : list Spots;
  st_n_mols : list Z
}.

Definition intensities (params : Params) (n_mols : list Z) : list Q :=
  map (fun n => (Isingle params * inject_Z n)%Q) n_mols.

(** The body of [for frame in range(1, params.num_frames)]. *)
Definition stepwise_frame (params : Params) (frame : nat) (st : stepwise_state)
  : Rand stepwise_state :=
  let real_spots := st_spots st in
  cur <~ lift (nth_error real_spots frame) ;;
  let cur := set_frame cur (Z.of_nat frame) in
  let cur := set_spot_intensity cur (intensities params (st_n_mols st)) in
  prev <~ lift (nth_error real_spots (frame - 1)) ;;
  let cur := set_traj_num cur (traj_num prev) in
  pos <~ normal_positions (positions prev) 0 ;;
  let cur := set_positions cur pos in
  n_mols <~ rfor (seq 0 (num_spots params)) (bleach_count params) (st_n_mols st) ;;
  rret (mk_state (upd frame cur real_spots) n_mols).

(** The initial counts. *)
Definition initial_n_mols (params : Params) : Rand (list Z) :=
  match num_spot_molecules params with
  | Some m => rret (repeat m (num_spots params))
  | None => randint 1 (max_spot_molecules params) (num_spots params)
  end.

(** Lines 110-123: the state before the frame loop, with [gtruth]. *)
Definition stepwise_init (params : Params) : Rand (stepwise_state * list Z) :=
  let real_spots := map (fun _ => Spots_new (num_spots params))
                        (seq 0 (num_frames params)) in
  real_spots <~ init_positions params real_spots ;;
  n_mols <~ initial_n_mols params ;;
  let gtruth := n_mols in
  s0 <~ lift (nth_error real_spots 0) ;;
  let s0 := set_spot_intensity s0 (intensities params n_mols) in
  let s0 := set_frame s0 1 in
  rret (mk_state (upd 0 s0 real_spots) n_mols, gtruth).

(** The state after the first [turns] turns of the frame loop. *)
Definition stepwise_after (params : Params) (turns : nat)
  : Rand (stepwise_state * list Z) :=
  init <~ stepwise_init params ;;
  st <~ rfor (firstn turns (seq 1 (num_frames params - 1)))
             (stepwise_frame params) (fst init) ;;
  rret (st, snd init).

(** [real_spots], the final counts and [gtruth] when the frame loop of
    [simulate_stepwise_bleaching] is over (lines 110-145).  The rest of
    the function renders the frames and leaves these records alone. *)
Definition stepwise_spots (params : Params) : Rand (stepwise_state * list Z) :=
  stepwise_after params (num_frames params - 1).
End Simulation.

(* ================================================================== *)
(** ** What the statements about the simulators speak of *)

(** [m], run from position [k], returns a value that satisfies [P]. *)
Definition returns_at {A} (m : Rand A) (k : nat) (P : A -> Prop) : Prop :=
  exists x k', m k = Some (x, k') /\ P x.

(** Whenever [m] returns, its value satisfies [P]. *)
Definition ensures {A} (m : Rand A) (P : A -> Prop) : Prop :=
  forall k x k', m k = Some (x, k') -> P x.

(** One frame transition of a count: it does not grow, and a count that
    is not negative stays so. *)
Definition step_ok (old new : Z) : Prop := new <= old /\ (0 <= old -> 0 <= new).

(** What one pass of the bleaching loops does to the counts. *)
Definition counts_step (params : Params) (old new : list Z) : Prop :=
  length new = length old /\ Forall2 step_ok old new /\
  ((p_bleach_per_frame params == 0)%Q -> new = old).

(** What holds of the loop state of [simulate_stepwise_bleaching], with
    respect to the ground truth [g]. *)
Definition stepwise_inv (params : Params) (g : list Z) (st : stepwise_state) : Prop :=
  length (st_spots st) = num_frames params /\
  length (st_n_mols st) = num_spots params /\
  counts_step params g (st_n_mols st) /\
  exists s0, nth_error (st_spots st) 0 = Some s0 /\ frame s0 = 1.

(** The molecule configuration with which the initial draw succeeds. *)
Definition molecules_ok (params : Params) : Prop :=
  num_spot_molecules params = None -> 1 < max_spot_molecules params.

(** What holds of the records up to frame [m] while [simulate] runs
    without bleaching. *)
Definition ids_kept (Spots_new : nat -> Spots) (params : Params) (m : nat)
           (rs : list Spots) : Prop :=
  length rs = num_frames params /\
  (forall f s s0, (f < m)%nat -> nth_error rs f = Some s ->
                  nth_error rs 0 = Some s0 -> traj_num s = traj_num s0) /\
  (forall s0, nth_error rs 0 = Some s0 ->
              traj_num s0 = traj_num (Spots_new (num_spots params))).

(** The records below [m] carry their position as frame index. *)
Definition frames_set (params : Params) (m : nat) (rs : list Spots) : Prop :=
  length rs = num_frames params /\
  forall f s, (f < m)%nat -> nth_error rs f = Some s -> frame s = Z.of_nat f.

(* ================================================================== *)
(** ** Concrete inputs *)

(** A mask of ones. *)
Definition ones (n m : nat) : ndarray Z :=
  mk_ndarray (Z.of_nat n) (Z.of_nat m) (repeat (repeat 1 m) n).

Definition field_3x4 : ndarray Z :=
  mk_ndarray 3 4 [[0; 9; 0; 0]; [0; 5; 5; 0]; [0; 0; 0; 7]].

(** A profile of doubles whose peak runs to the end of the array. *)
Definition plateau_profile : list PrimFloat.float :=
  map b64_of_Z [0; 1; 2; 4; 4; 4].

(** A profile of doubles that rises to its last sample:
    [np.array([0., 1., 2., 3., 4.])]. *)
Definition rising_profile : list PrimFloat.float :=
  map b64_of_Z [0; 1; 2; 3; 4].

(** Profiles of doubles with a NaN or an infinity among the samples. *)
Definition nan_profile : list PrimFloat.float :=
  [b64_of_Z 0; PrimFloat.nan; b64_of_Z 1; b64_of_Z 0].
Definition inf_profile : list PrimFloat.float :=
  [b64_of_Z 0; PrimFloat.infinity; b64_of_Z 1].

(** A random source, a square root and a [Spots] constructor to run the
    simulators on. *)
Definition demo_bits (k : nat) : Z :=
  Z.of_nat k * 6364136223846793005 + 1442695040888963407.
Definition demo_gauss (k : nat) : Q := (Z.of_nat k - 3 # 4)%Q.
Definition demo_sqrt (x : Q) : Q := x.

(** A [Spots] constructor for the runs: zeroed arrays, ids [0..n-1]. *)
Definition demo_Spots (n : nat) : Spots :=
  mk_Spots (repeat (0, 0)%Q n) (map Z.of_nat (seq 0 n)) (repeat 0%Q n) 0.

Definition demo_params (bleach : Q) (fixed : option Z) (p : Q) : Params :=
  mk_Params 2 3 (32, 32) 1 1 1 bleach 100 fixed 3 p.

(* ================================================================== *)
(** ** Further notions for the statements *)

(** The order of the entries of a distance list: by distance, and at
    equal distance by [dx], then [dy]. *)
Definition offset_order (p q : offset) : Prop :=
  radicand (dist p) < radicand (dist q) \/
  (radicand (dist p) = radicand (dist q) /\
   row_major_lt (dx p, dy p) (dx q, dy q)).

(** The offset [(x, y)] from [(i, j)] lands outside the mask or on a zero
    pixel. *)
Definition hits {V} `{Scalar V} (mask : ndarray V) (i j x y : Z) : bool :=
  out_of_bounds mask (i + x) (j + y) || s_eqb (get mask (i + x) (j + y)) s_zero.


(** A field with one bright pixel on a zero background, and a field with
    a plateau next to a higher pixel. *)
Definition field_one_pixel : ndarray Z :=
  mk_ndarray 4 4 [[0; 0; 0; 0]; [0; 0; 0; 0]; [0; 0; 6; 0]; [0; 0; 0; 0]].

Definition field_plateau : ndarray Z :=
  mk_ndarray 4 5 [[0; 0; 0; 0; 0]; [0; 5; 5; 0; 0]; [0; 0; 0; 0; 0]; [0; 0; 0; 0; 0]].


(** Two masks with the same zero pattern, of different element types. *)
Definition mask_cross : ndarray Z :=
  mk_ndarray 5 5 [[0; 0; 1; 0; 0]; [0; 1; 1; 1; 0]; [1; 1; 1; 1; 1];
                  [0; 1; 1; 1; 0]; [0; 0; 1; 0; 0]].

Definition mask_cross_surd : ndarray surd :=
  mk_ndarray 5 5 (map (map (fun v => Sqrt (7 * v))) (rows mask_cross)).


Section FwhmNotions.
Context {F : Type} `{FloatArith F}.

(** The sign of [sample - 0.5] changes between indices [k - 1] and [k]. *)
Definition sign_change (data : list F) (k : nat) : Prop :=
  exists a b, nth_error data k = Some a /\ nth_error data (k - 1) = Some b /\
              same_side a b = false.

(** It does not change at any index of [[lo, hi)]. *)
Definition no_sign_change (data : list F) (lo hi : nat) : Prop :=
  forall k a b, (lo <= k < hi)%nat ->
                nth_error data k = Some a -> nth_error data (k - 1) = Some b ->
                same_side a b = true.

(** [i] is the first index from [lo] on at which it changes. *)
Definition first_sign_change (data : list F) (lo i : nat) : Prop :=
  (lo <= i)%nat /\ sign_change data i /\ no_sign_change data lo i.
End FwhmNotions.


(** A profile of doubles with a peak in the middle. *)
Definition triangle_profile : list PrimFloat.float :=
  map b64_of_Z [0; 1; 2; 1; 0].


(** A draw of [random.rand()]. *)
Definition unit_draw (u : Q) : Prop := (0 <= u)%Q /\ (u < 1)%Q.

(** The ids [t] of a frame against the ids [T] of the frame before: each
    slot keeps its id or holds one that is greater than every id of [T]. *)
Definition ids_grow (T t : list Z) : Prop :=
  Forall2 (fun a b => b = a \/ Forall (fun c => c < b) T) T t.

(** What the bleaching loop of [simulate] keeps of the record [c0] it
    starts from. *)
Definition bleach_inv (c0 c : Spots) : Prop :=
  frame c = frame c0 /\
  length (positions c) = length (positions c0) /\
  ids_grow (traj_num c0) (traj_num c) /\
  (NoDup (traj_num c0) -> NoDup (traj_num c)).

(** The record of frame 0 of [simulate]. *)
Definition frame0_ok (Spots_new : nat -> Spots) (params : Params) (s0 : Spots) : Prop :=
  frame s0 = 0 /\
  traj_num s0 = traj_num (Spots_new (num_spots params)) /\
  exists us vs,
    length us = num_spots params /\ length vs = num_spots params /\
    Forall unit_draw us /\ Forall unit_draw vs /\
    positions s0
    = combine (map (fun u => (u * inject_Z (fst (frame_size params)))%Q) us)
              (map (fun u => (u * inject_Z (snd (frame_size params)))%Q) vs).

(** The record [s] of frame [f] of [simulate] against the record [prev]
    of the frame before. *)
Definition frame_ok (f : nat) (prev s : Spots) : Prop :=
  frame s = Z.of_nat f /\
  length (positions s) = length (positions prev) /\
  ids_grow (traj_num prev) (traj_num s) /\
  (NoDup (traj_num prev) -> NoDup (traj_num s)).

(** What holds of the records of [simulate] when the frames below [m]
    are done. *)
Definition simulate_inv (Spots_new : nat -> Spots) (params : Params) (m : nat)
           (rs : list Spots) : Prop :=
  length rs = num_frames params /\
  (exists s0, nth_error rs 0 = Some s0 /\ frame0_ok Spots_new params s0) /\
  forall f prev s, (1 <= f < m)%nat ->
                   nth_error rs (f - 1) = Some prev -> nth_error rs f = Some s ->
                   frame_ok f prev s.


(** Two positions with equal coordinates. *)
Definition pos_eq (p q : Q * Q) : Prop := (fst p == fst q)%Q /\ (snd p == snd q)%Q.

(** What holds of the records of [simulate_stepwise_bleaching] after
    [turns] turns of its frame loop. *)
Definition stepwise_records_inv (turns : nat) (rs : list Spots) : Prop :=
  exists s0, nth_error rs 0 = Some s0 /\
    forall f s, (1 <= f <= turns)%nat -> nth_error rs f = Some s ->
      frame s = Z.of_nat f /\ traj_num s = traj_num s0 /\
      Forall2 pos_eq (positions s0) (positions s).

(** The frame loop, from a state whose counts are the ground truth. *)
Definition stepwise_loop_inv (params : Params) (g : list Z) (i : nat)
           (st : stepwise_state) : Prop :=
  stepwise_inv params g st /\
  stepwise_records_inv (i - 1) (st_spots st) /\
  (i = 1%nat -> st_n_mols st = g) /\
  ((1 <= p_bleach_per_frame params)%Q -> (2 <= i)%nat ->
   st_n_mols st = map (Z.min 0) g).

(** A run of [simulate] with bleaching: three frames of two spots,
    [bleach_time = 2]. *)
Definition bleach_params : Params := demo_params 2 None 0.

Definition bleach_records : list Spots :=
  Eval vm_compute in
    match simulate_spots demo_bits demo_gauss demo_sqrt demo_Spots
                         bleach_params 0%nat with
    | Some (rs, _) => rs
    | None => []
    end.

(** Parameters without a frame. *)
Definition no_frame_params : Params :=
  mk_Params 2 0 (32, 32) 1 1 1 0 100 None 3 0.

(* ================================================================== *)
(** * Properties *)

(** ** The order of scalars *)

#[export] Instance Z_ScalarOrder : ScalarOrder Z.
Proof.
  split; simpl; intros.
  - destruct (Z.leb_spec x y); [left; reflexivity | right; apply Z.leb_le; lia].
  - apply Z.leb_le. apply Z.leb_le in H, H0. lia.
  - destruct (Z.eqb_spec x y), (Z.leb_spec x y), (Z.leb_spec y x);
      simpl; try reflexivity; lia.
Qed.

#[export] Instance surd_ScalarOrder : ScalarOrder surd.
Proof.
  split; simpl; intros.
  - destruct (Z.leb_spec (radicand x) (radicand y));
      [left; reflexivity | right; apply Z.leb_le; lia].
  - apply Z.leb_le. apply Z.leb_le in H, H0. lia.
  - destruct (Z.eqb_spec (radicand x) (radicand y)),
      (Z.leb_spec (radicand x) (radicand y)),
      (Z.leb_spec (radicand y) (radicand x)); simpl; try reflexivity; lia.
Qed.

(** ** Lists, ranges and loops that append *)

Lemma in_range (lo hi x : Z) : In x (range lo hi) <-> lo <= x < hi.
Proof.
  unfold range. rewrite in_map_iff. split.
  - intros [k [<- Hk]]. apply in_seq in Hk. lia.
  - intros Hx. exists (Z.to_nat (x - lo)). split; [lia | apply in_seq; lia].
Qed.

Lemma range_length (lo hi : Z) : length (range lo hi) = Z.to_nat (hi - lo).
Proof. unfold range. now rewrite length_map, length_seq. Qed.

Lemma nth_map_range {A} (f : Z -> A) (n i : Z) (d : A) :
  0 <= i < n -> nth (Z.to_nat i) (map f (range 0 n)) d = f i.
Proof.
  intros Hi. unfold range. rewrite map_map.
  rewrite nth_indep with (d' := f (0 + Z.of_nat 0)) by (rewrite length_map, length_seq; lia).
  rewrite (map_nth (fun k => f (0 + Z.of_nat k)) (seq 0 (Z.to_nat (n - 0))) 0%nat).
  rewrite seq_nth by lia. f_equal. lia.
Qed.

Lemma fold_append {A B} (f : A -> bool) (g : A -> B) (l : list A) (acc : list B) :
  fold_left (fun acc x => if f x then acc ++ [g x] else acc) l acc
  = acc ++ map g (filter f l).
Proof.
  revert acc. induction l as [|x l IH]; intros acc; simpl.
  - now rewrite app_nil_r.
  - rewrite IH. destruct (f x); simpl; [now rewrite <- app_assoc | reflexivity].
Qed.

Lemma fold_append2 {A B C} (f : A -> B -> bool) (g : A -> B -> C)
      (la : list A) (lb : list B) (acc : list C) :
  fold_left (fun acc i =>
    fold_left (fun acc j => if f i j then acc ++ [g i j] else acc) lb acc) la acc
  = acc ++ flat_map (fun i => map (g i) (filter (f i) lb)) la.
Proof.
  revert acc. induction la as [|i la IH]; intros acc; simpl.
  - now rewrite app_nil_r.
  - rewrite fold_append, IH. now rewrite <- app_assoc.
Qed.

(** ** [get_distance_list] *)

Lemma get_distance_map (r i j : Z) :
  0 <= i < 2 * r + 1 -> 0 <= j < 2 * r + 1 ->
  get (distance_map r) i j = Sqrt ((i - r) ^ 2 + (j - r) ^ 2).
Proof.
  intros Hi Hj. unfold get, distance_map; cbn [rows].
  rewrite (nth_map_range _ _ _ _ Hi). now rewrite (nth_map_range _ _ _ _ Hj).
Qed.

Lemma in_disk_offsets (r : Z) (p : offset) :
  In p (disk_offsets r) ->
  - r <= dx p <= r /\ - r <= dy p <= r /\
  dist p = Sqrt (dx p ^ 2 + dy p ^ 2) /\ dx p ^ 2 + dy p ^ 2 <= r * r.
Proof.
  unfold disk_offsets. cbv zeta.
  rewrite (fold_append2
             (fun i j => surd_le_int (get (distance_map r) i j) r)
             (fun i j => mk_offset (i - r) (j - r) (get (distance_map r) i j))).
  cbn [app]. rewrite in_flat_map. intros [i [Hi Hp]].
  apply in_map_iff in Hp. destruct Hp as [j [<- Hj]].
  apply filter_In in Hj. destruct Hj as [Hj Hle].
  apply in_range in Hi, Hj. cbn [dx dy dist].
  rewrite get_distance_map in * by lia.
  unfold surd_le_int in Hle. cbn [radicand] in Hle. apply Z.leb_le in Hle.
  repeat split; lia.
Qed.

Lemma insert_offset_perm (p : offset) (l : list offset) :
  Permutation (p :: l) (insert_offset p l).
Proof.
  induction l as [|q l IH]; cbn [insert_offset]; [reflexivity|].
  destruct (s_leb (dist p) (dist q)); [reflexivity|].
  rewrite perm_swap. now apply perm_skip.
Qed.

Lemma sort_by_dist_perm (l : list offset) : Permutation l (sort_by_dist l).
Proof.
  induction l as [|p l IH]; simpl; [reflexivity|].
  rewrite <- insert_offset_perm. now apply perm_skip.
Qed.

Lemma insert_offset_sorted (p : offset) (l : list offset) :
  StronglySorted dist_le l -> StronglySorted dist_le (insert_offset p l).
Proof.
  induction 1 as [|q l Hs IH Hq]; simpl.
  - repeat constructor.
  - destruct (Z.leb_spec (radicand (dist p)) (radicand (dist q))) as [Hle|Hgt].
    + constructor; [now constructor|]. constructor; [exact Hle|].
      eapply Forall_impl; [|exact Hq]. unfold dist_le. intros; lia.
    + constructor; [exact IH|].
      eapply Permutation_Forall; [apply insert_offset_perm|].
      constructor; [unfold dist_le; lia | exact Hq].
Qed.

Lemma sort_by_dist_sorted (l : list offset) :
  StronglySorted dist_le (sort_by_dist l).
Proof.
  induction l as [|p l IH]; simpl; [constructor | now apply insert_offset_sorted].
Qed.

Lemma StronglySorted_impl {A} (R1 R2 : A -> A -> Prop) (l : list A) :
  (forall x y, In x l -> In y l -> R1 x y -> R2 x y) ->
  StronglySorted R1 l -> StronglySorted R2 l.
Proof.
  intros Himp Hs. induction Hs as [|x l Hs IH Hx]; constructor.
  - apply IH. intros; apply Himp; simpl; auto.
  - rewrite Forall_forall in *. intros y Hy. apply Himp; simpl; auto.
Qed.

Lemma surd_R_le_int (n r : Z) :
  0 <= r -> n <= r * r -> (sqrt (IZR n) <= IZR r)%R.
Proof.
  intros Hr Hn. rewrite <- (sqrt_square (IZR r)) by now apply IZR_le.
  apply sqrt_le_1_alt. rewrite <- mult_IZR. now apply IZR_le.
Qed.

(** On the radicands that occur at radius 16 (at most [2 * 16^2]), the
    order and the equality of surds are those of the binary64 square
    roots, and so is the comparison with the radius. *)
Lemma surd_order_is_binary64_order :
  let roots := map (fun n => (n, PrimFloat.sqrt (b64_of_Z n))) (range 0 513) in
  forallb (fun a =>
    Bool.eqb (PrimFloat.leb (snd a) (b64_of_Z 16)) (surd_le_int (Sqrt (fst a)) 16)
    && forallb (fun b =>
         Bool.eqb (PrimFloat.leb (snd a) (snd b)) (s_leb (Sqrt (fst a)) (Sqrt (fst b)))
         && Bool.eqb (PrimFloat.eqb (snd a) (snd b)) (s_eqb (Sqrt (fst a)) (Sqrt (fst b))))
         roots) roots = true.
Proof. vm_compute. reflexivity. Qed.

Lemma get_distance_list_nonneg (r : Z) :
  0 <= r -> get_distance_list r = Some (sort_by_dist (disk_offsets r)).
Proof.
  intros Hr. unfold get_distance_list.
  destruct (Z.ltb_spec r 0); [lia | reflexivity].
Qed.

Lemma get_distance_list_entries (r : Z) (l : list offset) (p : offset) :
  get_distance_list r = Some l -> In p l ->
  0 <= r /\ - r <= dx p <= r /\ - r <= dy p <= r /\
  dist p = Sqrt (dx p ^ 2 + dy p ^ 2) /\ dx p ^ 2 + dy p ^ 2 <= r * r.
Proof.
  unfold get_distance_list. destruct (Z.ltb_spec r 0) as [|Hr]; [discriminate|].
  intros [= <-] Hp. split; [exact Hr|].
  apply in_disk_offsets.
  eapply Permutation_in; [symmetry; apply sort_by_dist_perm | exact Hp].
Qed.

(** C2: for every radius [r >= 0], [get_distance_list r] returns a list
    whose entries [(dx, dy, distance)] have integer [dx], [dy] in [[-r, r]]
    and [distance = sqrt(dx^2 + dy^2) <= r], and that list is sorted
    non-decreasingly by distance. *)
Theorem get_distance_list_disk_sorted (r : Z) :
  0 <= r ->
  exists l, get_distance_list r = Some l /\
    (forall p, In p l ->
       - r <= dx p <= r /\ - r <= dy p <= r /\
       distance p = sqrt (IZR (dx p ^ 2 + dy p ^ 2)) /\
       (distance p <= IZR r)%R) /\
    StronglySorted (fun p q => (distance p <= distance q)%R) l.
Proof.
  intros Hr. exists (sort_by_dist (disk_offsets r)).
  pose proof (get_distance_list_nonneg r Hr) as Hdef.
  split; [exact Hdef|]. split.
  - intros p Hp.
    destruct (get_distance_list_entries _ _ _ Hdef Hp) as (_ & Hx & Hy & Hd & Hle).
    unfold distance, surd_R. rewrite Hd. cbn [radicand].
    repeat split; try lia. now apply surd_R_le_int.
  - eapply StronglySorted_impl; [|apply sort_by_dist_sorted].
    intros p q _ _ Hpq. unfold distance, surd_R.
    apply sqrt_le_1_alt. now apply IZR_le.
Qed.

Lemma get_distance_list_disk_sorted_witness :
  exists l, get_distance_list 2 = Some l /\
    (forall p, In p l ->
       - 2 <= dx p <= 2 /\ - 2 <= dy p <= 2 /\
       distance p = sqrt (IZR (dx p ^ 2 + dy p ^ 2)) /\
       (distance p <= IZR 2)%R) /\
    StronglySorted (fun p q => (distance p <= distance q)%R) l.
Proof. apply (get_distance_list_disk_sorted 2). lia. Defined.

(** ** Array access *)

Lemma firstn3_skipn {A} (k : nat) (l : list A) (d : A) :
  (k + 3 <= length l)%nat ->
  firstn 3 (skipn k l) = [nth k l d; nth (S k) l d; nth (S (S k)) l d].
Proof.
  revert l. induction k as [|k IH]; intros l Hl.
  - destruct l as [|a [|b [|c l]]]; simpl in Hl; try lia. reflexivity.
  - destruct l as [|a l]; simpl in Hl; [lia|]. simpl skipn.
    rewrite (IH l) by lia. reflexivity.
Qed.

Lemma slice3 {A} (i : Z) (l : list A) (d : A) :
  1 <= i -> i + 2 <= Z.of_nat (length l) ->
  slice (i - 1) (i + 2) l
  = [nth (Z.to_nat (i - 1)) l d; nth (Z.to_nat i) l d; nth (Z.to_nat (i + 1)) l d].
Proof.
  intros Hi Hl. unfold slice.
  replace (Z.to_nat (i + 2 - (i - 1))) with 3%nat by lia.
  rewrite (firstn3_skipn _ _ d) by lia.
  replace (S (Z.to_nat (i - 1))) with (Z.to_nat i) by lia.
  replace (S (Z.to_nat i)) with (Z.to_nat (i + 1)) by lia.
  reflexivity.
Qed.

Section ArrayFacts.
Context {V : Type} `{Scalar V}.

Lemma wf_row (a : ndarray V) (i : Z) :
  wf a -> 0 <= i < shape0 a ->
  Z.of_nat (length (nth (Z.to_nat i) (rows a) [])) = shape1 a.
Proof.
  intros (_ & Hlen & Hrows) Hi. rewrite Forall_forall in Hrows.
  apply Hrows, nth_In. lia.
Qed.

Lemma wfb_wf (a : ndarray V) : wfb a = true -> wf a.
Proof.
  unfold wfb, wf. rewrite !andb_true_iff, forallb_forall, Forall_forall.
  intros [[H1 H2] H3]. repeat split; [lia | lia |].
  intros r Hr. apply Z.eqb_eq. now apply H3.
Qed.

Lemma slice2_window (a : ndarray V) (i j : Z) :
  wf a -> 1 <= i <= shape0 a - 2 -> 1 <= j <= shape1 a - 2 ->
  slice2 a (i - 1) (i + 2) (j - 1) (j + 2) = window a i j.
Proof.
  intros Hwf Hi Hj. unfold slice2, window, get.
  pose proof Hwf as (_ & Hlen & _).
  rewrite (slice3 i (rows a) []) by lia.
  cbn [map concat grid flat_map app fst snd].
  rewrite !(slice3 j _ s_zero); try lia;
    try (rewrite wf_row by (try assumption; lia); lia).
  rewrite !Z.add_0_r. replace (i + -1) with (i - 1) by lia.
  replace (j + -1) with (j - 1) by lia. reflexivity.
Qed.
End ArrayFacts.

(** ** [find_local_maxima] *)

Lemma filter_grid (f : Z * Z -> bool) (rs cs : list Z) :
  flat_map (fun i => map (pair i) (filter (fun j => f (i, j)) cs)) rs
  = filter f (grid rs cs).
Proof.
  unfold grid. induction rs as [|i rs IH]; simpl; [reflexivity|].
  rewrite filter_app, IH. f_equal. clear IH.
  induction cs as [|j cs IHc]; simpl; [reflexivity|].
  destruct (f (i, j)); simpl; now rewrite IHc.
Qed.

Lemma in_grid (rs cs : list Z) (i j : Z) :
  In (i, j) (grid rs cs) <-> In i rs /\ In j cs.
Proof.
  unfold grid. rewrite in_flat_map. split.
  - intros [i' [Hi Hj]]. apply in_map_iff in Hj.
    destruct Hj as [j' [[= -> ->] Hj]]. now split.
  - intros [Hi Hj]. exists i. split; [exact Hi | now apply in_map].
Qed.

Lemma range_sorted (lo hi : Z) : StronglySorted Z.lt (range lo hi).
Proof.
  unfold range. generalize (Z.to_nat (hi - lo)) as n. intros n.
  generalize 0%nat as s. induction n as [|n IH]; intros s; simpl.
  - constructor.
  - constructor; [apply IH|]. apply Forall_forall. intros x Hx.
    apply in_map_iff in Hx. destruct Hx as [k [<- Hk]]. apply in_seq in Hk. lia.
Qed.

Lemma app_sorted {A} (R : A -> A -> Prop) (l1 l2 : list A) :
  StronglySorted R l1 -> StronglySorted R l2 ->
  (forall x y, In x l1 -> In y l2 -> R x y) ->
  StronglySorted R (l1 ++ l2).
Proof.
  intros H1 H2 Hx. induction H1 as [|x l1 H1 IH Hl]; simpl; [exact H2|].
  constructor.
  - apply IH. intros; apply Hx; simpl; auto.
  - apply Forall_app. split; [exact Hl|].
    apply Forall_forall. intros y Hy. apply Hx; simpl; auto.
Qed.

Lemma row_sorted (i : Z) (cs : list Z) :
  StronglySorted Z.lt cs -> StronglySorted row_major_lt (map (pair i) cs).
Proof.
  induction 1 as [|j cs Hcs IH Hj]; simpl; constructor; [exact IH|].
  rewrite Forall_forall in *. intros q Hq. apply in_map_iff in Hq.
  destruct Hq as [j' [<- Hj']]. right. simpl. split; [reflexivity | now apply Hj].
Qed.

Lemma grid_sorted (rs cs : list Z) :
  StronglySorted Z.lt rs -> StronglySorted Z.lt cs ->
  StronglySorted row_major_lt (grid rs cs).
Proof.
  intros Hrs Hcs. unfold grid.
  induction Hrs as [|i rs Hrs IH Hi]; simpl; [constructor|].
  apply app_sorted; [now apply row_sorted | exact IH |].
  intros p [i' j'] Hp Hq. apply (in_grid rs cs) in Hq.
  apply in_map_iff in Hp. destruct Hp as [j [<- _]].
  rewrite Forall_forall in Hi. left. simpl. apply Hi, Hq.
Qed.

Lemma filter_sorted {A} (R : A -> A -> Prop) (f : A -> bool) (l : list A) :
  StronglySorted R l -> StronglySorted R (filter f l).
Proof.
  induction 1 as [|x l Hs IH Hx]; simpl; [constructor|].
  destruct (f x); [|exact IH]. constructor; [exact IH|].
  rewrite Forall_forall in *. intros y Hy. apply filter_In in Hy. now apply Hx.
Qed.

Section LocalMaximaFacts.
Context {V : Type} `{ScalarOrder V}.

Lemma find_local_maxima_filter (img : ndarray V) :
  find_local_maxima img
  = filter (fun ij => is_local_max img (fst ij) (snd ij))
           (grid (range 1 (shape0 img - 1)) (range 1 (shape1 img - 1))).
Proof.
  unfold find_local_maxima.
  rewrite (fold_append2 (is_local_max img) pair). cbn [app].
  apply (filter_grid (fun ij => is_local_max img (fst ij) (snd ij))).
Qed.

Lemma s_leb_refl (x : V) : s_leb x x = true.
Proof. now destruct (s_leb_total x x). Qed.

Lemma s_max_ge_l (x y : V) : s_leb x (s_max x y) = true.
Proof.
  unfold s_max. destruct (s_leb x y) eqn:E; [exact E | apply s_leb_refl].
Qed.

Lemma s_max_ge_r (x y : V) : s_leb y (s_max x y) = true.
Proof.
  unfold s_max. destruct (s_leb x y) eqn:E; [apply s_leb_refl|].
  destruct (s_leb_total x y); congruence.
Qed.

Lemma fold_max_ge (t : list V) (x y : V) :
  In y (x :: t) -> s_leb y (fold_left s_max t x) = true.
Proof.
  revert x y. induction t as [|z t IH]; intros x y Hy; simpl in *.
  - destruct Hy as [->|[]]. apply s_leb_refl.
  - destruct Hy as [->|[->|Hy]].
    + eapply s_leb_trans; [apply s_max_ge_l | apply IH; now left].
    + eapply s_leb_trans; [apply s_max_ge_r | apply IH; now left].
    + apply IH. now right.
Qed.

Lemma fold_max_in (t : list V) (x : V) : In (fold_left s_max t x) (x :: t).
Proof.
  revert x. induction t as [|z t IH]; intros x; simpl; [now left|].
  destruct (IH (s_max x z)) as [E|E]; [|now right; right].
  rewrite <- E. unfold s_max. destruct (s_leb x z); [right; now left | now left].
Qed.

(** [np.max(l) == c] for an element [c] of [l]: every element is [<= c]. *)
Lemma np_max_is (l : list V) (c : V) :
  In c l ->
  (match np_max l with Some m => s_eqb m c | None => false end = true
   <-> forall y, In y l -> s_leb y c = true).
Proof.
  destruct l as [|x t]; [intros []|]. intros Hc. cbn [np_max].
  rewrite s_eqb_leb, andb_true_iff. split.
  - intros [Hmc _] y Hy. eapply s_leb_trans; [apply fold_max_ge, Hy | exact Hmc].
  - intros Hall. split; [apply Hall, fold_max_in | now apply fold_max_ge].
Qed.

Lemma is_local_max_iff (img : ndarray V) (i j : Z) :
  wf img -> 1 <= i <= shape0 img - 2 -> 1 <= j <= shape1 img - 2 ->
  (is_local_max img i j = true <->
   s_eqb (get img i j) s_zero = false /\
   forall di dj, -1 <= di <= 1 -> -1 <= dj <= 1 ->
     s_leb (get img (i + di) (j + dj)) (get img i j) = true).
Proof.
  intros Hwf Hi Hj. unfold is_local_max, max_is_centre.
  rewrite andb_true_iff, negb_true_iff, slice2_window by assumption.
  assert (Hc : In (get img i j) (window img i j)).
  { unfold window. apply in_map_iff. exists (0, 0). cbn [fst snd].
    rewrite !Z.add_0_r. split; [reflexivity | simpl; tauto]. }
  rewrite (np_max_is _ _ Hc). unfold window.
  split; intros [Hnz Hall]; (split; [exact Hnz|]).
  - intros di dj Hdi Hdj. apply Hall. apply in_map_iff. exists (di, dj).
    split; [reflexivity|].
    assert (Ei : di = -1 \/ di = 0 \/ di = 1) by lia.
    assert (Ej : dj = -1 \/ dj = 0 \/ dj = 1) by lia.
    destruct Ei as [->|[->| ->]], Ej as [->|[->| ->]]; simpl; tauto.
  - intros y Hy. apply in_map_iff in Hy. destruct Hy as [[di dj] [<- Hd]].
    apply in_grid in Hd. cbn [fst snd]. destruct Hd as [Hdi Hdj].
    apply Hall; simpl in Hdi, Hdj; lia.
Qed.

(** C3: [find_local_maxima] returns exactly the interior coordinates
    [(i, j)], [1 <= i <= rows-2] and [1 <= j <= cols-2], whose value is
    non-zero and greater than or equal to every value of their 3x3
    neighbourhood, in row-major order (ascending row, then ascending
    column, each coordinate once). *)
Theorem find_local_maxima_exact (img : ndarray V) :
  wf img ->
  (forall i j,
      In (i, j) (find_local_maxima img) <->
      1 <= i <= shape0 img - 2 /\ 1 <= j <= shape1 img - 2 /\
      s_eqb (get img i j) s_zero = false /\
      forall di dj, -1 <= di <= 1 -> -1 <= dj <= 1 ->
        s_leb (get img (i + di) (j + dj)) (get img i j) = true) /\
  StronglySorted row_major_lt (find_local_maxima img).
Proof.
  intros Hwf. rewrite find_local_maxima_filter. split.
  - intros i j. rewrite filter_In, in_grid, !in_range. cbn [fst snd]. split.
    + intros [[Hi Hj] Hm]. apply is_local_max_iff in Hm; [|assumption|lia|lia].
      repeat split; try lia; apply Hm.
    + intros (Hi & Hj & Hm). split; [lia|].
      apply is_local_max_iff; [assumption|lia|lia|exact Hm].
  - apply filter_sorted, grid_sorted; apply range_sorted.
Qed.
End LocalMaximaFacts.

Lemma find_local_maxima_exact_witness :
  (forall i j,
      In (i, j) (find_local_maxima field_3x4) <->
      1 <= i <= shape0 field_3x4 - 2 /\ 1 <= j <= shape1 field_3x4 - 2 /\
      s_eqb (get field_3x4 i j) s_zero = false /\
      forall di dj, -1 <= di <= 1 -> -1 <= dj <= 1 ->
        s_leb (get field_3x4 (i + di) (j + dj)) (get field_3x4 i j) = true) /\
  StronglySorted row_major_lt (find_local_maxima field_3x4).
Proof. apply (find_local_maxima_exact field_3x4). apply wfb_wf. reflexivity. Defined.

(** ** Updating arrays *)

Lemma upd_length {A} (n : nat) (x : A) (l : list A) :
  length (upd n x l) = length l.
Proof.
  revert n. induction l as [|h t IH]; intros [|n]; simpl; auto.
Qed.

Lemma nth_upd_same {A} (n : nat) (x d : A) (l : list A) :
  (n < length l)%nat -> nth n (upd n x l) d = x.
Proof.
  revert n. induction l as [|h t IH]; intros [|n] Hn; simpl in *; try lia; auto.
  apply IH. lia.
Qed.

Lemma nth_upd_other {A} (n m : nat) (x d : A) (l : list A) :
  n <> m -> nth m (upd n x l) d = nth m l d.
Proof.
  revert n m. induction l as [|h t IH]; intros [|n] [|m] Hnm; simpl; auto.
  congruence.
Qed.

Lemma upd_beyond {A} (n : nat) (x : A) (l : list A) :
  (length l <= n)%nat -> upd n x l = l.
Proof.
  revert n. induction l as [|h t IH]; intros [|n] Hn; simpl in *; try lia; auto.
  f_equal. apply IH. lia.
Qed.

Lemma Forall_upd {A} (P : A -> Prop) (n : nat) (x : A) (l : list A) :
  Forall P l -> ((n < length l)%nat -> P x) -> Forall P (upd n x l).
Proof.
  intros Hl. revert n. induction Hl as [|h t Hh Ht IH]; intros [|n] Hx; simpl.
  - constructor.
  - constructor.
  - constructor; [apply Hx; simpl; lia | exact Ht].
  - constructor; [exact Hh | apply IH; intros; apply Hx; simpl; lia].
Qed.

Lemma nth_repeat_default {A} (k n : nat) (x d : A) :
  nth k (repeat x n) d = x \/ nth k (repeat x n) d = d.
Proof.
  revert k. induction n as [|n IH]; intros [|k]; simpl; auto.
Qed.

Section ArrayUpdates.
Context {V : Type} `{Scalar V}.

Lemma set_wf (a : ndarray V) (i j : Z) (v : V) : wf a -> wf (set a i j v).
Proof.
  intros (Hm & Hlen & Hrows). unfold wf, set; cbn [shape0 shape1 rows].
  rewrite upd_length. repeat split; try assumption.
  apply Forall_upd; [exact Hrows|]. intros Hi. rewrite upd_length.
  rewrite Forall_forall in Hrows. apply Hrows, nth_In, Hi.
Qed.

Lemma get_set_same (a : ndarray V) (i j : Z) (v : V) :
  wf a -> 0 <= i < shape0 a -> 0 <= j < shape1 a ->
  get (set a i j v) i j = v.
Proof.
  intros Hwf Hi Hj. pose proof (wf_row a i Hwf Hi) as Hrow.
  destruct Hwf as (_ & Hlen & _). unfold get, set; cbn [rows].
  rewrite nth_upd_same by lia. apply nth_upd_same. lia.
Qed.

Lemma get_set_other (a : ndarray V) (i j i' j' : Z) (v : V) :
  0 <= i -> 0 <= j -> 0 <= i' -> 0 <= j' -> (i, j) <> (i', j') ->
  get (set a i j v) i' j' = get a i' j'.
Proof.
  intros Hi Hj Hi' Hj' Hne. unfold get, set; cbn [rows].
  destruct (Z.eq_dec i i') as [<-|Hii].
  - destruct (Nat.lt_ge_cases (Z.to_nat i) (length (rows a))) as [Hin|Hout].
    + rewrite nth_upd_same by exact Hin. apply nth_upd_other.
      intros E. apply Hne. f_equal. lia.
    + now rewrite upd_beyond by exact Hout.
  - rewrite nth_upd_other by lia. reflexivity.
Qed.

Lemma get_zeros (n m i j : Z) : get (zeros n m) i j = s_zero.
Proof.
  unfold get, zeros; cbn [rows].
  destruct (nth_repeat_default (Z.to_nat i) (Z.to_nat n)
              (repeat s_zero (Z.to_nat m)) []) as [-> | ->].
  - destruct (nth_repeat_default (Z.to_nat j) (Z.to_nat m) s_zero s_zero); auto.
  - now destruct (Z.to_nat j).
Qed.

Lemma wf_zeros (n m : Z) : 0 <= n -> 0 <= m -> wf (zeros n m).
Proof.
  intros Hn Hm. unfold wf, zeros; cbn [shape0 shape1 rows].
  rewrite repeat_length. repeat split; try lia.
  apply Forall_forall. intros r Hr. apply repeat_spec in Hr. subst r.
  rewrite repeat_length. lia.
Qed.

(** Two arrays of one shape with the same elements are equal. *)
Lemma ndarray_ext (a b : ndarray V) :
  wf a -> wf b -> shape0 a = shape0 b -> shape1 a = shape1 b ->
  (forall i j, 0 <= i < shape0 a -> 0 <= j < shape1 a -> get a i j = get b i j) ->
  a = b.
Proof.
  intros Ha Hb E0 E1 Hget.
  pose proof Ha as (_ & Hla & _). pose proof Hb as (_ & Hlb & _).
  destruct a as [a0 a1 ra], b as [b0 b1 rb]. cbn [shape0 shape1 rows] in *.
  subst b0 b1. f_equal.
  apply (nth_ext _ _ [] []); [lia|]. intros n Hn.
  pose proof (wf_row _ (Z.of_nat n) Ha) as Hra.
  pose proof (wf_row _ (Z.of_nat n) Hb) as Hrb.
  cbn [shape0 shape1 rows] in Hra, Hrb. rewrite Nat2Z.id in Hra, Hrb.
  apply (nth_ext _ _ s_zero s_zero); [lia|]. intros k Hk.
  specialize (Hget (Z.of_nat n) (Z.of_nat k)). unfold get in Hget.
  cbn [rows] in Hget. rewrite !Nat2Z.id in Hget. apply Hget; lia.
Qed.
End ArrayUpdates.

(** ** Loops that may return *)

Lemma for_each_app {A S R} (body : A -> S -> flow S R) (l1 l2 : list A) (s : S) :
  for_each body (l1 ++ l2) s
  = match for_each body l1 s with
    | Next s' => for_each body l2 s'
    | Return r => Return r
    end.
Proof.
  revert s. induction l1 as [|x l1 IH]; intros s; simpl; [reflexivity|].
  destruct (body x s); [apply IH | reflexivity].
Qed.

Lemma for_each_map {A B S R} (f : A -> B) (body : B -> S -> flow S R)
      (l : list A) (s : S) :
  for_each body (map f l) s = for_each (fun x => body (f x)) l s.
Proof.
  revert s. induction l as [|x l IH]; intros s; simpl; [reflexivity|].
  destruct (body (f x) s); [apply IH | reflexivity].
Qed.

(** Two nested loops are one loop over the pairs in row-major order. *)
Lemma for_each_grid {S R} (body : Z -> Z -> S -> flow S R)
      (rs cs : list Z) (s : S) :
  for_each (fun i => for_each (fun j => body i j) cs) rs s
  = for_each (fun ij => body (fst ij) (snd ij)) (grid rs cs) s.
Proof.
  unfold grid. revert s. induction rs as [|i rs IH]; intros s; simpl; [reflexivity|].
  rewrite for_each_app, for_each_map. cbn [fst snd].
  destruct (for_each (fun j => body i j) cs s); [apply IH | reflexivity].
Qed.

Lemma sorted_NoDup (l : list (Z * Z)) :
  StronglySorted row_major_lt l -> NoDup l.
Proof.
  induction 1 as [|x l Hs IH Hx]; constructor; [|exact IH].
  intros Hin. rewrite Forall_forall in Hx. specialize (Hx x Hin).
  unfold row_major_lt in Hx. lia.
Qed.

(** ** [ultimate_erode] *)

Section UltimateErodeFacts.
Context {V : Type} `{Scalar V}.

(** The inner loop writes the distance of the first hit, if any. *)
Lemma scan_offsets_first_hit (img : ndarray V) (i j : Z) (dl : list offset)
      (img_dist : ndarray surd) :
  scan_offsets img i j dl img_dist
  = match first_hit img i j dl with
    | Some d => set img_dist i j d
    | None => img_dist
    end.
Proof.
  unfold first_hit. induction dl as [|p dl IH]; simpl; [reflexivity|].
  destruct (out_of_bounds img (i + dx p) (j + dy p)); simpl; [reflexivity|].
  destruct (s_eqb (get img (i + dx p) (j + dy p)) s_zero); simpl;
    [reflexivity | exact IH].
Qed.

(** The scan over a list of distinct pixels that are still zero in
    [img_dist]: it returns [[]] if it meets a foreground pixel of
    distance 0 and otherwise leaves each pixel's distance in [img_dist]. *)
Lemma erode_scan (img : ndarray V) (dl : list offset) (l : list (Z * Z)) :
  forall D : ndarray surd,
    wf D -> shape0 D = shape0 img -> shape1 D = shape1 img ->
    NoDup l ->
    (forall i j, In (i, j) l ->
                 0 <= i < shape0 img /\ 0 <= j < shape1 img /\ get D i j = s_zero) ->
    if existsb (aborts_at img dl) l
    then for_each (fun ij => erode_pixel img dl (fst ij) (snd ij)) l D = Return []
    else exists D',
        for_each (fun ij => erode_pixel img dl (fst ij) (snd ij)) l D = Next D' /\
        wf D' /\ shape0 D' = shape0 img /\ shape1 D' = shape1 img /\
        forall i j, 0 <= i -> 0 <= j ->
          (In (i, j) l -> get D' i j = pixel_distance img dl i j) /\
          (~ In (i, j) l -> get D' i j = get D i j).
Proof.
  induction l as [|[i j] l IH]; intros D Hwf E0 E1 Hnd Hinv.
  - simpl. exists D. split; [reflexivity|]. split; [exact Hwf|].
    split; [exact E0|]. split; [exact E1|].
    intros i j _ _. split; [intros [] | reflexivity].
  - inversion Hnd as [|? ? Hnotin Hnd']; subst.
    destruct (Hinv i j (or_introl eq_refl)) as (Hi & Hj & Hz).
    cbn [existsb for_each fst snd]. unfold aborts_at at 1. cbn [fst snd].
    unfold erode_pixel.
    destruct (s_eqb (get img i j) s_zero) eqn:Ebg; cbn [negb andb orb].
    + (* background pixel *)
      specialize (IH D Hwf E0 E1 Hnd' (fun i' j' Hin => Hinv i' j' (or_intror Hin))).
      destruct (existsb (aborts_at img dl) l); [exact IH|].
      destruct IH as (D' & Hrun & Hwf' & E0' & E1' & Hget).
      refine (ex_intro _ D' (conj Hrun (conj Hwf' (conj E0' (conj E1' _))))).
      intros i0 j0 Hi0 Hj0. split.
      * intros [[= <- <-]|Hin].
        -- destruct (Hget i j) as [_ Hout]; try lia.
           rewrite Hout by exact Hnotin. unfold pixel_distance.
           now rewrite Ebg.
        -- now apply Hget.
      * intros Hout. apply Hget; try assumption. intros Hin. apply Hout. now right.
    + (* foreground pixel *)
      rewrite scan_offsets_first_hit.
      set (D1 := match first_hit img i j dl with
                 | Some d => set D i j d
                 | None => D
                 end).
      assert (Hd1 : get D1 i j = pixel_distance img dl i j).
      { unfold D1, pixel_distance. rewrite Ebg.
        destruct (first_hit img i j dl) as [d|]; [|exact Hz].
        apply get_set_same; [exact Hwf | lia | lia]. }
      assert (Hwf1 : wf D1).
      { unfold D1. destruct (first_hit img i j dl); [now apply set_wf | exact Hwf]. }
      assert (Hs0 : shape0 D1 = shape0 img).
      { unfold D1. destruct (first_hit img i j dl); [exact E0 | exact E0]. }
      assert (Hs1 : shape1 D1 = shape1 img).
      { unfold D1. destruct (first_hit img i j dl); [exact E1 | exact E1]. }
      assert (Hother : forall i' j', 0 <= i' -> 0 <= j' -> (i, j) <> (i', j') ->
                                     get D1 i' j' = get D i' j').
      { intros i' j' Hi' Hj' Hne. unfold D1.
        destruct (first_hit img i j dl); [|reflexivity].
        apply get_set_other; try assumption; lia. }
      rewrite Hd1.
      destruct (s_eqb (pixel_distance img dl i j) s_zero) eqn:Ez; [reflexivity|].
      assert (Hinv1 : forall i' j', In (i', j') l ->
                0 <= i' < shape0 img /\ 0 <= j' < shape1 img /\ get D1 i' j' = s_zero).
      { intros i' j' Hin. destruct (Hinv i' j' (or_intror Hin)) as (Hi' & Hj' & Hz').
        repeat split; try lia. rewrite Hother; try lia; [exact Hz'|].
        intros [= <- <-]. contradiction. }
      specialize (IH D1 Hwf1 Hs0 Hs1 Hnd' Hinv1).
      destruct (existsb (aborts_at img dl) l); [exact IH|].
      destruct IH as (D' & Hrun & Hwf' & E0' & E1' & Hget).
      refine (ex_intro _ D' (conj Hrun (conj Hwf' (conj E0' (conj E1' _))))).
      intros i0 j0 Hi0 Hj0. split.
      * intros [[= <- <-]|Hin].
        -- destruct (Hget i j) as [_ Hout]; try lia.
           rewrite Hout by exact Hnotin. exact Hd1.
        -- now apply Hget.
      * intros Hout. destruct (Hget i0 j0) as [_ Hout']; try assumption.
        rewrite Hout' by (intros Hin; apply Hout; now right).
        apply Hother; try assumption. intros E. apply Hout. left. exact E.
Qed.

Lemma wf_distance_field (img : ndarray V) (dl : list offset) :
  wf img -> wf (distance_field img dl).
Proof.
  intros (Hm & Hlen & _). unfold wf, distance_field; cbn [shape0 shape1 rows].
  rewrite length_map, range_length. repeat split; try lia.
  apply Forall_forall. intros r Hr. apply in_map_iff in Hr.
  destruct Hr as [i [<- _]]. rewrite length_map, range_length. lia.
Qed.

Lemma get_distance_field (img : ndarray V) (dl : list offset) (i j : Z) :
  0 <= i < shape0 img -> 0 <= j < shape1 img ->
  get (distance_field img dl) i j = pixel_distance img dl i j.
Proof.
  intros Hi Hj. unfold get, distance_field; cbn [rows].
  rewrite (nth_map_range _ _ _ _ Hi). now rewrite (nth_map_range _ _ _ _ Hj).
Qed.

(** The two loops of [ultimate_erode] compute the distance field, unless
    a foreground pixel has distance 0. *)
Lemma erode_loops_spec (img : ndarray V) (dl : list offset) :
  wf img ->
  erode_loops img dl
  = if inconclusive img dl then Return [] else Next (distance_field img dl).
Proof.
  intros Hwf. pose proof Hwf as (Hm & Hlen & _).
  unfold erode_loops, inconclusive.
  rewrite (for_each_grid (erode_pixel img dl)).
  pose proof (erode_scan img dl
                (grid (range 0 (shape0 img)) (range 0 (shape1 img)))
                (zeros (shape0 img) (shape1 img))) as Hscan.
  unfold aborts_at in Hscan.
  match type of Hscan with
  | _ -> _ -> _ -> _ -> _ -> ?C =>
      assert (HC : C); [apply Hscan|]
  end.
  - apply wf_zeros; lia.
  - reflexivity.
  - reflexivity.
  - apply sorted_NoDup, grid_sorted; apply range_sorted.
  - intros i j Hin. apply in_grid in Hin. rewrite !in_range in Hin.
    repeat split; try lia. apply get_zeros.
  - clear Hscan.
    destruct (existsb _ (grid (range 0 (shape0 img)) (range 0 (shape1 img))));
      [exact HC|].
    destruct HC as (D' & -> & Hwf' & E0 & E1 & Hget). f_equal.
    apply ndarray_ext; try assumption.
    + now apply wf_distance_field.
    + intros i j Hi Hj. rewrite get_distance_field by lia.
      apply Hget; try lia. apply in_grid. rewrite !in_range. lia.
Qed.

Lemma inconclusive_intro (img : ndarray V) (dl : list offset) (i j : Z) :
  0 <= i < shape0 img -> 0 <= j < shape1 img ->
  s_eqb (get img i j) s_zero = false ->
  pixel_distance img dl i j = s_zero ->
  inconclusive img dl = true.
Proof.
  intros Hi Hj Hfg Hz. unfold inconclusive. apply existsb_exists.
  exists (i, j). cbn [fst snd]. split.
  - apply in_grid. rewrite !in_range. lia.
  - rewrite Hfg, Hz. reflexivity.
Qed.

(** The distance a foreground pixel receives is 0 exactly when none of
    the offsets lands outside the mask or on a zero pixel. *)
Lemma pixel_distance_zero_iff (img : ndarray V) (dl : list offset) (i j : Z) :
  get_distance_list 16 = Some dl ->
  0 <= i < shape0 img -> 0 <= j < shape1 img ->
  s_eqb (get img i j) s_zero = false ->
  (pixel_distance img dl i j = s_zero <->
   forall p, In p dl ->
     out_of_bounds img (i + dx p) (j + dy p) = false /\
     s_eqb (get img (i + dx p) (j + dy p)) s_zero = false).
Proof.
  intros Hdl Hi Hj Hfg. unfold pixel_distance, first_hit. rewrite Hfg.
  destruct (find _ dl) as [p|] eqn:Ef; cbn [option_map].
  - apply find_some in Ef. destruct Ef as [Hp Hhit].
    destruct (get_distance_list_entries _ _ _ Hdl Hp) as (_ & _ & _ & Hd & _).
    split.
    + intros Hz. rewrite Hd in Hz. injection Hz as Hz.
      assert (dx p = 0 /\ dy p = 0) as [Ex Ey] by nia.
      rewrite Ex, Ey, !Z.add_0_r, Hfg, orb_false_r in Hhit.
      unfold out_of_bounds in Hhit. lia.
    + intros Hall. destruct (Hall p Hp) as [Ho Hn]. rewrite Ho, Hn in Hhit.
      discriminate.
  - split; [|reflexivity]. intros _ p Hp.
    pose proof (find_none _ _ Ef p Hp) as Hn. cbn beta in Hn.
    now apply orb_false_iff in Hn.
Qed.

(** In bounds, the inner loop of [ultimate_erode] leaves in
    [img_dist[i, j]] the value [pixel_distance] of a foreground pixel. *)
Lemma scan_offsets_pixel_distance (img : ndarray V) (dl : list offset) (i j : Z) :
  wf img -> 0 <= i < shape0 img -> 0 <= j < shape1 img ->
  s_eqb (get img i j) s_zero = false ->
  get (scan_offsets img i j dl (zeros (shape0 img) (shape1 img))) i j
  = pixel_distance img dl i j.
Proof.
  intros (Hm & Hlen & _) Hi Hj Hfg. rewrite scan_offsets_first_hit.
  unfold pixel_distance. rewrite Hfg.
  destruct (first_hit img i j dl) as [d|]; [|apply get_zeros].
  apply get_set_same; [apply wf_zeros; lia | exact Hi | exact Hj].
Qed.

(** A foreground pixel of distance 0 makes [ultimate_erode] return [[]]. *)
Lemma ultimate_erode_zero_distance {O : Type} (img : ndarray V) (orig : O)
      (dl : list offset) (i j : Z) :
  wf img ->
  get_distance_list 16 = Some dl ->
  0 <= i < shape0 img -> 0 <= j < shape1 img ->
  s_eqb (get img i j) s_zero = false ->
  pixel_distance img dl i j = s_zero ->
  ultimate_erode img orig = [].
Proof.
  intros Hwf Hdl Hi Hj Hfg Hz. unfold ultimate_erode. rewrite Hdl.
  rewrite erode_loops_spec by exact Hwf.
  now rewrite (inconclusive_intro img dl i j).
Qed.

(** C1: if for some foreground pixel [(i, j)] of the mask no offset of the
    distance list lands out of bounds or on a zero pixel, so that the pixel
    receives distance 0 ([pixel_distance_zero_iff],
    [scan_offsets_pixel_distance]), then [ultimate_erode] returns the
    empty list for the whole image. *)
Theorem ultimate_erode_inconclusive {O : Type} (img : ndarray V) (orig : O)
        (dl : list offset) (i j : Z) :
  wf img ->
  get_distance_list 16 = Some dl ->
  0 <= i < shape0 img -> 0 <= j < shape1 img ->
  s_eqb (get img i j) s_zero = false ->
  (forall p, In p dl ->
     out_of_bounds img (i + dx p) (j + dy p) = false /\
     s_eqb (get img (i + dx p) (j + dy p)) s_zero = false) ->
  ultimate_erode img orig = [] /\ pixel_distance img dl i j = s_zero.
Proof.
  intros Hwf Hdl Hi Hj Hfg Hnone.
  assert (Hz : pixel_distance img dl i j = s_zero)
    by (apply pixel_distance_zero_iff; assumption).
  split; [|exact Hz].
  eapply ultimate_erode_zero_distance; eassumption.
Qed.

(** C9, as the code has it: [ultimate_erode] has no radius parameter.
    Its search radius is 16 on every call, whatever the second argument
    is: the result is that of the specification's detector at radius 16. *)
Theorem ultimate_erode_radius_16 {O : Type} (img : ndarray V) (orig : O) :
  wf img ->
  ultimate_erode_spec img 16 = Some (ultimate_erode img orig).
Proof.
  intros Hwf. unfold ultimate_erode_spec, ultimate_erode.
  destruct (get_distance_list 16) as [dl|] eqn:Hdl.
  - rewrite erode_loops_spec by exact Hwf.
    destruct (inconclusive img dl); reflexivity.
  - rewrite get_distance_list_nonneg in Hdl by lia. discriminate Hdl.
Qed.

(** C10: the second argument of [ultimate_erode] has no influence on
    the result, which is a function of the mask alone. *)
Theorem ultimate_erode_ignores_orig {O1 O2 : Type} (img : ndarray V)
        (orig1 : O1) (orig2 : O2) :
  ultimate_erode img orig1 = ultimate_erode img orig2.
Proof. reflexivity. Qed.
End UltimateErodeFacts.

Lemma ultimate_erode_inconclusive_witness :
  ultimate_erode (ones 33 33) tt = [] /\
  pixel_distance (ones 33 33) (sort_by_dist (disk_offsets 16)) 16 16 = s_zero.
Proof.
  apply (ultimate_erode_inconclusive (ones 33 33) tt
           (sort_by_dist (disk_offsets 16)) 16 16).
  - apply wfb_wf. vm_compute. reflexivity.
  - vm_compute. reflexivity.
  - vm_compute. split; [discriminate | reflexivity].
  - vm_compute. split; [discriminate | reflexivity].
  - vm_compute. reflexivity.
  - intros p Hp. apply orb_false_iff. apply negb_true_iff. revert p Hp.
    apply (proj1 (forallb_forall
             (fun p => negb (out_of_bounds (ones 33 33) (16 + dx p) (16 + dy p)
                             || s_eqb (get (ones 33 33) (16 + dx p) (16 + dy p))
                                      s_zero))
             (sort_by_dist (disk_offsets 16)))).
    vm_compute. reflexivity.
Defined.

(** A 40x40 mask of ones has pixels farther than 16 from the border. *)
Example ultimate_erode_large_block : ultimate_erode (ones 40 40) tt = [].
Proof. vm_compute. reflexivity. Qed.

Lemma ultimate_erode_radius_16_witness :
  ultimate_erode_spec (ones 5 5) 16 = Some (ultimate_erode (ones 5 5) 1).
Proof.
  apply (ultimate_erode_radius_16 (ones 5 5) 1).
  apply wfb_wf. vm_compute. reflexivity.
Defined.

(** C9, as stated, fails: called with 1 as second argument on a 5x5 mask
    of ones, [ultimate_erode] still searches with radius 16 and finds the
    centre, where the detector of radius 1 is inconclusive. *)
Lemma ultimate_erode_radius_not_settable :
  ultimate_erode (ones 5 5) 1 = [(2, 2)] /\
  ultimate_erode_spec (ones 5 5) 1 = Some [] /\
  ultimate_erode_spec (ones 5 5) 1 <> Some (ultimate_erode (ones 5 5) 1).
Proof.
  split; [vm_compute; reflexivity|]. split; [vm_compute; reflexivity|].
  vm_compute. discriminate.
Qed.

(** ** [fwhm] *)

Section FwhmFacts.
Context {F : Type} `{FloatArith F}.

(** The second walk stops at [N] when the signs agree up to [N - 1]. *)
Lemma trail_walk_reaches_bound (data : list F) (fuel i : nat) :
  (1 <= i)%nat -> (i < length data)%nat -> (length data <= i + fuel)%nat ->
  (forall k a b, (i <= k)%nat -> (k + 1 < length data)%nat ->
                 nth_error data k = Some a -> nth_error data (k - 1) = Some b ->
                 same_side a b = true) ->
  trail_walk data (Z.of_nat (length data) - 1) fuel i
  = Some (length data - 1)%nat.
Proof.
  revert i. induction fuel as [|fuel IH]; intros i Hi Hlen Hfuel Hsame; [lia|].
  cbn [trail_walk].
  destruct (nth_error data i) as [a|] eqn:Ea;
    [|apply nth_error_None in Ea; lia].
  destruct (nth_error data (i - 1)) as [b|] eqn:Eb;
    [|apply nth_error_None in Eb; lia].
  cbn [obind].
  destruct (Z.leb_spec (Z.of_nat i) (Z.of_nat (length data) - 1 - 1)) as [Hin|Hout].
  - rewrite (Hsame i a b) by (assumption || lia). cbn [andb].
    apply IH; try lia. intros k a' b' Hk. apply Hsame. lia.
  - rewrite andb_false_r. f_equal. lia.
Qed.

Lemma arg_best_bound (better : F -> F -> bool) (l : list F) (pos : nat)
      (best : nat * F) :
  (fst best < pos)%nat -> (arg_best better l pos best < pos + length l)%nat.
Proof.
  revert pos best. induction l as [|y l IH]; intros pos best Hb; cbn [arg_best length].
  - destruct (f_isnan (snd best)); lia.
  - destruct (f_isnan (snd best)); [lia|].
    specialize (IH (S pos) (if better y (snd best) then (pos, y) else best)).
    destruct (better y (snd best)); cbn [fst] in IH; lia.
Qed.

Lemma centre_index_bound (data : list F) (centre : nat) :
  centre_index data = Some centre -> (centre < length data)%nat.
Proof.
  unfold centre_index. destruct data as [|v t]; [discriminate|].
  cbn [nth_error obind]. intros [= <-]. unfold np_argmax, np_argmin.
  destruct (f_ltb v f_half);
    match goal with
    | |- (arg_best ?b ?l ?p ?best < _)%nat =>
        pose proof (arg_best_bound b l p best); cbn [fst length] in *; lia
    end.
Qed.

(** When the walk starts inside the array and meets no sign change up to
    the second-to-last index, it ends at the last index and the width
    is the integer 0. *)
Lemma fwhm_walk_to_bound (profile data : list F) (centre : nat)
      (extremum_val : Z) (lead_t : F) :
  normalise profile = Some data ->
  centre_index data = Some centre ->
  x_at centre = Some extremum_val ->
  leading_edge data = Some lead_t ->
  (centre + 1 < length data)%nat ->
  (forall k a b, (centre + 1 <= k)%nat -> (k + 1 < length data)%nat ->
                 nth_error data k = Some a -> nth_error data (k - 1) = Some b ->
                 same_side a b = true) ->
  fwhm profile = Some (Wint 0, Z.of_nat centre).
Proof.
  intros Hnorm Hcentre Hx Hlead Hlen Hsame. unfold fwhm.
  rewrite Hnorm; cbn [obind]. rewrite Hcentre; cbn [obind].
  rewrite Hx; cbn [obind]. rewrite Hlead; cbn [obind].
  rewrite trail_walk_reaches_bound by (assumption || lia). cbn [obind].
  replace (Z.of_nat (length data - 1) =? Z.of_nat (length data) - 1) with true
    by (symmetry; apply Z.eqb_eq; lia).
  cbn [negb]. unfold x_at in Hx.
  destruct (centre <? 256)%nat; [|discriminate]. now injection Hx as <-.
Qed.

(** When the peak is the last sample the rightward walk cannot start:
    its first test reads [data[N + 1]], past the array, and [fwhm]
    raises. *)
Lemma fwhm_peak_at_last_sample (profile data : list F) (centre : nat)
      (extremum_val : Z) (lead_t : F) :
  normalise profile = Some data ->
  centre_index data = Some centre ->
  x_at centre = Some extremum_val ->
  leading_edge data = Some lead_t ->
  (centre + 1 = length data)%nat ->
  fwhm profile = None.
Proof.
  intros Hnorm Hcentre Hx Hlead Hlen. unfold fwhm.
  rewrite Hnorm; cbn [obind]. rewrite Hcentre; cbn [obind].
  rewrite Hx; cbn [obind]. rewrite Hlead; cbn [obind].
  destruct (length data) as [|n] eqn:En; [lia|]. cbn [trail_walk].
  replace (nth_error data (centre + 1)) with (@None F); [reflexivity|].
  symmetry. apply nth_error_None. lia.
Qed.

(** C4: take a profile on which the steps before the rightward walk of
    [fwhm] succeed and no sign of [sample - 0.5] changes from the index
    after the peak up to the second-to-last index.  The peak index is
    an index of the array.  If it is not the last one, [fwhm] returns
    normally, with the integer width [0] and the peak position.  If it
    is the last one, the walk starts past the bound, reads [data[N + 1]]
    and [fwhm] raises: the truncated peak that the [else] branch of the
    code is there for is not reached. *)
Theorem fwhm_truncated_peak (profile data : list F) (centre : nat)
        (extremum_val : Z) (lead_t : F) :
  normalise profile = Some data ->
  centre_index data = Some centre ->
  x_at centre = Some extremum_val ->
  leading_edge data = Some lead_t ->
  (forall k a b, (centre + 1 <= k)%nat -> (k + 1 < length data)%nat ->
                 nth_error data k = Some a -> nth_error data (k - 1) = Some b ->
                 same_side a b = true) ->
  (centre + 1 <= length data)%nat /\
  ((centre + 1 < length data)%nat ->
   fwhm profile = Some (Wint 0, Z.of_nat centre)) /\
  ((centre + 1 = length data)%nat -> fwhm profile = None).
Proof.
  intros Hnorm Hcentre Hx Hlead Hsame.
  pose proof (centre_index_bound data centre Hcentre) as Hc.
  split; [lia|]. split; intros Hlen.
  - now apply (fwhm_walk_to_bound profile data centre extremum_val lead_t).
  - now apply (fwhm_peak_at_last_sample profile data centre extremum_val lead_t).
Qed.
End FwhmFacts.

Lemma fwhm_truncated_peak_witness :
  fwhm plateau_profile = Some (Wint 0, 3) /\ fwhm rising_profile = None.
Proof.
  split.
  - refine (proj1 (proj2 (fwhm_truncated_peak plateau_profile
             (map (fun v => PrimFloat.div v (b64_of_Z 4)) plateau_profile)
             3 3 (b64_of_Z 2) _ _ _ _ _)) _).
    + vm_compute. reflexivity.
    + vm_compute. reflexivity.
    + reflexivity.
    + vm_compute. reflexivity.
    + intros k a b Hk Hlen. simpl in Hlen.
      assert (k = 4%nat) as -> by lia.
      intros [= <-] [= <-]. vm_compute. reflexivity.
    + simpl. lia.
  - refine (proj2 (proj2 (fwhm_truncated_peak rising_profile
             (map (fun v => PrimFloat.div v (b64_of_Z 4)) rising_profile)
             4 4 (b64_of_Z 2) _ _ _ _ _)) _).
    + vm_compute. reflexivity.
    + vm_compute. reflexivity.
    + reflexivity.
    + vm_compute. reflexivity.
    + intros k a b Hk Hlen. simpl in Hlen. lia.
    + reflexivity.
Defined.

(** A NaN or an infinity among the samples: [np.max] and the division
    spread the NaN, [np.argmin] and [np.argmax] point at the first NaN,
    and no sign test involving a NaN holds. *)
Example fwhm_nan_runs :
  fwhm nan_profile = Some (Wfloat PrimFloat.nan, 0) /\
  fwhm inf_profile = Some (Wint 0, 1) /\
  fwhm (map b64_of_Z [-1; 0; -1]) = Some (Wint 0, 1).
Proof. repeat split; vm_compute; reflexivity. Qed.

(** The same on exact rationals. *)
Example fwhm_rational_run :
  fwhm [0; 1; 1]%Q = Some (Wint 0, 1) /\
  fwhm [0; 1; 2; 3; 4]%Q = None.
Proof. repeat split; vm_compute; reflexivity. Qed.

(** The fuel given to the two walks of [fwhm] is never what stops them:
    once [i] is past the array, the walk has failed at an index. *)
Lemma lead_walk_fuel {F : Type} `{FloatArith F} (data : list F) (fuel extra i : nat) :
  (length data <= i + fuel)%nat ->
  lead_walk data (fuel + extra) i = lead_walk data fuel i.
Proof.
  revert i. induction fuel as [|fuel IH]; intros i Hlen.
  - destruct extra as [|extra]; [reflexivity|]. cbn [Nat.add lead_walk].
    destruct (nth_error data i) eqn:E; [|reflexivity].
    assert (nth_error data i = None) by (apply nth_error_None; lia). congruence.
  - cbn [Nat.add lead_walk]. destruct (nth_error data i); [|reflexivity].
    cbn [obind]. destruct (nth_error data (i - 1)); [|reflexivity].
    cbn [obind]. destruct (same_side f f0); [|reflexivity]. apply IH. lia.
Qed.

Lemma trail_walk_fuel {F : Type} `{FloatArith F} (data : list F) (N : Z)
      (fuel extra i : nat) :
  (length data <= i + fuel)%nat ->
  trail_walk data N (fuel + extra) i = trail_walk data N fuel i.
Proof.
  revert i. induction fuel as [|fuel IH]; intros i Hlen.
  - destruct extra as [|extra]; [reflexivity|]. cbn [Nat.add trail_walk].
    destruct (nth_error data i) eqn:E; [|reflexivity].
    assert (nth_error data i = None) by (apply nth_error_None; lia). congruence.
  - cbn [Nat.add trail_walk]. destruct (nth_error data i); [|reflexivity].
    cbn [obind]. destruct (nth_error data (i - 1)); [|reflexivity].
    cbn [obind]. destruct (same_side f f0 && (Z.of_nat i <=? N - 1)); [|reflexivity].
    apply IH. lia.
Qed.

(** ** Computations that draw *)

Lemma returns_ret {A} (x : A) (k : nat) (P : A -> Prop) :
  P x -> returns_at (rret x) k P.
Proof. intros Hx. exists x, k. now split. Qed.

Lemma returns_bind {A B} (m : Rand A) (f : A -> Rand B) (k : nat)
      (Q : A -> Prop) (P : B -> Prop) :
  returns_at m k Q ->
  (forall x k', Q x -> returns_at (f x) k' P) ->
  returns_at (rbind m f) k P.
Proof.
  intros (x & k' & Hm & Hx) Hf. destruct (Hf x k' Hx) as (y & k'' & Hfy & Hy).
  exists y, k''. unfold rbind. rewrite Hm. now split.
Qed.

Lemma returns_lift {A} (o : option A) (x : A) (k : nat) (P : A -> Prop) :
  o = Some x -> P x -> returns_at (lift o) k P.
Proof. intros -> Hx. exists x, k. now split. Qed.

Lemma returns_lift_eq {A} (o : option A) (x : A) (k : nat) :
  o = Some x -> returns_at (lift o) k (fun y => y = x).
Proof. intros ->. exists x, k. now split. Qed.

Lemma returns_ret_eq {A} (x : A) (k : nat) :
  returns_at (rret x) k (fun y => y = x).
Proof. now apply returns_ret. Qed.

Lemma returns_weaken {A} (m : Rand A) (k : nat) (P Q : A -> Prop) :
  returns_at m k P -> (forall x, P x -> Q x) -> returns_at m k Q.
Proof. intros (x & k' & Hm & Hx) HPQ. exists x, k'. split; auto. Qed.

(** A loop over [seq a n] with an invariant indexed by the next element. *)
Lemma returns_rfor_seq {S} (body : nat -> S -> Rand S) (I : nat -> S -> Prop)
      (n a : nat) (s : S) (k : nat) :
  I a s ->
  (forall i s k, (a <= i < a + n)%nat -> I i s -> returns_at (body i s) k (I (Datatypes.S i))) ->
  returns_at (rfor (seq a n) body s) k (I (a + n)%nat).
Proof.
  revert a s k. induction n as [|n IH]; intros a s k Hs Hbody.
  - rewrite Nat.add_0_r. now apply returns_ret.
  - cbn [seq rfor]. eapply returns_bind.
    + apply Hbody; [lia | exact Hs].
    + intros s' k' Hs'. replace (a + Datatypes.S n)%nat with (Datatypes.S a + n)%nat by lia.
      apply IH; [exact Hs'|]. intros i s0 k0 Hi. apply Hbody. lia.
Qed.

Lemma nth_error_upd_same {A} (n : nat) (x : A) (l : list A) :
  (n < length l)%nat -> nth_error (upd n x l) n = Some x.
Proof.
  revert n. induction l as [|h t IH]; intros [|n] Hn; simpl in *; try lia; auto.
  apply IH. lia.
Qed.

Lemma nth_error_upd_other {A} (n m : nat) (x : A) (l : list A) :
  n <> m -> nth_error (upd n x l) m = nth_error l m.
Proof.
  revert n m. induction l as [|h t IH]; intros [|n] [|m] Hnm; simpl; auto.
  congruence.
Qed.

Lemma upd_same {A} (n : nat) (x : A) (l : list A) :
  nth_error l n = Some x -> upd n x l = l.
Proof.
  revert n. induction l as [|h t IH]; intros [|n] Hn; simpl in *; try discriminate.
  - now injection Hn as ->.
  - f_equal. now apply IH.
Qed.

Lemma nth_error_in_range {A} (l : list A) (n : nat) :
  (n < length l)%nat -> exists x, nth_error l n = Some x.
Proof.
  intros Hn. destruct (nth_error l n) eqn:E; [eauto|].
  apply nth_error_None in E. lia.
Qed.

(** ** The simulators *)

Section SimulationFacts.
Variable bits : nat -> Z.
Variable gauss : nat -> Q.
Variable np_sqrt : Q -> Q.
Variable Spots_new : nat -> Spots.

Lemma rand_range (k : nat) :
  returns_at (rand bits) k (fun u => (0 <= u)%Q /\ (u < 1)%Q).
Proof.
  exists (Qmake (bits k mod two_53) (Z.to_pos two_53)), (S k).
  split; [reflexivity|].
  assert (Hpos : 0 < two_53) by reflexivity.
  pose proof (Z.mod_pos_bound (bits k) two_53 Hpos) as Hb.
  unfold Qle, Qlt. cbn [Qnum Qden]. rewrite Z2Pos.id by exact Hpos. lia.
Qed.

Lemma rrepeat_returns {A} (m : Rand A) (P : A -> Prop) (n k : nat) :
  (forall k, returns_at m k P) ->
  returns_at (rrepeat n m) k (fun l => length l = n /\ Forall P l).
Proof.
  intros Hm. revert k. induction n as [|n IH]; intros k.
  - apply returns_ret. split; [reflexivity | constructor].
  - cbn [rrepeat]. eapply returns_bind; [apply Hm|].
    intros x k' Hx. eapply returns_bind; [apply IH|].
    intros l k'' [Hlen Hl]. apply returns_ret. split; [simpl; lia | now constructor].
Qed.

Lemma rand_scaled_returns (n : nat) (scale : Z) (k : nat) :
  returns_at (rand_scaled bits n scale) k (fun l => length l = n).
Proof.
  unfold rand_scaled. eapply returns_bind.
  - apply rrepeat_returns. intros k0. apply rand_range.
  - intros l k' [Hlen _]. apply returns_ret. now rewrite length_map.
Qed.

Lemma normal_positions_returns (pos : list (Q * Q)) (S : Q) (k : nat) :
  returns_at (normal_positions gauss pos S) k (fun l => length l = length pos).
Proof.
  revert k. induction pos as [|[x y] pos IH]; intros k.
  - now apply returns_ret.
  - cbn [normal_positions]. unfold normal at 1 2.
    destruct (IH (Datatypes.S (Datatypes.S k))) as (l & k' & Hrun & Hlen).
    eexists _, k'. unfold rbind. rewrite Hrun. unfold rret.
    split; [reflexivity | simpl; lia].
Qed.

(** The first frame's positions are drawn; nothing else changes. *)
Lemma init_positions_returns (params : Params) (real_spots : list Spots)
      (s0 : Spots) (k : nat) :
  nth_error real_spots 0 = Some s0 ->
  returns_at (init_positions bits params real_spots) k
    (fun rs => exists pos, length pos = num_spots params /\
                           rs = upd 0 (set_positions s0 pos) real_spots).
Proof.
  intros H0. unfold init_positions.
  eapply returns_bind; [apply rand_scaled_returns|]. intros xs k1 Hxs.
  eapply returns_bind; [apply returns_lift_eq, H0|].
  intros s k2 ->. eapply returns_bind; [apply rand_scaled_returns|].
  intros ys k3 Hys. apply returns_ret. exists (combine xs ys).
  cbv beta in Hxs, Hys. split; [rewrite length_combine; lia | reflexivity].
Qed.

Lemma diffuse_frame_keeps_ids (params : Params) (S : Q) (m : nat)
      (rs : list Spots) (k : nat) :
  (bleach_time params <= 0)%Q ->
  (1 <= m < num_frames params)%nat ->
  ids_kept Spots_new params m rs ->
  returns_at (diffuse_frame bits gauss params S m rs) k
             (ids_kept Spots_new params (Datatypes.S m)).
Proof.
  intros Hbt Hm (Hlen & Hids & H0). unfold diffuse_frame.
  destruct (nth_error_in_range rs m) as [cur Hcur]; [lia|].
  destruct (nth_error_in_range rs (m - 1)) as [prev Hprev]; [lia|].
  eapply returns_bind; [apply returns_lift_eq, Hcur|].
  intros ? k1 ->.
  eapply returns_bind; [apply returns_lift_eq, Hprev|].
  intros ? k2 ->.
  eapply returns_bind; [apply normal_positions_returns|]. intros pos k3 _.
  assert (Hno : Qltb 0 (bleach_time params) = false).
  { unfold Qltb. rewrite (proj2 (Qle_bool_iff _ _) Hbt). reflexivity. }
  rewrite Hno.
  eapply returns_bind; [apply returns_ret_eq|].
  intros ? k4 ->.
  apply returns_ret. unfold ids_kept. rewrite upd_length.
  split; [exact Hlen|]. split.
  - intros f s s0 Hf Hs Hs0.
    rewrite nth_error_upd_other in Hs0 by lia.
    destruct (Nat.eq_dec f m) as [->|Hfm].
    + rewrite nth_error_upd_same in Hs by lia. injection Hs as <-.
      cbn [traj_num set_positions set_traj_num set_frame].
      apply (Hids (m - 1)%nat); [lia | exact Hprev | exact Hs0].
    + rewrite nth_error_upd_other in Hs by lia.
      apply (Hids f); [lia | exact Hs | exact Hs0].
  - intros s0 Hs0. rewrite nth_error_upd_other in Hs0 by lia. now apply H0.
Qed.

(** C5: with [bleach_time <= 0], whatever the random draws are,
    [simulate] builds its records, and the trajectory ids of every
    frame are those of frame 0 (which are the ids the record of frame 0
    was created with). *)
Theorem simulate_keeps_ids_without_bleaching (params : Params) (k : nat) :
  (bleach_time params <= 0)%Q ->
  (1 <= num_frames params)%nat ->
  exists real_spots k',
    simulate_spots bits gauss np_sqrt Spots_new params k = Some (real_spots, k') /\
    length real_spots = num_frames params /\
    forall f s s0,
      nth_error real_spots f = Some s -> nth_error real_spots 0 = Some s0 ->
      traj_num s = traj_num s0 /\
      traj_num s0 = traj_num (Spots_new (num_spots params)).
Proof.
  intros Hbt Hnf.
  assert (Hrun : returns_at (simulate_spots bits gauss np_sqrt Spots_new params) k
                            (ids_kept Spots_new params (1 + (num_frames params - 1)))).
  { unfold simulate_spots.
    set (rs0 := map (fun _ => Spots_new (num_spots params))
                    (seq 0 (num_frames params))).
    assert (Hlen0 : length rs0 = num_frames params)
      by (unfold rs0; now rewrite length_map, length_seq).
    assert (H0 : nth_error rs0 0 = Some (Spots_new (num_spots params))).
    { unfold rs0. destruct (num_frames params); [lia | reflexivity]. }
    eapply returns_bind; [apply init_positions_returns, H0|].
    intros rs1 k1 (pos & _ & ->).
    eapply returns_bind.
    { apply returns_lift_eq. apply nth_error_upd_same. lia. }
    intros ? k2 ->.
    apply returns_rfor_seq.
    - unfold ids_kept. rewrite !upd_length. split; [exact Hlen0|]. split.
      + intros f s s0 Hf Hs Hs0. replace f with 0%nat in Hs by lia. congruence.
      + intros s0 Hs0. rewrite nth_error_upd_same in Hs0
          by (rewrite upd_length; lia).
        now injection Hs0 as <-.
    - intros i s k0 Hi Hinv. apply diffuse_frame_keeps_ids; [exact Hbt | lia | exact Hinv]. }
  destruct Hrun as (rs & k' & Hrs & Hlen & Hids & H0).
  exists rs, k'. split; [exact Hrs|]. split; [exact Hlen|].
  intros f s s0 Hs Hs0. split; [|now apply H0].
  apply (Hids f); [|exact Hs | exact Hs0].
  assert (f < length rs)%nat by (apply nth_error_Some; congruence). lia.
Qed.
End SimulationFacts.

Lemma step_ok_refl (x : Z) : step_ok x x.
Proof. unfold step_ok. lia. Qed.

Lemma step_ok_trans (x y z : Z) : step_ok x y -> step_ok y z -> step_ok x z.
Proof. unfold step_ok. lia. Qed.

Lemma Forall2_refl {A} (R : A -> A -> Prop) (l : list A) :
  (forall x, R x x) -> Forall2 R l l.
Proof. intros HR. induction l; constructor; auto. Qed.

Lemma Forall2_trans {A} (R : A -> A -> Prop) (l1 l2 l3 : list A) :
  (forall x y z, R x y -> R y z -> R x z) ->
  Forall2 R l1 l2 -> Forall2 R l2 l3 -> Forall2 R l1 l3.
Proof.
  intros HR H12. revert l3. induction H12 as [|x y l1 l2 Hxy H12 IH]; intros l3 H23;
    inversion H23; subst; constructor; eauto.
Qed.

Lemma Forall2_upd {A} (R : A -> A -> Prop) (l : list A) (n : nat) (x y : A) :
  (forall z, R z z) -> nth_error l n = Some x -> R x y ->
  Forall2 R l (upd n y l).
Proof.
  intros HR. revert n. induction l as [|h t IH]; intros [|n] Hn Hxy;
    simpl in *; try discriminate.
  - injection Hn as ->. constructor; [exact Hxy | now apply Forall2_refl].
  - constructor; [apply HR | now apply IH].
Qed.

Lemma rfor_app {A S} (l1 l2 : list A) (body : A -> S -> Rand S) (s : S) (k : nat) :
  rfor (l1 ++ l2) body s k = rbind (rfor l1 body s) (rfor l2 body) k.
Proof.
  revert s k. induction l1 as [|x l1 IH]; intros s k; cbn [app rfor].
  - reflexivity.
  - unfold rbind in *. destruct (body x s k) as [[s' k']|]; [apply IH | reflexivity].
Qed.

Lemma firstn_seq (t a n : nat) : firstn t (seq a n) = seq a (Nat.min t n).
Proof.
  revert a n. induction t as [|t IH]; intros a [|n]; simpl; try reflexivity.
  now rewrite IH.
Qed.

Lemma returns_at_det {A} (m : Rand A) (k k' : nat) (x : A) (P : A -> Prop) :
  returns_at m k P -> m k = Some (x, k') -> P x.
Proof. intros (y & k'' & Hm & Hy) E. congruence. Qed.

Section StepwiseFacts.
Variable bits : nat -> Z.
Variable gauss : nat -> Q.
Variable Spots_new : nat -> Spots.

Lemma bleach_molecules_returns (p : Q) (turns : nat) (count : Z) (k : nat) :
  returns_at (bleach_molecules bits p turns count) k
    (fun c => count - Z.of_nat turns <= c <= count /\ ((p == 0)%Q -> c = count)).
Proof.
  revert count k. induction turns as [|turns IH]; intros count k.
  - apply returns_ret. split; [simpl; lia | reflexivity].
  - cbn [bleach_molecules]. eapply returns_bind; [apply rand_range|].
    intros u k' [Hu _]. eapply returns_weaken; [apply IH|].
    intros c [Hc Hp]. split.
    + destruct (Qltb u p); lia.
    + intros Hp0. assert (Hno : Qltb u p = false).
      { unfold Qltb. apply negb_false_iff. apply Qle_bool_iff.
        rewrite Hp0. exact Hu. }
      rewrite Hno in Hp. now apply Hp.
Qed.

Lemma bleach_count_returns (params : Params) (i : nat) (n_mols : list Z) (k : nat) :
  (i < length n_mols)%nat ->
  returns_at (bleach_count bits params i n_mols) k (counts_step params n_mols).
Proof.
  intros Hi. unfold bleach_count.
  destruct (nth_error_in_range n_mols i Hi) as [n Hn].
  eapply returns_bind; [apply returns_lift_eq, Hn|]. intros ? k1 ->.
  destruct (Z.ltb_spec 0 n) as [Hpos|Hneg].
  - eapply returns_bind; [apply bleach_molecules_returns|].
    intros n' k2 [Hn' Hp]. unfold assign.
    destruct (Nat.ltb_spec i (length n_mols)) as [_|]; [|lia].
    eapply returns_lift; [reflexivity|]. unfold counts_step.
    rewrite upd_length. split; [reflexivity|]. split.
    + apply (Forall2_upd step_ok n_mols i n n'); [apply step_ok_refl | exact Hn |].
      unfold step_ok. lia.
    + intros Hp0. rewrite (Hp Hp0). now apply upd_same.
  - apply returns_ret. unfold counts_step. split; [reflexivity|].
    split; [apply Forall2_refl, step_ok_refl | reflexivity].
Qed.

Lemma counts_step_trans (params : Params) (a b c : list Z) :
  counts_step params a b -> counts_step params b c -> counts_step params a c.
Proof.
  intros (L1 & F1 & P1) (L2 & F2 & P2). unfold counts_step.
  split; [congruence|]. split.
  - eapply Forall2_trans; [apply step_ok_trans | exact F1 | exact F2].
  - intros Hp. rewrite (P2 Hp). now apply P1.
Qed.

Lemma counts_step_refl (params : Params) (a : list Z) : counts_step params a a.
Proof.
  unfold counts_step. split; [reflexivity|].
  split; [apply Forall2_refl, step_ok_refl | reflexivity].
Qed.

Lemma bleach_pass_returns (params : Params) (n_mols : list Z) (k : nat) :
  length n_mols = num_spots params ->
  returns_at (rfor (seq 0 (num_spots params)) (bleach_count bits params) n_mols) k
             (counts_step params n_mols).
Proof.
  intros Hlen.
  eapply returns_weaken.
  - apply (returns_rfor_seq (bleach_count bits params)
             (fun _ l => counts_step params n_mols l)).
    + apply counts_step_refl.
    + intros i l k0 Hi Hstep. eapply returns_weaken.
      * apply bleach_count_returns. destruct Hstep as (Hl & _). lia.
      * intros l' Hstep'. eapply counts_step_trans; eassumption.
  - auto.
Qed.

Lemma stepwise_frame_returns (params : Params) (g : list Z) (f : nat)
      (st : stepwise_state) (k : nat) :
  (1 <= f < num_frames params)%nat ->
  stepwise_inv params g st ->
  returns_at (stepwise_frame bits gauss params f st) k
    (fun st' => stepwise_inv params g st' /\
                counts_step params (st_n_mols st) (st_n_mols st')).
Proof.
  intros Hf (Hlen & Hn & Hg & s0 & Hs0 & Hfr). unfold stepwise_frame.
  destruct (nth_error_in_range (st_spots st) f) as [cur Hcur]; [lia|].
  destruct (nth_error_in_range (st_spots st) (f - 1)) as [prev Hprev]; [lia|].
  eapply returns_bind; [apply returns_lift_eq, Hcur|]. intros ? k1 ->.
  eapply returns_bind; [apply returns_lift_eq, Hprev|]. intros ? k2 ->.
  eapply returns_bind; [apply normal_positions_returns|]. intros pos k3 _.
  eapply returns_bind; [apply bleach_pass_returns, Hn|]. intros n_mols k4 Hstep.
  apply returns_ret. split; [|exact Hstep].
  unfold stepwise_inv. cbn [st_spots st_n_mols]. rewrite upd_length.
  split; [exact Hlen|]. split; [destruct Hstep as (-> & _); exact Hn|].
  split; [eapply counts_step_trans; eassumption|].
  exists s0. rewrite nth_error_upd_other by lia. now split.
Qed.

Lemma randint1_range (low high : Z) (k : nat) :
  low < high -> returns_at (randint1 bits low high) k (fun v => low <= v < high).
Proof.
  intros Hlh. eexists _, _. split; [reflexivity|].
  pose proof (Z.mod_pos_bound (bits k) (high - low)). lia.
Qed.

Lemma initial_n_mols_returns (params : Params) (k : nat) :
  molecules_ok params ->
  returns_at (initial_n_mols bits params) k
             (fun l => length l = num_spots params).
Proof.
  unfold molecules_ok, initial_n_mols, randint. intros Hok.
  destruct (num_spot_molecules params) as [m|].
  - apply returns_ret. apply repeat_length.
  - specialize (Hok eq_refl).
    destruct (Z.ltb_spec 1 (max_spot_molecules params)); [|lia].
    eapply returns_weaken.
    + apply rrepeat_returns. intros k0. apply (randint1_range 1); assumption.
    + intros l [Hl _]. exact Hl.
Qed.

Lemma stepwise_init_returns (params : Params) (k : nat) :
  (1 <= num_frames params)%nat -> molecules_ok params ->
  returns_at (stepwise_init bits Spots_new params) k
             (fun r => stepwise_inv params (snd r) (fst r) /\
                       st_n_mols (fst r) = snd r).
Proof.
  intros Hnf Hok. unfold stepwise_init.
  set (rs0 := map (fun _ => Spots_new (num_spots params))
                  (seq 0 (num_frames params))).
  assert (Hlen0 : length rs0 = num_frames params)
    by (unfold rs0; now rewrite length_map, length_seq).
  assert (H0 : nth_error rs0 0 = Some (Spots_new (num_spots params))).
  { unfold rs0. destruct (num_frames params); [lia | reflexivity]. }
  eapply returns_bind; [apply (init_positions_returns bits), H0|].
  intros rs1 k1 (pos & _ & ->).
  eapply returns_bind; [apply initial_n_mols_returns, Hok|].
  intros n_mols k2 Hn.
  eapply returns_bind.
  { apply returns_lift_eq. apply nth_error_upd_same. lia. }
  intros ? k3 ->. apply returns_ret. cbn [fst snd]. split; [|reflexivity].
  unfold stepwise_inv. cbn [st_spots st_n_mols]. rewrite !upd_length.
  split; [exact Hlen0|]. split; [exact Hn|]. split; [apply counts_step_refl|].
  eexists. split; [apply nth_error_upd_same; rewrite upd_length; lia|].
  reflexivity.
Qed.

Lemma stepwise_loop_returns (params : Params) (g : list Z) (st : stepwise_state)
      (turns k : nat) :
  stepwise_inv params g st ->
  returns_at (rfor (firstn turns (seq 1 (num_frames params - 1)))
                   (stepwise_frame bits gauss params) st) k
             (stepwise_inv params g).
Proof.
  intros Hinv. rewrite firstn_seq. eapply returns_weaken.
  - apply (returns_rfor_seq (stepwise_frame bits gauss params)
             (fun _ s => stepwise_inv params g s)); [exact Hinv|].
    intros i s k0 Hi Hs. eapply returns_weaken.
    + apply stepwise_frame_returns; [lia | exact Hs].
    + intros s' [Hs' _]. exact Hs'.
  - auto.
Qed.

(** C6: in [simulate_stepwise_bleaching], whatever the random draws
    are, over every frame transition no count grows and no count that
    is not negative becomes negative; the same holds of every frame
    with respect to the ground truth; and with [p_bleach_per_frame = 0]
    the counts of every frame are the ground truth. *)
Theorem stepwise_counts_monotone (params : Params) (turns k : nat) :
  (1 <= num_frames params)%nat -> molecules_ok params ->
  exists st st' g k1 k2,
    stepwise_after bits gauss Spots_new params turns k = Some ((st, g), k1) /\
    stepwise_after bits gauss Spots_new params (S turns) k = Some ((st', g), k2) /\
    Forall2 step_ok (st_n_mols st) (st_n_mols st') /\
    Forall2 step_ok g (st_n_mols st) /\
    Forall2 step_ok g (st_n_mols st') /\
    ((p_bleach_per_frame params == 0)%Q ->
     st_n_mols st = g /\ st_n_mols st' = g).
Proof.
  intros Hnf Hok.
  destruct (stepwise_init_returns params k Hnf Hok)
    as ([st0 g] & k0 & Hinit & Hinv0 & _). cbn [fst snd] in Hinv0.
  destruct (stepwise_loop_returns params g st0 turns k0 Hinv0)
    as (st & k1 & Hloop & Hinv).
  assert (Hnext : exists st' k2,
             rfor (firstn (S turns) (seq 1 (num_frames params - 1)))
                  (stepwise_frame bits gauss params) st0 k0 = Some (st', k2) /\
             stepwise_inv params g st' /\
             counts_step params (st_n_mols st) (st_n_mols st')).
  { destruct (Nat.lt_ge_cases turns (num_frames params - 1)) as [Hin|Hout].
    - replace (firstn (S turns) (seq 1 (num_frames params - 1)))
        with (firstn turns (seq 1 (num_frames params - 1)) ++ [S turns]).
      + destruct (stepwise_frame_returns params g (S turns) st k1) as
            (st' & k2 & Hstep & Hinv' & Hcs); [lia | exact Hinv|].
        exists st', k2. rewrite rfor_app. unfold rbind. rewrite Hloop.
        cbn [rfor]. unfold rbind. rewrite Hstep. auto.
      + rewrite !firstn_seq.
        replace (Nat.min (S turns) (num_frames params - 1)) with (turns + 1)%nat by lia.
        replace (Nat.min turns (num_frames params - 1)) with turns by lia.
        now rewrite seq_app.
    - exists st, k1. rewrite firstn_all2 by (rewrite length_seq; lia).
      rewrite firstn_all2 in Hloop by (rewrite length_seq; lia).
      split; [exact Hloop|]. split; [exact Hinv | apply counts_step_refl]. }
  destruct Hnext as (st' & k2 & Hloop' & Hinv' & Hcs).
  exists st, st', g, k1, k2.
  unfold stepwise_after, rbind. rewrite Hinit. cbn [fst snd].
  rewrite Hloop, Hloop'. unfold rret.
  destruct Hinv as (_ & _ & (_ & Fg & Pg) & _).
  destruct Hinv' as (_ & _ & (_ & Fg' & Pg') & _).
  destruct Hcs as (_ & Fs & _).
  repeat split; auto.
Qed.

(** C7, on the code: the record of frame 0 that
    [simulate_stepwise_bleaching] builds carries frame index 1, not 0. *)
Theorem stepwise_first_record_has_index_1 (params : Params) (k : nat) :
  (1 <= num_frames params)%nat -> molecules_ok params ->
  exists st g k' s0,
    stepwise_spots bits gauss Spots_new params k = Some ((st, g), k') /\
    nth_error (st_spots st) 0 = Some s0 /\ frame s0 = 1.
Proof.
  intros Hnf Hok. unfold stepwise_spots.
  destruct (stepwise_init_returns params k Hnf Hok)
    as ([st0 g] & k0 & Hinit & Hinv0 & _). cbn [fst snd] in Hinv0.
  destruct (stepwise_loop_returns params g st0 (num_frames params - 1) k0 Hinv0)
    as (st & k1 & Hloop & (_ & _ & _ & s0 & Hs0 & Hfr)).
  exists st, g, k1, s0. unfold stepwise_after, rbind. rewrite Hinit.
  cbn [fst snd]. rewrite Hloop. auto.
Qed.

(** C8, on the code: without a fixed count, every initial count drawn
    lies in [[1, max_spot_molecules)]: the value [max_spot_molecules]
    itself is never drawn. *)
Theorem initial_counts_below_max (params : Params) (k k' : nat) (l : list Z) :
  num_spot_molecules params = None ->
  initial_n_mols bits params k = Some (l, k') ->
  Forall (fun v => 1 <= v < max_spot_molecules params) l /\
  ~ In (max_spot_molecules params) l.
Proof.
  intros Hnone Hrun. unfold initial_n_mols, randint in Hrun. rewrite Hnone in Hrun.
  destruct (Z.ltb_spec 1 (max_spot_molecules params)) as [Hlt|]; [|discriminate].
  assert (Hall : Forall (fun v => 1 <= v < max_spot_molecules params) l).
  { eapply (returns_at_det _ _ _ _ (fun l => _ /\ Forall _ l)); [|exact Hrun].
    apply rrepeat_returns. intros k0. now apply randint1_range. }
  split; [exact Hall|]. intros Hin. rewrite Forall_forall in Hall.
  specialize (Hall _ Hin). lia.
Qed.
End StepwiseFacts.

(** ** Frame indices of [simulate] *)

Lemma ensures_ret {A} (x : A) (P : A -> Prop) : P x -> ensures (rret x) P.
Proof. intros Hx k y k' [= <- _]. exact Hx. Qed.

Lemma ensures_bind {A B} (m : Rand A) (f : A -> Rand B)
      (Q : A -> Prop) (P : B -> Prop) :
  ensures m Q -> (forall x, Q x -> ensures (f x) P) -> ensures (rbind m f) P.
Proof.
  intros Hm Hf k y k' Hrun. unfold rbind in Hrun.
  destruct (m k) as [[x k1]|] eqn:E; [|discriminate].
  eapply Hf; [eapply Hm; exact E | exact Hrun].
Qed.

Lemma ensures_true {A} (m : Rand A) : ensures m (fun _ => True).
Proof. intros k x k' _. exact I. Qed.

Lemma ensures_rfor {A S} (body : A -> S -> Rand S) (I : S -> Prop)
      (l : list A) (s : S) :
  I s -> (forall x s, I s -> ensures (body x s) I) -> ensures (rfor l body s) I.
Proof.
  revert s. induction l as [|x l IH]; intros s Hs Hbody; cbn [rfor].
  - now apply ensures_ret.
  - eapply ensures_bind; [apply Hbody, Hs|]. intros s' Hs'. now apply IH.
Qed.

Lemma ensures_rfor_seq {S} (body : nat -> S -> Rand S) (I : nat -> S -> Prop)
      (n a : nat) (s : S) :
  I a s ->
  (forall i s, (a <= i < a + n)%nat -> I i s -> ensures (body i s) (I (Datatypes.S i))) ->
  ensures (rfor (seq a n) body s) (I (a + n)%nat).
Proof.
  revert a s. induction n as [|n IH]; intros a s Hs Hbody.
  - rewrite Nat.add_0_r. now apply ensures_ret.
  - cbn [seq rfor]. eapply ensures_bind; [apply Hbody; [lia | exact Hs]|].
    intros s' Hs'. replace (a + Datatypes.S n)%nat with (Datatypes.S a + n)%nat by lia.
    apply IH; [exact Hs'|]. intros i s0 Hi. apply Hbody. lia.
Qed.

Section SimulateFrames.
Variable bits : nat -> Z.
Variable gauss : nat -> Q.
Variable np_sqrt : Q -> Q.
Variable Spots_new : nat -> Spots.

Lemma bleach_spot_frame (params : Params) (spot : nat) (s : Spots) :
  ensures (bleach_spot bits params spot s) (fun s' => frame s' = frame s).
Proof.
  unfold bleach_spot. eapply ensures_bind; [apply ensures_true|]. intros u _.
  destruct (Qltb u (1 / bleach_time params)); [|now apply ensures_ret].
  repeat (eapply ensures_bind; [apply ensures_true|]; intros ? _).
  now apply ensures_ret.
Qed.

Lemma diffuse_frame_frames (params : Params) (S : Q) (m : nat) (rs : list Spots) :
  (1 <= m < num_frames params)%nat ->
  frames_set params m rs ->
  ensures (diffuse_frame bits gauss params S m rs) (frames_set params (Datatypes.S m)).
Proof.
  intros Hm [Hlen Hfr]. unfold diffuse_frame.
  eapply ensures_bind; [apply ensures_true|]. intros cur _.
  eapply ensures_bind; [apply ensures_true|]. intros prev _.
  eapply ensures_bind; [apply ensures_true|]. intros pos _.
  eapply ensures_bind with (Q := fun c => frame c = Z.of_nat m).
  - destruct (Qltb 0 (bleach_time params)); [|now apply ensures_ret].
    apply ensures_rfor; [reflexivity|]. intros spot s Hs.
    intros k x k' Hrun. rewrite (bleach_spot_frame params spot s k x k' Hrun).
    exact Hs.
  - intros c Hc. apply ensures_ret. unfold frames_set. rewrite upd_length.
    split; [exact Hlen|]. intros f s Hf Hs.
    destruct (Nat.eq_dec f m) as [->|Hfm].
    + rewrite nth_error_upd_same in Hs by lia. now injection Hs as <-.
    + rewrite nth_error_upd_other in Hs by lia. apply Hfr; [lia | exact Hs].
Qed.

(** In [simulate], the record of frame [f] carries frame index [f]. *)
Lemma simulate_frame_indices (params : Params) (k k' : nat) (rs : list Spots) :
  simulate_spots bits gauss np_sqrt Spots_new params k = Some (rs, k') ->
  forall f s, nth_error rs f = Some s -> frame s = Z.of_nat f.
Proof.
  intros Hrun.
  assert (Hens : ensures (simulate_spots bits gauss np_sqrt Spots_new params)
                         (frames_set params (1 + (num_frames params - 1)))).
  { unfold simulate_spots, init_positions.
    eapply ensures_bind with
      (Q := fun rs1 => length rs1 = num_frames params).
    - eapply ensures_bind; [apply ensures_true|]. intros xs _.
      eapply ensures_bind; [apply ensures_true|]. intros s0 _.
      eapply ensures_bind; [apply ensures_true|]. intros ys _.
      apply ensures_ret. now rewrite upd_length, length_map, length_seq.
    - intros rs1 Hlen1.
      eapply ensures_bind; [apply ensures_true|]. intros s0 _.
      apply ensures_rfor_seq.
      + unfold frames_set. rewrite upd_length. split; [exact Hlen1|].
        intros f s Hf Hs. replace f with 0%nat in * by lia.
        assert (0 < length rs1)%nat.
        { destruct rs1; [destruct s0; discriminate Hs | simpl; lia]. }
        rewrite nth_error_upd_same in Hs by lia. now injection Hs as <-.
      + intros i s Hi Hs. apply diffuse_frame_frames; [lia | exact Hs]. }
  destruct (Hens k rs k' Hrun) as [Hlen Hfr]. intros f s Hs. apply Hfr; [|exact Hs].
  assert (f < length rs)%nat by (apply nth_error_Some; congruence). lia.
Qed.
End SimulateFrames.

(** ** Runs on a concrete random source *)

Lemma simulate_keeps_ids_without_bleaching_witness :
  exists real_spots k',
    simulate_spots demo_bits demo_gauss demo_sqrt demo_Spots
                   (demo_params 0 None 0) 0%nat = Some (real_spots, k') /\
    length real_spots = 3%nat /\
    forall f s s0,
      nth_error real_spots f = Some s -> nth_error real_spots 0 = Some s0 ->
      traj_num s = traj_num s0 /\ traj_num s0 = traj_num (demo_Spots 2).
Proof.
  apply (simulate_keeps_ids_without_bleaching demo_bits demo_gauss demo_sqrt
           demo_Spots (demo_params 0 None 0) 0%nat).
  - vm_compute. discriminate.
  - simpl. lia.
Defined.

Lemma stepwise_counts_monotone_witness :
  exists st st' g k1 k2,
    stepwise_after demo_bits demo_gauss demo_Spots
                   (demo_params 0 None (1 # 2)) 1%nat 0%nat = Some ((st, g), k1) /\
    stepwise_after demo_bits demo_gauss demo_Spots
                   (demo_params 0 None (1 # 2)) 2%nat 0%nat = Some ((st', g), k2) /\
    Forall2 step_ok (st_n_mols st) (st_n_mols st') /\
    Forall2 step_ok g (st_n_mols st) /\
    Forall2 step_ok g (st_n_mols st') /\
    (((1 # 2) == 0)%Q -> st_n_mols st = g /\ st_n_mols st' = g).
Proof.
  apply (stepwise_counts_monotone demo_bits demo_gauss demo_Spots
           (demo_params 0 None (1 # 2)) 1%nat 0%nat).
  - simpl. lia.
  - unfold molecules_ok. simpl. lia.
Defined.

Lemma stepwise_first_record_has_index_1_witness :
  exists st g k' s0,
    stepwise_spots demo_bits demo_gauss demo_Spots
                   (demo_params 0 (Some 1) 0) 0%nat = Some ((st, g), k') /\
    nth_error (st_spots st) 0 = Some s0 /\ frame s0 = 1.
Proof.
  apply (stepwise_first_record_has_index_1 demo_bits demo_gauss demo_Spots
           (demo_params 0 (Some 1) 0) 0%nat).
  - simpl. lia.
  - unfold molecules_ok. simpl. discriminate.
Defined.

(** The frame indices of the three records of such a run: 1, 1, 2. *)
Example stepwise_frame_indices_run :
  option_map (fun r => map frame (st_spots (fst (fst r))))
             (stepwise_spots demo_bits demo_gauss demo_Spots
                             (demo_params 0 (Some 1) 0) 0%nat)
  = Some [1; 1; 2].
Proof. vm_compute. reflexivity. Qed.

Lemma initial_counts_below_max_witness :
  Forall (fun v => 1 <= v < 3) [2; 1] /\ ~ In 3 [2; 1].
Proof.
  apply (initial_counts_below_max demo_bits (demo_params 0 None 0) 0%nat 2%nat [2; 1]).
  - reflexivity.
  - vm_compute. reflexivity.
Defined.

(** Every value of [[1, max_spot_molecules)] is a possible initial count. *)
Lemma initial_count_possible (params : Params) (v : Z) (k : nat) :
  num_spot_molecules params = None ->
  1 <= v < max_spot_molecules params ->
  initial_n_mols (fun _ => v - 1) params k
  = Some (repeat v (num_spots params), (k + num_spots params)%nat).
Proof.
  intros Hnone Hv. unfold initial_n_mols, randint. rewrite Hnone.
  destruct (Z.ltb_spec 1 (max_spot_molecules params)); [|lia].
  generalize (num_spots params) as n. intros n. revert k.
  induction n as [|n IH]; intros k.
  - cbn. now rewrite Nat.add_0_r.
  - cbn [rrepeat repeat]. unfold rbind, randint1 at 1.
    rewrite IH. unfold rret. rewrite Z.mod_small by lia.
    replace (1 + (v - 1)) with v by lia.
    replace (S k + n)%nat with (k + S n)%nat by lia. reflexivity.
Qed.

(** With [max_spot_molecules = 1] the draw raises. *)
Lemma initial_counts_max_1 (bits : nat -> Z) (params : Params) (k : nat) :
  num_spot_molecules params = None -> max_spot_molecules params = 1 ->
  initial_n_mols bits params k = None.
Proof.
  intros Hnone Hmax. unfold initial_n_mols, randint. now rewrite Hnone, Hmax.
Qed.

(* ================================================================== *)
(** * Further properties *)

(** ** The distance list as a whole *)

Lemma flat_map_filter_grid {A} (f : Z -> Z -> bool) (g : Z -> Z -> A)
      (rs cs : list Z) :
  flat_map (fun i => map (g i) (filter (f i) cs)) rs
  = map (fun ij => g (fst ij) (snd ij))
        (filter (fun ij => f (fst ij) (snd ij)) (grid rs cs)).
Proof.
  unfold grid. induction rs as [|i rs IH]; simpl; [reflexivity|].
  rewrite filter_app, map_app, IH. f_equal. clear IH.
  induction cs as [|j cs IHc]; simpl; [reflexivity|].
  destruct (f i j); simpl; now rewrite IHc.
Qed.

(** The second pair of loops, as a filter of the scan. *)
Lemma disk_offsets_scan (r : Z) :
  disk_offsets r
  = map (fun ij => mk_offset (fst ij - r) (snd ij - r)
                             (get (distance_map r) (fst ij) (snd ij)))
        (filter (fun ij => surd_le_int (get (distance_map r) (fst ij) (snd ij)) r)
                (grid (range 0 (2 * r + 1)) (range 0 (2 * r + 1)))).
Proof.
  unfold disk_offsets. cbv zeta.
  rewrite (fold_append2
             (fun i j => surd_le_int (get (distance_map r) i j) r)
             (fun i j => mk_offset (i - r) (j - r) (get (distance_map r) i j))).
  cbn [app]. apply flat_map_filter_grid.
Qed.

Lemma in_disk_offsets_iff (r : Z) (p : offset) :
  0 <= r ->
  (In p (disk_offsets r) <->
   dist p = Sqrt (dx p ^ 2 + dy p ^ 2) /\ dx p ^ 2 + dy p ^ 2 <= r * r).
Proof.
  intros Hr. split.
  - intros Hp. apply in_disk_offsets in Hp. tauto.
  - intros [Hd Hle]. rewrite disk_offsets_scan. apply in_map_iff.
    assert (Hx : - r <= dx p <= r) by nia.
    assert (Hy : - r <= dy p <= r) by nia.
    exists (dx p + r, dy p + r). cbn [fst snd].
    rewrite get_distance_map by lia.
    replace (dx p + r - r) with (dx p) by lia.
    replace (dy p + r - r) with (dy p) by lia.
    split; [destruct p; cbn in *; now subst|].
    apply filter_In. cbn [fst snd]. split.
    + apply in_grid. rewrite !in_range. lia.
    + rewrite get_distance_map by lia. unfold surd_le_int. cbn [radicand].
      apply Z.leb_le.
      replace (dx p + r - r) with (dx p) by lia.
      replace (dy p + r - r) with (dy p) by lia. exact Hle.
Qed.

Lemma map_sorted {A B} (R : A -> A -> Prop) (S : B -> B -> Prop) (f : A -> B)
      (l : list A) :
  (forall x y, In x l -> In y l -> R x y -> S (f x) (f y)) ->
  StronglySorted R l -> StronglySorted S (map f l).
Proof.
  intros Hf Hs. induction Hs as [|x l Hs IH Hx]; simpl; constructor.
  - apply IH. intros; apply Hf; simpl; auto.
  - rewrite Forall_forall in *. intros y Hy. apply in_map_iff in Hy.
    destruct Hy as [z [<- Hz]]. apply Hf; simpl; auto.
Qed.

(** Before the sort the entries are in scan order: by [dx], then [dy]. *)
Lemma disk_offsets_scan_sorted (r : Z) :
  StronglySorted (fun p q => row_major_lt (dx p, dy p) (dx q, dy q))
                 (disk_offsets r).
Proof.
  rewrite disk_offsets_scan.
  eapply map_sorted; [|apply filter_sorted, grid_sorted; apply range_sorted].
  intros [i j] [i' j'] _ _. unfold row_major_lt. cbn [fst snd dx dy]. lia.
Qed.

Lemma insert_offset_order (p : offset) (l : list offset) :
  Forall (fun q => row_major_lt (dx p, dy p) (dx q, dy q)) l ->
  StronglySorted offset_order l ->
  StronglySorted offset_order (insert_offset p l).
Proof.
  intros Hp Hs. induction Hs as [|q l Hs IH Hq]; cbn [insert_offset].
  - repeat constructor.
  - inversion Hp as [|? ? Hpq Hpl]; subst. cbn [s_leb surd_Scalar].
    destruct (Z.leb_spec (radicand (dist p)) (radicand (dist q))) as [Hle|Hgt].
    + constructor; [now constructor|]. constructor.
      * unfold offset_order. destruct (Z.eq_dec (radicand (dist p)) (radicand (dist q)));
          [right; now split | left; lia].
      * rewrite Forall_forall in *. intros q' Hq'.
        specialize (Hq q' Hq'). specialize (Hpl q' Hq'). unfold offset_order in *.
        destruct Hq as [Hlt|[Heq _]];
          [left; lia|].
        destruct (Z.eq_dec (radicand (dist p)) (radicand (dist q')));
          [right; now split | left; lia].
    + constructor; [now apply IH|].
      eapply Permutation_Forall; [apply insert_offset_perm|].
      constructor; [left; lia | exact Hq].
Qed.

Lemma sort_by_dist_order (l : list offset) :
  StronglySorted (fun p q => row_major_lt (dx p, dy p) (dx q, dy q)) l ->
  StronglySorted offset_order (sort_by_dist l).
Proof.
  induction 1 as [|p l Hs IH Hp]; cbn [sort_by_dist fold_right]; [constructor|].
  apply insert_offset_order; [|exact IH].
  eapply Permutation_Forall; [apply sort_by_dist_perm | exact Hp].
Qed.

Lemma offset_order_irrefl (p : offset) : ~ offset_order p p.
Proof. unfold offset_order, row_major_lt. cbn [fst snd]. lia. Qed.

(** X1: for every radius [r >= 0] the distance list holds each integer
    offset [(x, y)] with [x^2 + y^2 <= r^2], with its distance, and
    nothing else; no offset occurs twice. *)
Theorem get_distance_list_complete (r : Z) (l : list offset) :
  get_distance_list r = Some l ->
  (forall p, In p l <->
             dist p = Sqrt (dx p ^ 2 + dy p ^ 2) /\ dx p ^ 2 + dy p ^ 2 <= r * r) /\
  NoDup (map (fun p => (dx p, dy p)) l).
Proof.
  unfold get_distance_list. destruct (Z.ltb_spec r 0); [discriminate|].
  intros [= <-]. split.
  - intros p. rewrite <- in_disk_offsets_iff by assumption.
    split; apply Permutation_in; [symmetry|]; apply sort_by_dist_perm.
  - eapply Permutation_NoDup.
    + apply Permutation_map, sort_by_dist_perm.
    + apply sorted_NoDup.
      eapply map_sorted; [|apply disk_offsets_scan_sorted]. auto.
Qed.

Lemma get_distance_list_complete_witness :
  (forall p, In p (sort_by_dist (disk_offsets 3)) <->
             dist p = Sqrt (dx p ^ 2 + dy p ^ 2) /\ dx p ^ 2 + dy p ^ 2 <= 3 * 3) /\
  NoDup (map (fun p => (dx p, dy p)) (sort_by_dist (disk_offsets 3))).
Proof.
  apply (get_distance_list_complete 3). vm_compute. reflexivity.
Defined.

(** X2: the list is in one fixed order: ascending distance, and entries
    of equal distance in the order of the scan, by [dx] and then [dy]
    (the sort is stable). *)
Theorem get_distance_list_order (r : Z) (l : list offset) :
  get_distance_list r = Some l -> StronglySorted offset_order l.
Proof.
  unfold get_distance_list. destruct (Z.ltb_spec r 0); [discriminate|].
  intros [= <-]. apply sort_by_dist_order, disk_offsets_scan_sorted.
Qed.

Lemma get_distance_list_order_witness :
  StronglySorted offset_order (sort_by_dist (disk_offsets 3)).
Proof. apply (get_distance_list_order 3). vm_compute. reflexivity. Defined.

(** X3: for every radius [r >= 0] the first entry is the origin, with
    distance 0. *)
Theorem get_distance_list_head (r : Z) :
  0 <= r ->
  exists t, get_distance_list r = Some (mk_offset 0 0 (Sqrt 0) :: t).
Proof.
  intros Hr. rewrite get_distance_list_nonneg by exact Hr.
  assert (Hin : In (mk_offset 0 0 (Sqrt 0)) (sort_by_dist (disk_offsets r))).
  { eapply Permutation_in; [apply sort_by_dist_perm|].
    apply in_disk_offsets_iff; [exact Hr|]. cbn. split; [reflexivity | nia]. }
  pose proof (sort_by_dist_sorted (disk_offsets r)) as Hs.
  assert (Hall : forall p, In p (sort_by_dist (disk_offsets r)) ->
                           dist p = Sqrt (dx p ^ 2 + dy p ^ 2)).
  { intros p Hp. apply (Permutation_in _ (Permutation_sym (sort_by_dist_perm _))) in Hp.
    now apply in_disk_offsets_iff in Hp. }
  destruct (sort_by_dist (disk_offsets r)) as [|p t]; [destruct Hin|].
  exists t. f_equal. f_equal.
  assert (Hp0 : radicand (dist p) <= 0).
  { destruct Hin as [->|Hin]; [reflexivity|].
    inversion Hs as [|? ? _ Hpt]; subst. rewrite Forall_forall in Hpt.
    apply (Hpt _ Hin). }
  pose proof (Hall p (or_introl eq_refl)) as Hd. rewrite Hd in Hp0.
  cbn [radicand] in Hp0.
  assert (dx p = 0 /\ dy p = 0) as [Ex Ey] by nia.
  destruct p as [x y d]. cbn in *. subst. reflexivity.
Qed.

Lemma get_distance_list_head_witness :
  exists t, get_distance_list 5 = Some (mk_offset 0 0 (Sqrt 0) :: t).
Proof. apply (get_distance_list_head 5). lia. Defined.

(** X4: the list is symmetric: with an offset it holds its mirror images
    and its transpose, at the same distance. *)
Theorem get_distance_list_symmetric (r : Z) (l : list offset) (p : offset) :
  get_distance_list r = Some l -> In p l ->
  In (mk_offset (- dx p) (dy p) (dist p)) l /\
  In (mk_offset (dx p) (- dy p) (dist p)) l /\
  In (mk_offset (dy p) (dx p) (dist p)) l.
Proof.
  unfold get_distance_list. destruct (Z.ltb_spec r 0); [discriminate|].
  intros [= <-] Hp.
  apply (Permutation_in _ (Permutation_sym (sort_by_dist_perm _))) in Hp.
  apply in_disk_offsets_iff in Hp; [|assumption]. destruct Hp as [Hd Hle].
  repeat split;
    (eapply Permutation_in; [apply sort_by_dist_perm|];
     apply in_disk_offsets_iff; [assumption|]; cbn [dx dy dist]; rewrite Hd;
     split; [f_equal; nia | nia]).
Qed.

Lemma get_distance_list_symmetric_witness :
  In (mk_offset (- 1) 2 (Sqrt 5)) (sort_by_dist (disk_offsets 3)) /\
  In (mk_offset 1 (- 2) (Sqrt 5)) (sort_by_dist (disk_offsets 3)) /\
  In (mk_offset 2 1 (Sqrt 5)) (sort_by_dist (disk_offsets 3)).
Proof.
  apply (get_distance_list_symmetric 3 _ (mk_offset 1 2 (Sqrt 5))).
  - vm_compute. reflexivity.
  - vm_compute. tauto.
Defined.

(** ** More on [find_local_maxima] *)

Lemma filter_none {A} (f : A -> bool) (l : list A) :
  (forall x, In x l -> f x = false) -> filter f l = [].
Proof.
  induction l as [|x l IH]; intros Hf; simpl; [reflexivity|].
  rewrite (Hf x) by (simpl; auto). apply IH. intros; apply Hf; simpl; auto.
Qed.

Lemma filter_single {A} (f : A -> bool) (l : list A) (a : A) :
  NoDup l -> In a l -> f a = true ->
  (forall x, In x l -> x <> a -> f x = false) ->
  filter f l = [a].
Proof.
  induction l as [|x l IH]; intros Hnd Hin Ha Hf; [destruct Hin|].
  destruct Hin as [->|Hin]; simpl.
  - rewrite Ha. f_equal. inversion Hnd; subst. apply filter_none.
    intros x Hx. apply Hf; [simpl; auto | congruence].
  - inversion Hnd; subst. rewrite (Hf x); [|simpl; auto | congruence].
    apply IH; auto. intros; apply Hf; simpl; auto.
Qed.

Section LocalMaximaMore.
Context {V : Type} `{ScalarOrder V}.

(** X5: a field without a non-zero interior pixel has no local maximum;
    so an all-zero field, and a field of fewer than three rows or three
    columns, give the empty list. *)
Theorem find_local_maxima_none (img : ndarray V) :
  (forall i j, 1 <= i <= shape0 img - 2 -> 1 <= j <= shape1 img - 2 ->
               s_eqb (get img i j) s_zero = true) ->
  find_local_maxima img = [].
Proof.
  intros Hz. rewrite find_local_maxima_filter. apply filter_none.
  intros [i j] Hin. apply in_grid in Hin. rewrite !in_range in Hin.
  cbn [fst snd]. unfold is_local_max. rewrite Hz by lia. reflexivity.
Qed.

(** X6: on a field whose only non-zero pixel is positive and not on the
    border, [find_local_maxima] returns that pixel and nothing else. *)
Theorem find_local_maxima_single_pixel (img : ndarray V) (i j : Z) :
  wf img ->
  1 <= i <= shape0 img - 2 -> 1 <= j <= shape1 img - 2 ->
  s_eqb (get img i j) s_zero = false ->
  s_leb s_zero (get img i j) = true ->
  (forall i' j', 0 <= i' < shape0 img -> 0 <= j' < shape1 img ->
                 (i', j') <> (i, j) -> s_eqb (get img i' j') s_zero = true) ->
  find_local_maxima img = [(i, j)].
Proof.
  intros Hwf Hi Hj Hnz Hpos Hzero. rewrite find_local_maxima_filter.
  apply filter_single.
  - apply sorted_NoDup, grid_sorted; apply range_sorted.
  - apply in_grid. rewrite !in_range. lia.
  - cbn [fst snd]. apply is_local_max_iff; try assumption.
    split; [exact Hnz|]. intros di dj Hdi Hdj.
    destruct (Z.eq_dec di 0) as [->|Ndi]; [destruct (Z.eq_dec dj 0) as [->|Ndj]|].
    + rewrite !Z.add_0_r. apply s_leb_refl.
    + assert (Hz : s_eqb (get img (i + 0) (j + dj)) s_zero = true)
        by (apply Hzero; [lia | lia | intros [= ? ?]; lia]).
      rewrite s_eqb_leb in Hz. apply andb_true_iff in Hz.
      eapply s_leb_trans; [apply Hz | exact Hpos].
    + assert (Hz : s_eqb (get img (i + di) (j + dj)) s_zero = true)
        by (apply Hzero; [lia | lia | intros [= ? ?]; lia]).
      rewrite s_eqb_leb in Hz. apply andb_true_iff in Hz.
      eapply s_leb_trans; [apply Hz | exact Hpos].
  - intros [i' j'] Hin Hne. apply in_grid in Hin. rewrite !in_range in Hin.
    cbn [fst snd]. unfold is_local_max.
    rewrite Hzero by (try lia; exact Hne). reflexivity.
Qed.

(** X7: two local maxima that touch (also diagonally) have equal values;
    of two neighbours with different values at most one is reported. *)
Theorem find_local_maxima_neighbours_equal (img : ndarray V) (i j i' j' : Z) :
  wf img ->
  In (i, j) (find_local_maxima img) -> In (i', j') (find_local_maxima img) ->
  -1 <= i' - i <= 1 -> -1 <= j' - j <= 1 ->
  s_eqb (get img i j) (get img i' j') = true.
Proof.
  intros Hwf H1 H2 Hdi Hdj. rewrite find_local_maxima_filter in H1, H2.
  apply filter_In in H1, H2. destruct H1 as [G1 M1], H2 as [G2 M2].
  apply in_grid in G1, G2. rewrite !in_range in G1, G2. cbn [fst snd] in *.
  apply is_local_max_iff in M1; [|assumption|lia|lia].
  apply is_local_max_iff in M2; [|assumption|lia|lia].
  destruct M1 as [_ M1], M2 as [_ M2].
  rewrite s_eqb_leb. apply andb_true_iff. split.
  - specialize (M2 (i - i') (j - j')).
    replace (i' + (i - i')) with i in M2 by lia.
    replace (j' + (j - j')) with j in M2 by lia. apply M2; lia.
  - specialize (M1 (i' - i) (j' - j)).
    replace (i + (i' - i)) with i' in M1 by lia.
    replace (j + (j' - j)) with j' in M1 by lia. apply M1; lia.
Qed.
End LocalMaximaMore.

Lemma find_local_maxima_none_witness :
  find_local_maxima (mk_ndarray 2 3 [[4; 5; 6]; [7; 8; 9]]) = [].
Proof.
  apply (find_local_maxima_none (mk_ndarray 2 3 [[4; 5; 6]; [7; 8; 9]])).
  cbn [shape0 shape1]. intros i j Hi Hj. lia.
Defined.

Lemma find_local_maxima_single_pixel_witness :
  find_local_maxima field_one_pixel = [(2, 2)].
Proof.
  apply (find_local_maxima_single_pixel field_one_pixel 2 2).
  - apply wfb_wf. reflexivity.
  - cbn. lia.
  - cbn. lia.
  - reflexivity.
  - reflexivity.
  - cbn [shape0 shape1 field_one_pixel]. intros i' j' Hi Hj Hne.
    assert (Ei : i' = 0 \/ i' = 1 \/ i' = 2 \/ i' = 3) by lia.
    assert (Ej : j' = 0 \/ j' = 1 \/ j' = 2 \/ j' = 3) by lia.
    destruct Ei as [->|[->|[->| ->]]], Ej as [->|[->|[->| ->]]];
      try reflexivity. congruence.
Defined.

Lemma find_local_maxima_neighbours_equal_witness :
  s_eqb (get field_plateau 1 1) (get field_plateau 1 2) = true.
Proof.
  apply (find_local_maxima_neighbours_equal field_plateau 1 1 1 2).
  - apply wfb_wf. reflexivity.
  - vm_compute. tauto.
  - vm_compute. tauto.
  - lia.
  - lia.
Defined.

(** ** More on [ultimate_erode] *)

Lemma find_first_least (f : offset -> bool) (l : list offset) (p q : offset) :
  StronglySorted dist_le l -> find f l = Some p ->
  In q l -> f q = true -> dist_le p q.
Proof.
  induction 1 as [|a t Hs IH Ha]; intros Hfind Hq Hfq; [destruct Hq|].
  cbn [find] in Hfind. destruct (f a) eqn:Efa.
  - injection Hfind as <-. destruct Hq as [->|Hq]; [unfold dist_le; lia|].
    rewrite Forall_forall in Ha. now apply Ha.
  - destruct Hq as [->|Hq]; [congruence|]. now apply IH.
Qed.

Lemma get_distance_list_facts (r : Z) (l : list offset) :
  get_distance_list r = Some l ->
  0 <= r /\ StronglySorted dist_le l /\
  forall p, In p l <->
            dist p = Sqrt (dx p ^ 2 + dy p ^ 2) /\ dx p ^ 2 + dy p ^ 2 <= r * r.
Proof.
  unfold get_distance_list. destruct (Z.ltb_spec r 0); [discriminate|].
  intros [= <-]. split; [assumption|]. split; [apply sort_by_dist_sorted|].
  intros p. rewrite <- in_disk_offsets_iff by assumption.
  split; apply Permutation_in; [symmetry|]; apply sort_by_dist_perm.
Qed.

Section UltimateErodeMore.
Context {V : Type} `{Scalar V}.

(** X8: every coordinate [ultimate_erode] returns is a non-zero pixel of
    the mask that is not on its border; a mask without foreground gives
    the empty list. *)
Theorem ultimate_erode_foreground {O : Type} (img : ndarray V) (orig : O) (i j : Z) :
  wf img -> In (i, j) (ultimate_erode img orig) ->
  1 <= i <= shape0 img - 2 /\ 1 <= j <= shape1 img - 2 /\
  s_eqb (get img i j) s_zero = false.
Proof.
  intros Hwf Hin. unfold ultimate_erode in Hin.
  destruct (get_distance_list 16) as [dl|]; [|destruct Hin].
  rewrite erode_loops_spec in Hin by exact Hwf.
  destruct (inconclusive img dl); [destruct Hin|].
  rewrite find_local_maxima_filter in Hin. apply filter_In in Hin.
  destruct Hin as [Hg Hm]. apply in_grid in Hg. rewrite !in_range in Hg.
  cbn [fst snd shape0 shape1 distance_field] in Hg, Hm.
  split; [lia|]. split; [lia|].
  unfold is_local_max in Hm. apply andb_true_iff in Hm. destruct Hm as [Hnz _].
  rewrite get_distance_field in Hnz by lia. unfold pixel_distance in Hnz.
  destruct (s_eqb (get img i j) s_zero); [discriminate Hnz | reflexivity].
Qed.

(** X10: when the loops of [ultimate_erode] do not abort, the array they
    leave holds 0 at every background pixel and, at every foreground
    pixel, the exact distance to the nearest point that is outside the
    mask or zero: an offset of the disk of radius 16 reaches such a point
    at that distance, and none does at a smaller one. *)
Theorem erode_loops_exact_distance (img : ndarray V) (dl : list offset)
        (D : ndarray surd) (i j : Z) :
  wf img -> get_distance_list 16 = Some dl ->
  erode_loops img dl = Next D ->
  0 <= i < shape0 img -> 0 <= j < shape1 img ->
  (s_eqb (get img i j) s_zero = true -> get D i j = Sqrt 0) /\
  (s_eqb (get img i j) s_zero = false ->
   exists x y,
     get D i j = Sqrt (x ^ 2 + y ^ 2) /\ 0 < x ^ 2 + y ^ 2 <= 256 /\
     hits img i j x y = true /\
     forall x' y', x' ^ 2 + y' ^ 2 <= 256 -> hits img i j x' y' = true ->
                   x ^ 2 + y ^ 2 <= x' ^ 2 + y' ^ 2).
Proof.
  intros Hwf Hdl Hrun Hi Hj.
  destruct (get_distance_list_facts _ _ Hdl) as (_ & Hsorted & Hmem).
  rewrite erode_loops_spec in Hrun by exact Hwf.
  destruct (inconclusive img dl) eqn:Einc; [discriminate|].
  injection Hrun as <-. rewrite get_distance_field by assumption.
  split.
  - intros Hbg. unfold pixel_distance. now rewrite Hbg.
  - intros Hfg.
    assert (Hnz : pixel_distance img dl i j <> s_zero).
    { intros Hz. rewrite (inconclusive_intro img dl i j) in Einc by assumption.
      discriminate. }
    unfold pixel_distance in *. rewrite Hfg in *. unfold first_hit in *.
    destruct (find _ dl) as [p|] eqn:Efind; cbn [option_map] in *;
      [|congruence].
    pose proof (find_some _ _ Efind) as [Hp Hhit].
    apply Hmem in Hp. destruct Hp as [Hd Hle].
    exists (dx p), (dy p). split; [exact Hd|]. split.
    + split; [|lia]. rewrite Hd in Hnz.
      assert (dx p ^ 2 + dy p ^ 2 <> 0) by (intros E; apply Hnz; now rewrite E).
      nia.
    + split; [exact Hhit|]. intros x' y' Hle' Hhit'.
      pose proof (find_first_least _ dl p (mk_offset x' y' (Sqrt (x' ^ 2 + y' ^ 2)))
                    Hsorted Efind) as Hleast.
      unfold dist_le in Hleast. rewrite Hd in Hleast. cbn [dist radicand dx dy] in Hleast.
      apply Hleast; [|exact Hhit'].
      apply Hmem. cbn [dist dx dy]. split; [reflexivity | lia].
Qed.
End UltimateErodeMore.

Lemma find_ext_in {A} (f g : A -> bool) (l : list A) :
  (forall x, In x l -> f x = g x) -> find f l = find g l.
Proof.
  induction l as [|x l IH]; intros Hfg; simpl; [reflexivity|].
  rewrite <- (Hfg x) by (simpl; auto). destruct (f x); [reflexivity|].
  apply IH. intros; apply Hfg; simpl; auto.
Qed.

Lemma existsb_ext_in {A} (f g : A -> bool) (l : list A) :
  (forall x, In x l -> f x = g x) -> existsb f l = existsb g l.
Proof.
  induction l as [|x l IH]; intros Hfg; simpl; [reflexivity|].
  rewrite <- (Hfg x) by (simpl; auto). f_equal.
  apply IH. intros; apply Hfg; simpl; auto.
Qed.

Section ZeroPattern.
Context {V1 V2 : Type} `{Scalar V1} `{Scalar V2}.
Variables (img1 : ndarray V1) (img2 : ndarray V2).
Hypothesis same_shape0 : shape0 img1 = shape0 img2.
Hypothesis same_shape1 : shape1 img1 = shape1 img2.
Hypothesis same_zeros :
  forall i j, 0 <= i < shape0 img1 -> 0 <= j < shape1 img1 ->
              s_eqb (get img1 i j) s_zero = s_eqb (get img2 i j) s_zero.

Lemma hits_same (i j x y : Z) : hits img1 i j x y = hits img2 i j x y.
Proof.
  unfold hits, out_of_bounds. rewrite <- same_shape0, <- same_shape1.
  destruct ((i + x <? 0) || (i + x >=? shape0 img1) || (j + y <? 0)
            || (j + y >=? shape1 img1)) eqn:E; [reflexivity|].
  cbn [orb]. apply same_zeros; lia.
Qed.

Lemma pixel_distance_same (dl : list offset) (i j : Z) :
  0 <= i < shape0 img1 -> 0 <= j < shape1 img1 ->
  pixel_distance img1 dl i j = pixel_distance img2 dl i j.
Proof.
  intros Hi Hj. unfold pixel_distance, first_hit.
  rewrite <- same_zeros by assumption.
  destruct (s_eqb (get img1 i j) s_zero); [reflexivity|].
  rewrite (find_ext_in _ (fun p => hits img2 i j (dx p) (dy p)) dl);
    [reflexivity|].
  intros p _. apply (hits_same i j (dx p) (dy p)).
Qed.

(** X9: [ultimate_erode] reads the mask only through which pixels are
    zero: on two masks of one shape with the same zero pixels, whatever
    their other values and element types, it returns the same list. *)
Theorem ultimate_erode_zero_pattern {O1 O2 : Type} (orig1 : O1) (orig2 : O2) :
  wf img1 -> wf img2 ->
  ultimate_erode img1 orig1 = ultimate_erode img2 orig2.
Proof.
  intros Hwf1 Hwf2. unfold ultimate_erode.
  destruct (get_distance_list 16) as [dl|]; [|reflexivity].
  rewrite !erode_loops_spec by assumption.
  assert (Hfield : distance_field img1 dl = distance_field img2 dl).
  { unfold distance_field. rewrite <- same_shape0, <- same_shape1. f_equal.
    apply map_ext_in. intros i Hi. apply map_ext_in. intros j Hj.
    apply in_range in Hi, Hj. now apply pixel_distance_same. }
  assert (Hinc : inconclusive img1 dl = inconclusive img2 dl).
  { unfold inconclusive. rewrite <- same_shape0, <- same_shape1.
    apply existsb_ext_in. intros [i j] Hin. apply in_grid in Hin.
    rewrite !in_range in Hin. cbn [fst snd].
    rewrite same_zeros, pixel_distance_same by lia. reflexivity. }
  rewrite Hfield, Hinc. reflexivity.
Qed.
End ZeroPattern.

Lemma ultimate_erode_foreground_witness :
  1 <= 2 <= shape0 (ones 5 5) - 2 /\ 1 <= 2 <= shape1 (ones 5 5) - 2 /\
  s_eqb (get (ones 5 5) 2 2) s_zero = false.
Proof.
  apply (ultimate_erode_foreground (ones 5 5) tt 2 2).
  - apply wfb_wf. reflexivity.
  - vm_compute. tauto.
Defined.

Lemma erode_loops_exact_distance_witness :
  (s_eqb (get mask_cross 1 2) s_zero = true ->
   get (distance_field mask_cross (sort_by_dist (disk_offsets 16))) 1 2 = Sqrt 0) /\
  (s_eqb (get mask_cross 1 2) s_zero = false ->
   exists x y,
     get (distance_field mask_cross (sort_by_dist (disk_offsets 16))) 1 2
     = Sqrt (x ^ 2 + y ^ 2) /\ 0 < x ^ 2 + y ^ 2 <= 256 /\
     hits mask_cross 1 2 x y = true /\
     forall x' y', x' ^ 2 + y' ^ 2 <= 256 -> hits mask_cross 1 2 x' y' = true ->
                   x ^ 2 + y ^ 2 <= x' ^ 2 + y' ^ 2).
Proof.
  apply (erode_loops_exact_distance mask_cross (sort_by_dist (disk_offsets 16))).
  - apply wfb_wf. reflexivity.
  - vm_compute. reflexivity.
  - vm_compute. reflexivity.
  - cbn. lia.
  - cbn. lia.
Defined.

Lemma ultimate_erode_zero_pattern_witness :
  ultimate_erode mask_cross tt = ultimate_erode mask_cross_surd 0.
Proof.
  apply (ultimate_erode_zero_pattern mask_cross mask_cross_surd).
  - reflexivity.
  - reflexivity.
  - cbn [shape0 shape1 mask_cross]. intros i j Hi Hj.
    assert (Ei : i = 0 \/ i = 1 \/ i = 2 \/ i = 3 \/ i = 4) by lia.
    assert (Ej : j = 0 \/ j = 1 \/ j = 2 \/ j = 3 \/ j = 4) by lia.
    destruct Ei as [->|[->|[->|[->| ->]]]], Ej as [->|[->|[->|[->| ->]]]];
      reflexivity.
  - apply wfb_wf. reflexivity.
  - apply wfb_wf. reflexivity.
Defined.

(** ** More on [fwhm] *)

Section FwhmMore.
Context {F : Type} `{FloatArith F}.

Lemma normalise_length (profile data : list F) :
  normalise profile = Some data -> length data = length profile.
Proof.
  unfold normalise. destruct (np_fmax profile); [|discriminate].
  cbn [obind]. intros [= <-]. apply length_map.
Qed.

Lemma lead_walk_first (data : list F) (fuel lo i : nat) :
  lead_walk data fuel lo = Some i -> first_sign_change data lo i.
Proof.
  revert lo. induction fuel as [|fuel IH]; intros lo Hrun; [discriminate|].
  cbn [lead_walk] in Hrun.
  destruct (nth_error data lo) as [a|] eqn:Ea; [|discriminate].
  destruct (nth_error data (lo - 1)) as [b|] eqn:Eb; [|discriminate].
  cbn [obind] in Hrun. destruct (same_side a b) eqn:Es.
  - destruct (IH _ Hrun) as (Hle & Hch & Hno). split; [lia|]. split; [exact Hch|].
    intros k a' b' Hk Ha' Hb'. destruct (Nat.eq_dec k lo) as [->|Hne].
    + congruence.
    + apply (Hno k a' b'); [lia | assumption | assumption].
  - injection Hrun as <-. split; [lia|]. split; [exists a, b; auto|].
    intros k a' b' Hk. lia.
Qed.

Lemma trail_walk_first (data : list F) (N : Z) (fuel lo i : nat) :
  trail_walk data N fuel lo = Some i ->
  (lo <= i)%nat /\ no_sign_change data lo i /\
  (Z.of_nat i <= N - 1 -> sign_change data i) /\
  (i < length data)%nat.
Proof.
  revert lo. induction fuel as [|fuel IH]; intros lo Hrun; [discriminate|].
  cbn [trail_walk] in Hrun.
  destruct (nth_error data lo) as [a|] eqn:Ea; [|discriminate].
  destruct (nth_error data (lo - 1)) as [b|] eqn:Eb; [|discriminate].
  cbn [obind] in Hrun.
  assert (Hlo : (lo < length data)%nat) by (apply nth_error_Some; congruence).
  destruct (same_side a b) eqn:Es;
    destruct (Z.leb_spec (Z.of_nat lo) (N - 1)) as [Hin|Hout]; cbn [andb] in Hrun.
  - destruct (IH _ Hrun) as (Hle & Hno & Hch & Hb). split; [lia|]. split; [|split].
    + intros k a' b' Hk Ha' Hb'. destruct (Nat.eq_dec k lo) as [->|Hne].
      * congruence.
      * apply (Hno k a' b'); [lia | assumption | assumption].
    + exact Hch.
    + exact Hb.
  - injection Hrun as <-. split; [lia|]. split; [intros k a' b' Hk; lia|].
    split; [lia | exact Hlo].
  - injection Hrun as <-. split; [lia|]. split; [intros k a' b' Hk; lia|].
    split; [intros _; exists a, b; auto | exact Hlo].
  - injection Hrun as <-. split; [lia|]. split; [intros k a' b' Hk; lia|].
    split; [lia | exact Hlo].
Qed.

Lemma fwhm_too_short (profile : list F) :
  (length profile <= 1)%nat -> fwhm profile = None.
Proof.
  destruct profile as [|v [|w t]]; cbn [length]; intros Hlen; try lia.
  - reflexivity.
  - unfold fwhm, normalise, centre_index. cbn [np_fmax fold_left obind map nth_error].
    unfold np_argmax, np_argmin. cbn [arg_best fst snd].
    destruct (f_ltb (f_div v v) f_half), (f_isnan (f_div v v)); reflexivity.
Qed.

(** X11: a profile of fewer than two samples makes [fwhm] raise, whatever
    the float arithmetic: [np.max] of an empty array, or [data[1]] in the
    first walk. *)
Theorem fwhm_short_profile (profile : list F) :
  (length profile <= 1)%nat -> fwhm profile = None.
Proof. apply fwhm_too_short. Qed.

(** X12: when [fwhm] returns, the peak position is an index of the
    profile below 256, the size of the coordinate table [x]. *)
Theorem fwhm_position_in_range (profile : list F) (w : width F) (e : Z) :
  fwhm profile = Some (w, e) ->
  0 <= e < 256 /\ e < Z.of_nat (length profile) /\ (2 <= length profile)%nat.
Proof.
  intros Hrun.
  assert (Hlen2 : (2 <= length profile)%nat).
  { destruct (Nat.le_gt_cases (length profile) 1) as [Hs|]; [|lia].
    rewrite (fwhm_too_short profile Hs) in Hrun. discriminate. }
  unfold fwhm in Hrun.
  destruct (normalise profile) as [data|] eqn:En; [|discriminate].
  cbn [obind] in Hrun.
  destruct (centre_index data) as [centre|] eqn:Ec; [|discriminate].
  cbn [obind] in Hrun.
  destruct (x_at centre) as [x|] eqn:Ex; [|discriminate]. cbn [obind] in Hrun.
  destruct (leading_edge data); [|discriminate]. cbn [obind] in Hrun.
  destruct (trail_walk data _ _ _) as [i|]; [|discriminate]. cbn [obind] in Hrun.
  assert (He : e = x).
  { destruct (negb _); [destruct (crossing data i); [|discriminate]|];
      cbn [obind] in Hrun; now injection Hrun. }
  subst e. unfold x_at in Ex.
  destruct (Nat.ltb_spec centre 256); [|discriminate]. injection Ex as <-.
  apply centre_index_bound in Ec. apply normalise_length in En. lia.
Qed.

(** X13: what [fwhm] returns.  The leading edge is the crossing at the
    first sign change of [sample - 0.5] in the normalised profile.  A
    float width is the crossing at the first sign change right of the
    peak, which lies before the last index, minus the leading edge; the
    integer width is 0 and is returned only when there is no sign change
    from the peak up to the second-to-last index. *)
Theorem fwhm_result (profile : list F) (w : width F) (e : Z) :
  fwhm profile = Some (w, e) ->
  exists data lead lead_t,
    normalise profile = Some data /\
    first_sign_change data 1 lead /\ crossing data lead = Some lead_t /\
    match w with
    | Wfloat x =>
        exists trail trail_t,
          first_sign_change data (Z.to_nat e + 1) trail /\
          (trail + 1 < length data)%nat /\
          crossing data trail = Some trail_t /\ x = f_sub trail_t lead_t
    | Wint z =>
        z = 0 /\ no_sign_change data (Z.to_nat e + 1) (length data - 1)
    end.
Proof.
  intros Hrun. unfold fwhm in Hrun.
  destruct (normalise profile) as [data|] eqn:En; [|discriminate].
  cbn [obind] in Hrun.
  destruct (centre_index data) as [centre|] eqn:Ec; [|discriminate].
  cbn [obind] in Hrun.
  destruct (x_at centre) as [x|] eqn:Ex; [|discriminate]. cbn [obind] in Hrun.
  destruct (leading_edge data) as [lead_t|] eqn:El; [|discriminate].
  cbn [obind] in Hrun.
  destruct (trail_walk data _ _ _) as [i|] eqn:Et; [|discriminate].
  cbn [obind] in Hrun.
  unfold leading_edge in El.
  destruct (lead_walk data (length data) 1) as [lead|] eqn:Ew; [|discriminate].
  cbn [obind] in El. apply lead_walk_first in Ew.
  assert (Hx : x = Z.of_nat centre).
  { unfold x_at in Ex. destruct (centre <? 256)%nat; [|discriminate].
    now injection Ex. }
  pose proof (centre_index_bound _ _ Ec) as Hc.
  apply trail_walk_first in Et. destruct Et as (Hlo & Hno & Hch & Hb).
  exists data, lead, lead_t. split; [reflexivity|]. split; [exact Ew|].
  split; [exact El|].
  destruct (Z.eqb_spec (Z.of_nat i) (Z.of_nat (length data) - 1)) as [Ei|Ni];
    cbn [negb] in Hrun.
  - injection Hrun as <- <-. split; [reflexivity|]. subst x.
    rewrite Nat2Z.id. replace (length data - 1)%nat with i by lia. exact Hno.
  - destruct (crossing data i) as [trail_t|] eqn:Ecr; [|discriminate].
    cbn [obind] in Hrun. injection Hrun as <- <-. subst x. rewrite Nat2Z.id.
    exists i, trail_t. split; [|split; [lia | split; [exact Ecr | reflexivity]]].
    split; [exact Hlo|]. split; [apply Hch; lia | exact Hno].
Qed.
End FwhmMore.

Lemma fwhm_short_profile_witness :
  fwhm [b64_of_Z 7] = None.
Proof. apply (fwhm_short_profile [b64_of_Z 7]). simpl. lia. Defined.

Lemma fwhm_position_in_range_witness :
  0 <= 3 < 256 /\ 3 < Z.of_nat (length plateau_profile) /\
  (2 <= length plateau_profile)%nat.
Proof.
  apply (fwhm_position_in_range plateau_profile (Wint 0) 3).
  vm_compute. reflexivity.
Defined.

Lemma fwhm_result_witness :
  exists data lead lead_t,
    normalise triangle_profile = Some data /\
    first_sign_change data 1 lead /\ crossing data lead = Some lead_t /\
    exists trail trail_t,
      first_sign_change data (Z.to_nat 2 + 1) trail /\
      (trail + 1 < length data)%nat /\
      crossing data trail = Some trail_t /\
      b64_of_Z 2 = f_sub trail_t lead_t.
Proof.
  apply (fwhm_result triangle_profile (Wfloat (b64_of_Z 2)) 2).
  vm_compute. reflexivity.
Defined.

(** ** The first walk of [fwhm] on exact rationals *)

Lemma Qsign_neg (x : Q) : (x < 0)%Q -> Qsign x = (-1)%Q.
Proof.
  intros Hx. unfold Qsign.
  destruct (Qcompare_spec x 0) as [E|L|G]; [lra | reflexivity | lra].
Qed.

Lemma Qsign_pos (x : Q) : (0 < x)%Q -> Qsign x = 1%Q.
Proof.
  intros Hx. unfold Qsign.
  destruct (Qcompare_spec x 0) as [E|L|G]; [lra | lra | reflexivity].
Qed.

Lemma same_side_neg (a b : Q) :
  same_side a b = true -> Qsign (b - (1 # 2)) = (-1)%Q ->
  Qsign (a - (1 # 2)) = (-1)%Q.
Proof.
  unfold same_side. cbn [f_eqb f_sign f_sub f_half Q_FloatArith].
  intros Hs Hb. rewrite Hb in Hs. unfold Qsign in *.
  destruct (a - (1 # 2) ?= 0)%Q; [discriminate Hs | reflexivity | discriminate Hs].
Qed.

Lemma Qltb_lt (x y : Q) : Qltb x y = true -> (x < y)%Q.
Proof.
  unfold Qltb. intros E. apply negb_true_iff in E. apply Qnot_le_lt.
  intros Hle. apply Qle_bool_iff in Hle. congruence.
Qed.

Lemma Qltb_ge (x y : Q) : Qltb x y = false -> (y <= x)%Q.
Proof.
  unfold Qltb. intros E. apply negb_false_iff in E. now apply Qle_bool_iff.
Qed.

Lemma Qmax_fold_ge (t : list Q) (v : Q) :
  (v <= fold_left (fun m y => if Qle_bool y m || false then m else y) t v)%Q /\
  forall x, In x t ->
            (x <= fold_left (fun m y => if Qle_bool y m || false then m else y) t v)%Q.
Proof.
  revert v. induction t as [|y t IH]; intros v; cbn [fold_left].
  - split; [apply Qle_refl | intros x []].
  - destruct (IH (if Qle_bool y v || false then v else y)) as [Hv Ht].
    assert (Hvy : (v <= (if Qle_bool y v || false then v else y))%Q /\
                  (y <= (if Qle_bool y v || false then v else y))%Q).
    { destruct (Qle_bool y v) eqn:E; cbn [orb].
      - split; [apply Qle_refl | now apply Qle_bool_iff].
      - split; [|apply Qle_refl]. apply Qlt_le_weak, Qnot_le_lt.
        intros Hle. apply Qle_bool_iff in Hle. congruence. }
    split; [eapply Qle_trans; [apply Hvy | exact Hv]|].
    intros x [<-|Hx]; [eapply Qle_trans; [apply Hvy | exact Hv] | now apply Ht].
Qed.

Lemma Qmax_fold_in (t : list Q) (v : Q) :
  In (fold_left (fun m y => if Qle_bool y m || false then m else y) t v) (v :: t).
Proof.
  revert v. induction t as [|y t IH]; intros v; cbn [fold_left]; [now left|].
  destruct (IH (if Qle_bool y v || false then v else y)) as [E|E]; [|now right; right].
  rewrite <- E. destruct (Qle_bool y v); cbn [orb]; [now left | right; now left].
Qed.

(** [np.argmax] points at an element that no element exceeds. *)
Lemma arg_best_max (l pre : list Q) (k : nat) (v : Q) :
  nth_error (pre ++ l) k = Some v ->
  (forall x, In x pre -> (x <= v)%Q) ->
  exists vr,
    nth_error (pre ++ l)
              (arg_best (fun y m => Qltb m y) l (length pre) (k, v)) = Some vr /\
    forall x, In x (pre ++ l) -> (x <= vr)%Q.
Proof.
  revert pre k v. induction l as [|y l IH]; intros pre k v Hk Hpre; cbn [arg_best fst].
  - exists v. split; [exact Hk|]. rewrite app_nil_r. exact Hpre.
  - replace (pre ++ y :: l) with ((pre ++ [y]) ++ l) in * by now rewrite <- app_assoc.
    replace (S (length pre)) with (length (pre ++ [y]))
      by (rewrite length_app; simpl; lia).
    cbn [snd]. destruct (Qltb v y) eqn:E.
    + pose proof (Qltb_lt _ _ E) as Hvy.
      apply IH.
      * rewrite nth_error_app1 by (rewrite length_app; simpl; lia).
        rewrite nth_error_app2 by lia. now rewrite Nat.sub_diag.
      * intros x Hx. apply in_app_or in Hx.
        destruct Hx as [Hx|[<-|[]]]; [|apply Qle_refl].
        eapply Qle_trans; [now apply Hpre | now apply Qlt_le_weak].
    + apply IH; [exact Hk|]. intros x Hx. apply in_app_or in Hx.
      destruct Hx as [Hx|[<-|[]]]; [now apply Hpre | now apply Qltb_ge].
Qed.

Lemma np_argmax_max (data : list Q) (d : Q) :
  In d data ->
  exists vr, nth_error data (np_argmax data) = Some vr /\ (d <= vr)%Q.
Proof.
  destruct data as [|v t]; [intros []|]. intros Hd. unfold np_argmax.
  destruct (arg_best_max t [v] 0 v eq_refl) as (vr & Hnth & Hmax).
  - intros x [<-|[]]. apply Qle_refl.
  - exists vr. split; [exact Hnth | now apply Hmax].
Qed.

(** From a sample below the level, the walk stops at or before any later
    sample above it. *)
Lemma lead_walk_reaches (data : list Q) (c fuel i : nat) (dc : Q) :
  (1 <= i <= c)%nat -> (length data <= i + fuel)%nat ->
  nth_error data c = Some dc -> Qsign (dc - (1 # 2)) = 1%Q ->
  (forall b, nth_error data (i - 1) = Some b -> Qsign (b - (1 # 2)) = (-1)%Q) ->
  exists r, lead_walk data fuel i = Some r /\ (i <= r <= c)%nat.
Proof.
  intros Hi Hfuel Hc Hdc. revert i Hi Hfuel.
  assert (Hclen : (c < length data)%nat) by (apply nth_error_Some; congruence).
  induction fuel as [|fuel IH]; intros i Hi Hfuel Hprev; [lia|].
  cbn [lead_walk].
  destruct (nth_error_in_range data i) as [a Ha]; [lia|].
  destruct (nth_error_in_range data (i - 1)) as [b Hb]; [lia|].
  rewrite Ha, Hb. cbn [obind]. destruct (same_side a b) eqn:Es.
  - pose proof (same_side_neg a b Es (Hprev b Hb)) as Hanew.
    assert (i <> c) by (intros ->; rewrite Hc in Ha; injection Ha as <-;
                        rewrite Hdc in Hanew; discriminate).
    destruct (IH (S i)) as (r & Hr & Hb'); [lia | lia | |].
    + intros b' Hb'. replace (S i - 1)%nat with i in Hb' by lia.
      rewrite Ha in Hb'. now injection Hb' as <-.
    + exists r. split; [exact Hr | lia].
  - exists i. split; [reflexivity | lia].
Qed.

(** X14: on exact rationals, for a profile whose maximum is positive and
    whose first sample is below half of it, the first walk of [fwhm]
    stops at a sign change at or before the peak and never runs off the
    array; the leading edge is then defined if the peak index is below
    256. *)
Theorem fwhm_leading_edge_found (profile : list Q) (m v0 : Q) :
  np_fmax profile = Some m -> (0 < m)%Q ->
  nth_error profile 0 = Some v0 -> (v0 < (1 # 2) * m)%Q ->
  let data := map (fun v => (v / m)%Q) profile in
  normalise profile = Some data /\
  exists i, lead_walk data (length data) 1 = Some i /\
            (1 <= i <= np_argmax data)%nat /\
            ((np_argmax data < 256)%nat -> exists t, leading_edge data = Some t).
Proof.
  intros Hmax Hm Hv0 Hlow data.
  assert (Hnorm : normalise profile = Some data).
  { unfold normalise. rewrite Hmax. reflexivity. }
  split; [exact Hnorm|].
  assert (Hmin : In m profile).
  { destruct profile as [|v t]; [discriminate|]. cbn [np_fmax] in Hmax.
    injection Hmax as <-. apply Qmax_fold_in. }
  assert (Hone : In (m / m)%Q data)
    by (unfold data; apply (in_map (fun v => (v / m)%Q)); exact Hmin).
  destruct (np_argmax_max data (m / m)%Q Hone) as (dc & Hdc & Hle).
  assert (Hmm : (m / m == 1)%Q).
  { unfold Qdiv. apply Qmult_inv_r. intros E. rewrite E in Hm.
    now apply Qlt_irrefl in Hm. }
  assert (Hsc : Qsign (dc - (1 # 2)) = 1%Q).
  { apply Qsign_pos. rewrite Hmm in Hle. lra. }
  assert (Hd0 : nth_error data 0 = Some (v0 / m)%Q).
  { unfold data. destruct profile; [discriminate|]. cbn in *. now injection Hv0 as ->. }
  assert (Hs0 : Qsign (v0 / m - (1 # 2)) = (-1)%Q).
  { apply Qsign_neg. assert (v0 / m < 1 # 2)%Q by now apply Qlt_shift_div_r. lra. }
  assert (Hcpos : (1 <= np_argmax data)%nat).
  { destruct (np_argmax data) as [|c]; [|lia].
    rewrite Hd0 in Hdc. injection Hdc as <-. rewrite Hs0 in Hsc. discriminate. }
  destruct (lead_walk_reaches data (np_argmax data) (length data) 1 dc)
    as (i & Hi & Hbound); try assumption; try lia.
  { cbn [Nat.sub]. intros b Hb. rewrite Hd0 in Hb. now injection Hb as <-. }
  exists i. split; [exact Hi|]. split; [exact Hbound|].
  intros H256. unfold leading_edge. rewrite Hi. cbn [obind]. unfold crossing.
  assert (Hclen : (np_argmax data < length data)%nat)
    by (apply nth_error_Some; congruence).
  destruct (nth_error_in_range data i) as [a Ha]; [lia|].
  destruct (nth_error_in_range data (i - 1)) as [b Hb]; [lia|].
  rewrite Ha, Hb. cbn [obind]. unfold x_at.
  destruct (Nat.ltb_spec i 256); [|lia].
  destruct (Nat.ltb_spec (i - 1) 256); [|lia]. cbn [obind]. eauto.
Qed.

Lemma fwhm_leading_edge_found_witness :
  let data := map (fun v => (v / 4)%Q) [1; 1; 3; 4; 2]%Q in
  normalise [1; 1; 3; 4; 2]%Q = Some data /\
  exists i, lead_walk data (length data) 1 = Some i /\
            (1 <= i <= np_argmax data)%nat /\
            ((np_argmax data < 256)%nat -> exists t, leading_edge data = Some t).
Proof.
  apply (fwhm_leading_edge_found [1; 1; 3; 4; 2]%Q 4%Q 1%Q).
  - reflexivity.
  - reflexivity.
  - reflexivity.
  - reflexivity.
Defined.

(** ** The records of [simulate], with bleaching *)

Lemma ensures_lift {A} (o : option A) (P : A -> Prop) :
  (forall x, o = Some x -> P x) -> ensures (lift o) P.
Proof.
  intros Ho k x k' Hrun. unfold lift in Hrun.
  destruct o as [y|]; [|discriminate]. injection Hrun as <- _. now apply Ho.
Qed.

Lemma returns_ensures {A} (m : Rand A) (P : A -> Prop) :
  (forall k, returns_at m k P) -> ensures m P.
Proof. intros Hm k x k' Hrun. eapply returns_at_det; [apply Hm | exact Hrun]. Qed.

Lemma assign_some {A} (n : nat) (x : A) (l l' : list A) :
  assign n x l = Some l' -> (n < length l)%nat /\ l' = upd n x l.
Proof.
  unfold assign. destruct (Nat.ltb_spec n (length l)); [|discriminate].
  intros [= <-]. now split.
Qed.

Lemma np_max_Z (l : list Z) (top : Z) :
  np_max l = Some top -> Forall (fun c => c <= top) l.
Proof.
  destruct l as [|x t]; [discriminate|]. cbn [np_max]. intros [= <-].
  apply Forall_forall. intros c Hc. apply Z.leb_le.
  exact (@fold_max_ge Z Z_Scalar Z_ScalarOrder t x c Hc).
Qed.

Lemma Forall2_nth_error_l {A B} (R : A -> B -> Prop) (l : list A) (t : list B)
      (n : nat) (b : B) :
  Forall2 R l t -> nth_error t n = Some b ->
  exists a, nth_error l n = Some a /\ R a b.
Proof.
  intros HF. revert n. induction HF as [|a0 b0 l t Hab HF IH]; intros [|n] Hn;
    cbn in *; try discriminate.
  - injection Hn as <-. eauto.
  - now apply IH.
Qed.

Lemma Forall2_upd_r {A B} (R : A -> B -> Prop) (l : list A) (t : list B)
      (n : nat) (y : B) :
  Forall2 R l t -> (forall a, nth_error l n = Some a -> R a y) ->
  Forall2 R l (upd n y t).
Proof.
  intros HF. revert n. induction HF as [|a0 b0 l t Hab HF IH]; intros [|n] Hy;
    cbn [upd].
  - constructor.
  - constructor.
  - constructor; [apply Hy; reflexivity | exact HF].
  - constructor; [exact Hab | apply IH; intros a Ha; apply Hy; exact Ha].
Qed.

Lemma In_upd {A} (n : nat) (x y : A) (l : list A) :
  In y (upd n x l) -> y = x \/ In y l.
Proof.
  revert n. induction l as [|h t IH]; intros [|n]; cbn; try tauto.
  - intros [<-|Hy]; auto.
  - intros [<-|Hy]; auto. destruct (IH _ Hy); auto.
Qed.

Lemma NoDup_upd_fresh {A} (n : nat) (x : A) (l : list A) :
  NoDup l -> ~ In x l -> NoDup (upd n x l).
Proof.
  intros Hnd. revert n. induction Hnd as [|h t Hh Hnd IH]; intros [|n] Hx;
    cbn [upd]; try constructor.
  - intros Hin. apply Hx. now right.
  - exact Hnd.
  - intros Hin. apply In_upd in Hin. destruct Hin as [->|Hin];
      [apply Hx; now left | contradiction].
  - apply IH. intros Hin. apply Hx. now right.
Qed.

Lemma ids_grow_refl (T : list Z) : ids_grow T T.
Proof. apply Forall2_refl. now left. Qed.

Lemma grow_le (T0 l t : list Z) :
  (forall c, In c l -> In c T0) ->
  Forall2 (fun a b => b = a \/ Forall (fun c => c < b) T0) l t ->
  Forall2 Z.le l t.
Proof.
  intros Hsub HF. induction HF as [|a b l t Hab HF IH]; constructor.
  - destruct Hab as [->|Hall]; [lia|]. rewrite Forall_forall in Hall.
    apply Z.lt_le_incl, Hall, Hsub. now left.
  - apply IH. intros c Hc. apply Hsub. now right.
Qed.

(** A slot's id is never smaller than the id it had in the frame before. *)
Lemma ids_grow_le (T t : list Z) : ids_grow T t -> Forall2 Z.le T t.
Proof. apply grow_le. auto. Qed.

Section SimulateMore.
Variable bits : nat -> Z.
Variable gauss : nat -> Q.
Variable np_sqrt : Q -> Q.
Variable Spots_new : nat -> Spots.

Lemma bleach_spot_inv (params : Params) (c0 : Spots) (spot : nat) (s : Spots) :
  bleach_inv c0 s -> ensures (bleach_spot bits params spot s) (bleach_inv c0).
Proof.
  intros (Hfr & Hpos & Hgrow & Hnd) k s' k' Hrun.
  unfold bleach_spot, rbind, rand, lift in Hrun. cbv beta iota in Hrun.
  destruct (Qltb _ _); [|injection Hrun as <- _; repeat split; assumption].
  destruct (nth_error (positions s) spot) as [old|]; [|discriminate].
  cbn [option_map] in Hrun. cbv beta iota in Hrun.
  destruct (assign spot _ (positions s)) as [pos1|] eqn:E1; [|discriminate].
  cbn [option_map] in Hrun. cbv beta iota in Hrun.
  destruct (assign spot _ pos1) as [pos2|] eqn:E2; [|discriminate].
  cbn [option_map] in Hrun. cbv beta iota in Hrun.
  destruct (np_max (traj_num s)) as [top|] eqn:Et; [|discriminate].
  cbn [option_map] in Hrun. cbv beta iota in Hrun.
  destruct (assign spot (top + 1) (traj_num s)) as [traj|] eqn:E3; [|discriminate].
  cbn [option_map] in Hrun. unfold rret in Hrun. injection Hrun as <- _.
  apply assign_some in E1, E2, E3. destruct E1 as [_ ->], E2 as [_ ->], E3 as [Hs ->].
  apply np_max_Z in Et.
  unfold bleach_inv. cbn [frame positions traj_num set_traj_num set_positions].
  rewrite !upd_length. split; [exact Hfr|]. split; [exact Hpos|].
  assert (Hfresh : Forall (fun c => c < top + 1) (traj_num c0)).
  { apply Forall_forall. intros c Hc.
    apply ids_grow_le in Hgrow.
    destruct (In_nth_error _ _ Hc) as [n Hn].
    assert (Hlen : length (traj_num c0) = length (traj_num s))
      by (eapply Forall2_length; eassumption).
    destruct (nth_error_in_range (traj_num s) n) as [b Hb].
    { rewrite <- Hlen. apply nth_error_Some. congruence. }
    destruct (Forall2_nth_error_l _ _ _ _ _ Hgrow Hb) as (a & Ha & Hab).
    rewrite Hn in Ha. injection Ha as <-.
    rewrite Forall_forall in Et. specialize (Et b (nth_error_In _ _ Hb)). lia. }
  split.
  - apply Forall2_upd_r; [exact Hgrow|]. intros a _. right. exact Hfresh.
  - intros Hnd0. apply NoDup_upd_fresh; [now apply Hnd|].
    intros Hin. rewrite Forall_forall in Et. specialize (Et _ Hin). lia.
Qed.

Lemma bleach_inv_refl (c0 : Spots) : bleach_inv c0 c0.
Proof.
  unfold bleach_inv. split; [reflexivity|]. split; [reflexivity|].
  split; [apply ids_grow_refl | auto].
Qed.

Lemma bleach_loop_inv (params : Params) (c0 : Spots) :
  ensures (if Qltb 0 (bleach_time params)
           then rfor (seq 0 (num_spots params)) (bleach_spot bits params) c0
           else rret c0)
          (bleach_inv c0).
Proof.
  destruct (Qltb 0 (bleach_time params)).
  - apply ensures_rfor; [apply bleach_inv_refl|].
    intros spot s Hs. now apply bleach_spot_inv.
  - apply ensures_ret, bleach_inv_refl.
Qed.

Lemma diffuse_frame_inv (params : Params) (S : Q) (m : nat) (rs : list Spots) :
  (1 <= m < num_frames params)%nat ->
  simulate_inv Spots_new params m rs ->
  ensures (diffuse_frame bits gauss params S m rs)
          (simulate_inv Spots_new params (Datatypes.S m)).
Proof.
  intros Hm (Hlen & H0 & Hfr) k rs' k' Hrun.
  unfold diffuse_frame, rbind, lift in Hrun.
  destruct (nth_error rs m) as [cur|] eqn:Ecur; [|discriminate].
  cbn [option_map] in Hrun. cbv beta iota in Hrun.
  destruct (nth_error rs (m - 1)) as [prev|] eqn:Eprev; [|discriminate].
  cbn [option_map] in Hrun. cbv beta iota in Hrun.
  destruct (normal_positions_returns gauss (positions prev) S k)
    as (pos & k1 & Hn & Hpos).
  rewrite Hn in Hrun.
  set (c0 := set_positions (set_traj_num (set_frame cur (Z.of_nat m)) (traj_num prev)) pos)
    in Hrun.
  destruct ((if Qltb 0 (bleach_time params)
             then rfor (seq 0 (num_spots params)) (bleach_spot bits params) c0
             else rret c0) k1) as [[c' k2]|] eqn:Eb; [|discriminate].
  apply (bleach_loop_inv params c0) in Eb.
  unfold rret in Hrun. injection Hrun as <- _.
  destruct Eb as (Bf & Bp & Bg & Bn). unfold c0 in *.
  cbn [frame positions traj_num set_positions set_traj_num set_frame] in *.
  unfold simulate_inv. rewrite upd_length. split; [exact Hlen|]. split.
  - destruct H0 as (s0 & Hs0 & Hok). exists s0.
    rewrite nth_error_upd_other by lia. now split.
  - intros f p s Hf Hp Hs. destruct (Nat.eq_dec f m) as [->|Hne].
    + rewrite nth_error_upd_same in Hs by lia. injection Hs as <-.
      rewrite nth_error_upd_other in Hp by lia. rewrite Eprev in Hp.
      injection Hp as <-. unfold frame_ok. repeat split; try assumption. lia.
    + rewrite nth_error_upd_other in Hs by lia.
      rewrite nth_error_upd_other in Hp by lia.
      apply Hfr; [lia | assumption | assumption].
Qed.

Lemma rand_scaled_run (n : nat) (scale : Z) (k k' : nat) (l : list Q) :
  rand_scaled bits n scale k = Some (l, k') ->
  exists us, length us = n /\ Forall unit_draw us /\
             l = map (fun u => (u * inject_Z scale)%Q) us.
Proof.
  unfold rand_scaled, rbind. intros Hrun.
  destruct (rrepeat n (rand bits) k) as [[us k1]|] eqn:E; [|discriminate].
  unfold rret in Hrun. injection Hrun as <- _. exists us.
  assert (Hus : length us = n /\ Forall unit_draw us).
  { eapply (returns_at_det _ _ _ _ (fun l => length l = n /\ Forall unit_draw l));
      [|exact E].
    apply rrepeat_returns. intros k0. apply rand_range. }
  destruct Hus. auto.
Qed.

Lemma simulate_spots_inv (params : Params) :
  ensures (simulate_spots bits gauss np_sqrt Spots_new params)
          (simulate_inv Spots_new params (1 + (num_frames params - 1))).
Proof.
  intros k rs k' Hrun. unfold simulate_spots in Hrun.
  remember (map (fun _ => Spots_new (num_spots params))
                (seq 0 (num_frames params))) as rs0 eqn:Ers0.
  assert (Hlen0 : length rs0 = num_frames params)
    by (subst rs0; now rewrite length_map, length_seq).
  assert (Hall : forall s, In s rs0 -> s = Spots_new (num_spots params)).
  { subst rs0. intros s Hs. apply in_map_iff in Hs. now destruct Hs as [? [<- _]]. }
  clear Ers0. unfold rbind at 1 in Hrun.
  destruct (init_positions bits params rs0 k) as [[rs1 k1]|] eqn:Einit; [|discriminate].
  unfold rbind at 1, lift in Hrun.
  destruct (nth_error rs1 0) as [s1|] eqn:Es1; [|discriminate].
  cbn [option_map] in Hrun.
  revert Hrun.
  apply ensures_rfor_seq;
    [|intros i s Hi Hs; apply diffuse_frame_inv; [lia | exact Hs]].
  unfold init_positions, rbind, lift in Einit.
  destruct (rand_scaled bits _ _ k) as [[xs kx]|] eqn:Ex; [|discriminate].
  destruct rs0 as [|s0 t]; [discriminate|].
  cbn in Einit.
  destruct (rand_scaled bits _ _ kx) as [[ys ky]|] eqn:Ey; [|discriminate].
  unfold rret in Einit. injection Einit as <- _.
  apply rand_scaled_run in Ex, Ey.
  destruct Ex as (us & Lu & Fu & ->), Ey as (vs & Lv & Fv & ->).
  cbn in Es1. injection Es1 as <-. cbn [upd].
  unfold simulate_inv. split; [exact Hlen0|]. split.
  - eexists. split; [reflexivity|].
    unfold frame0_ok. cbn [frame traj_num positions set_frame set_positions].
    split; [reflexivity|]. split; [now rewrite (Hall s0) by now left|].
    exists us, vs. auto 10.
  - intros f p s Hf. lia.
Qed.

Lemma Forall_combine {A B} (P : A -> Prop) (R : B -> Prop) (xs : list A) (ys : list B) :
  Forall P xs -> Forall R ys ->
  Forall (fun p => P (fst p) /\ R (snd p)) (combine xs ys).
Proof.
  intros Hx. revert ys. induction Hx as [|x xs Hx Hxs IH]; intros ys Hy; cbn.
  - constructor.
  - destruct Hy as [|y ys Hy Hys]; constructor; [now split | now apply IH].
Qed.

Lemma unit_draw_scaled (u : Q) (w : Z) :
  unit_draw u -> 0 < w ->
  (0 <= u * inject_Z w)%Q /\ (u * inject_Z w < inject_Z w)%Q.
Proof.
  intros [H0 H1] Hw.
  assert (Hq : (0 < inject_Z w)%Q) by (unfold Qlt; cbn; lia).
  split.
  - apply Qmult_le_0_compat; [exact H0 | now apply Qlt_le_weak].
  - setoid_replace (inject_Z w) with (1 * inject_Z w)%Q at 2 by ring.
    now apply Qmult_lt_compat_r.
Qed.

(** X15: when [simulate] returns, with or without bleaching, there is
    one record per frame, the record of frame [f] carries frame index
    [f], and every record holds [num_spots] positions and as many
    trajectory ids as the constructor gave. *)
Theorem simulate_records (params : Params) (k k' : nat) (rs : list Spots) :
  simulate_spots bits gauss np_sqrt Spots_new params k = Some (rs, k') ->
  length rs = num_frames params /\
  forall f s, nth_error rs f = Some s ->
    frame s = Z.of_nat f /\
    length (positions s) = num_spots params /\
    length (traj_num s) = length (traj_num (Spots_new (num_spots params))).
Proof.
  intros Hrun. destruct (simulate_spots_inv params k rs k' Hrun) as (Hlen & H0 & Hfr).
  split; [exact Hlen|]. destruct H0 as (s0 & Hs0 & F0 & T0 & us & vs & Lu & Lv & _ & _ & P0).
  induction f as [|f IH]; intros s Hs.
  - rewrite Hs0 in Hs. injection Hs as <-. split; [exact F0|]. split.
    + rewrite P0, length_combine, !length_map. lia.
    + now rewrite T0.
  - assert (Hf : (S f < length rs)%nat) by (apply nth_error_Some; congruence).
    destruct (nth_error_in_range rs f) as [p Hp]; [lia|].
    destruct (IH p Hp) as (_ & Lp & Lt).
    destruct (Hfr (S f) p s) as (Fs & Ls & Gs & _);
      [lia | now replace (S f - 1)%nat with f by lia | exact Hs|].
    split; [exact Fs|]. split; [lia|].
    apply Forall2_length in Gs. lia.
Qed.

(** X16: for positive frame dimensions, the positions of frame 0 of
    [simulate] lie inside the frame: [0 <= x < frame_size[0]] and
    [0 <= y < frame_size[1]]. *)
Theorem simulate_first_positions (params : Params) (k k' : nat)
        (rs : list Spots) (s0 : Spots) :
  0 < fst (frame_size params) -> 0 < snd (frame_size params) ->
  simulate_spots bits gauss np_sqrt Spots_new params k = Some (rs, k') ->
  nth_error rs 0 = Some s0 ->
  Forall (fun p => ((0 <= fst p)%Q /\ (fst p < inject_Z (fst (frame_size params)))%Q) /\
                   ((0 <= snd p)%Q /\ (snd p < inject_Z (snd (frame_size params)))%Q))
         (positions s0).
Proof.
  intros Hw Hh Hrun Hs0.
  destruct (simulate_spots_inv params k rs k' Hrun) as (_ & H0 & _).
  destruct H0 as (s0' & Hs0' & _ & _ & us & vs & _ & _ & Fu & Fv & P0).
  rewrite Hs0 in Hs0'. injection Hs0' as <-. rewrite P0.
  apply (Forall_combine
           (fun x => (0 <= x)%Q /\ (x < inject_Z (fst (frame_size params)))%Q)
           (fun y => (0 <= y)%Q /\ (y < inject_Z (snd (frame_size params)))%Q));
    apply Forall_forall; intros x Hx;
    apply in_map_iff in Hx; destruct Hx as [u [<- Hu]];
    rewrite Forall_forall in Fu, Fv.
  - apply unit_draw_scaled; auto.
  - apply unit_draw_scaled; auto.
Qed.

(** X17: if the ids the constructor gives are distinct, the ids of every
    frame of [simulate] are distinct, however many spots bleach. *)
Theorem simulate_ids_distinct (params : Params) (k k' : nat) (rs : list Spots) :
  NoDup (traj_num (Spots_new (num_spots params))) ->
  simulate_spots bits gauss np_sqrt Spots_new params k = Some (rs, k') ->
  forall f s, nth_error rs f = Some s -> NoDup (traj_num s).
Proof.
  intros Hnd Hrun. destruct (simulate_spots_inv params k rs k' Hrun) as (Hlen & H0 & Hfr).
  destruct H0 as (s0 & Hs0 & _ & T0 & _).
  induction f as [|f IH]; intros s Hs.
  - rewrite Hs0 in Hs. injection Hs as <-. now rewrite T0.
  - assert (Hf : (S f < length rs)%nat) by (apply nth_error_Some; congruence).
    destruct (nth_error_in_range rs f) as [p Hp]; [lia|].
    destruct (Hfr (S f) p s) as (_ & _ & _ & Hn);
      [lia | now replace (S f - 1)%nat with f by lia | exact Hs|].
    apply Hn, (IH p Hp).
Qed.

(** X18: from one frame of [simulate] to the next each slot keeps its
    id or takes one greater than every id of the frame before; so no id
    of a slot ever decreases. *)
Theorem simulate_ids_grow (params : Params) (k k' : nat) (rs : list Spots)
        (f : nat) (prev s : Spots) :
  simulate_spots bits gauss np_sqrt Spots_new params k = Some (rs, k') ->
  nth_error rs f = Some prev -> nth_error rs (S f) = Some s ->
  ids_grow (traj_num prev) (traj_num s) /\
  Forall2 Z.le (traj_num prev) (traj_num s).
Proof.
  intros Hrun Hp Hs.
  destruct (simulate_spots_inv params k rs k' Hrun) as (Hlen & _ & Hfr).
  assert (Hf : (S f < length rs)%nat) by (apply nth_error_Some; congruence).
  destruct (Hfr (S f) prev s) as (_ & _ & Hg & _);
    [lia | now replace (S f - 1)%nat with f by lia | exact Hs|].
  split; [exact Hg | now apply ids_grow_le].
Qed.

(** X19: with [num_frames = 0] both simulators raise: [real_spots] is
    empty and [real_spots[0]] is out of range. *)
Theorem simulators_need_a_frame (params : Params) (k : nat) :
  num_frames params = 0%nat ->
  simulate_spots bits gauss np_sqrt Spots_new params k = None /\
  stepwise_spots bits gauss Spots_new params k = None.
Proof.
  intros Hnf.
  assert (Hinit : init_positions bits params [] k = None).
  { unfold init_positions, rbind.
    destruct (rand_scaled_returns bits (num_spots params) (fst (frame_size params)) k)
      as (xs & k1 & -> & _). reflexivity. }
  split.
  - unfold simulate_spots. rewrite Hnf. cbn [seq map]. unfold rbind at 1.
    now rewrite Hinit.
  - unfold stepwise_spots, stepwise_after, stepwise_init. rewrite Hnf.
    cbn [seq map]. unfold rbind at 1 2. now rewrite Hinit.
Qed.
End SimulateMore.

Lemma simulate_records_witness :
  length bleach_records = num_frames bleach_params /\
  forall f s, nth_error bleach_records f = Some s ->
    frame s = Z.of_nat f /\
    length (positions s) = num_spots bleach_params /\
    length (traj_num s) = length (traj_num (demo_Spots (num_spots bleach_params))).
Proof.
  apply (simulate_records demo_bits demo_gauss demo_sqrt demo_Spots
           bleach_params 0%nat 20%nat bleach_records).
  vm_compute. reflexivity.
Defined.

Lemma simulate_first_positions_witness :
  Forall (fun p => ((0 <= fst p)%Q /\ (fst p < inject_Z 32)%Q) /\
                   ((0 <= snd p)%Q /\ (snd p < inject_Z 32)%Q))
         (positions (hd (demo_Spots 2) bleach_records)).
Proof.
  apply (simulate_first_positions demo_bits demo_gauss demo_sqrt demo_Spots
           bleach_params 0%nat 20%nat bleach_records).
  - reflexivity.
  - reflexivity.
  - vm_compute. reflexivity.
  - reflexivity.
Defined.

Lemma simulate_ids_distinct_witness :
  NoDup (traj_num (nth 2 bleach_records (demo_Spots 2))).
Proof.
  apply (simulate_ids_distinct demo_bits demo_gauss demo_sqrt demo_Spots
           bleach_params 0%nat 20%nat bleach_records) with (f := 2%nat).
  - vm_compute. repeat constructor; simpl; intuition discriminate.
  - vm_compute. reflexivity.
  - reflexivity.
Defined.

Lemma simulate_ids_grow_witness :
  ids_grow [0; 2] [3; 2] /\ Forall2 Z.le [0; 2] [3; 2].
Proof.
  apply (simulate_ids_grow demo_bits demo_gauss demo_sqrt demo_Spots
           bleach_params 0%nat 20%nat bleach_records 1
           (nth 1 bleach_records (demo_Spots 2))
           (nth 2 bleach_records (demo_Spots 2))).
  - vm_compute. reflexivity.
  - reflexivity.
  - reflexivity.
Defined.

Lemma simulators_need_a_frame_witness :
  simulate_spots demo_bits demo_gauss demo_sqrt demo_Spots no_frame_params 0%nat = None /\
  stepwise_spots demo_bits demo_gauss demo_Spots no_frame_params 0%nat = None.
Proof.
  apply (simulators_need_a_frame demo_bits demo_gauss demo_sqrt demo_Spots
           no_frame_params 0%nat).
  reflexivity.
Defined.

(** ** The records of [simulate_stepwise_bleaching] *)

Lemma pos_eq_refl p : pos_eq p p.
Proof. split; reflexivity. Qed.

Lemma pos_eq_trans p q r : pos_eq p q -> pos_eq q r -> pos_eq p r.
Proof. intros [A B] [C D]. split; etransitivity; eassumption. Qed.

Section StepwiseMore.
Variable bits : nat -> Z.
Variable gauss : nat -> Q.
Variable Spots_new : nat -> Spots.

Lemma normal_positions_still (pos : list (Q * Q)) (k : nat) :
  returns_at (normal_positions gauss pos 0) k (Forall2 pos_eq pos).
Proof.
  revert k. induction pos as [|[x y] pos IH]; intros k.
  - apply returns_ret. constructor.
  - cbn [normal_positions]. unfold normal at 1 2.
    destruct (IH (S (S k))) as (l & k' & Hrun & Hl).
    eexists _, k'. unfold rbind. rewrite Hrun. unfold rret.
    split; [reflexivity|]. constructor; [|exact Hl].
    split; cbn [fst snd]; ring.
Qed.

Lemma bleach_molecules_all (p : Q) (turns : nat) (count : Z) (k : nat) :
  (1 <= p)%Q ->
  returns_at (bleach_molecules bits p turns count) k
             (fun c => c = count - Z.of_nat turns).
Proof.
  intros Hp. revert count k. induction turns as [|turns IH]; intros count k.
  - apply returns_ret. lia.
  - cbn [bleach_molecules]. eapply returns_bind; [apply rand_range|].
    intros u k' [_ Hu].
    assert (Hyes : Qltb u p = true).
    { unfold Qltb. apply negb_true_iff.
      destruct (Qle_bool p u) eqn:E; [|reflexivity].
      apply Qle_bool_iff in E. lra. }
    rewrite Hyes. eapply returns_weaken; [apply IH|]. intros c ->. lia.
Qed.

Lemma bleach_count_all (params : Params) (i : nat) (n_mols : list Z) (n : Z) (k : nat) :
  (1 <= p_bleach_per_frame params)%Q ->
  nth_error n_mols i = Some n ->
  returns_at (bleach_count bits params i n_mols) k
             (fun l => l = upd i (Z.min 0 n) n_mols).
Proof.
  intros Hp Hn. unfold bleach_count.
  eapply returns_bind; [apply returns_lift_eq, Hn|]. intros ? k1 ->.
  destruct (Z.ltb_spec 0 n) as [Hpos|Hneg].
  - eapply returns_bind; [apply bleach_molecules_all, Hp|].
    intros n' k2 ->. unfold assign.
    assert (Hi : (i < length n_mols)%nat) by (apply nth_error_Some; congruence).
    destruct (Nat.ltb_spec i (length n_mols)); [|lia].
    eapply returns_lift; [reflexivity|]. f_equal. lia.
  - apply returns_ret. rewrite Z.min_r by lia. symmetry. now apply upd_same.
Qed.

Lemma bleach_pass_all (params : Params) (n_mols : list Z) (k : nat) :
  (1 <= p_bleach_per_frame params)%Q ->
  length n_mols = num_spots params ->
  returns_at (rfor (seq 0 (num_spots params)) (bleach_count bits params) n_mols) k
             (fun l => l = map (Z.min 0) n_mols).
Proof.
  intros Hp Hlen. eapply returns_weaken.
  - apply (returns_rfor_seq (bleach_count bits params)
             (fun i l => length l = length n_mols /\
                forall j, nth_error l j
                          = option_map (fun x => if (j <? i)%nat then Z.min 0 x else x)
                                       (nth_error n_mols j))).
    + split; [reflexivity|]. intros j.
      destruct (nth_error n_mols j); reflexivity.
    + intros i l k0 Hi [Hl Hnth].
      destruct (nth_error_in_range n_mols i) as [n Hn]; [lia|].
      assert (Hli : nth_error l i = Some n).
      { rewrite Hnth, Hn. cbn [option_map]. now rewrite Nat.ltb_irrefl. }
      eapply returns_weaken; [apply (bleach_count_all params i l n), Hli; exact Hp|].
      intros l' ->. rewrite upd_length. split; [exact Hl|]. intros j.
      destruct (Nat.eq_dec j i) as [->|Hne].
      * rewrite nth_error_upd_same by lia. rewrite Hn. cbn [option_map].
        destruct (Nat.ltb_spec i (S i)); [reflexivity | lia].
      * rewrite nth_error_upd_other by lia. rewrite Hnth.
        destruct (nth_error n_mols j); [|reflexivity]. cbn [option_map]. f_equal.
        destruct (Nat.ltb_spec j i), (Nat.ltb_spec j (S i)); try reflexivity; lia.
  - cbn beta. intros l [Hl Hnth]. apply nth_error_ext. intros j.
    rewrite Hnth, nth_error_map.
    destruct (nth_error n_mols j) eqn:E; [|reflexivity]. cbn [option_map].
    assert (j < length n_mols)%nat by (apply nth_error_Some; congruence).
    destruct (Nat.ltb_spec j (0 + num_spots params)); [reflexivity | lia].
Qed.

(** One turn of the frame loop, in full. *)
Lemma stepwise_frame_full (params : Params) (g : list Z) (f : nat)
      (st : stepwise_state) (k : nat) :
  (1 <= f < num_frames params)%nat ->
  stepwise_inv params g st ->
  returns_at (stepwise_frame bits gauss params f st) k
    (fun st' => stepwise_inv params g st' /\
       exists prev pos,
         nth_error (st_spots st) (f - 1) = Some prev /\
         Forall2 pos_eq (positions prev) pos /\
         counts_step params (st_n_mols st) (st_n_mols st') /\
         ((1 <= p_bleach_per_frame params)%Q ->
          st_n_mols st' = map (Z.min 0) (st_n_mols st)) /\
         st_spots st'
         = upd f (mk_Spots pos (traj_num prev)
                           (intensities params (st_n_mols st)) (Z.of_nat f))
               (st_spots st)).
Proof.
  intros Hf (Hlen & Hn & Hg & s0 & Hs0 & Hfr).
  destruct (nth_error_in_range (st_spots st) f) as [cur Hcur]; [lia|].
  destruct (nth_error_in_range (st_spots st) (f - 1)) as [prev Hprev]; [lia|].
  destruct (normal_positions_still (positions prev) k) as (pos & k1 & Hrun & Hpos).
  destruct (bleach_pass_returns bits params (st_n_mols st) k1 Hn)
    as (nm & k2 & Hb & Hstep).
  exists (mk_state (upd f (mk_Spots pos (traj_num prev)
                                    (intensities params (st_n_mols st)) (Z.of_nat f))
                        (st_spots st)) nm), k2.
  split.
  - unfold stepwise_frame, rbind, lift. rewrite Hcur. cbn [option_map].
    rewrite Hprev. cbn [option_map]. rewrite Hrun, Hb. reflexivity.
  - cbn [st_spots st_n_mols]. split.
    + unfold stepwise_inv. cbn [st_spots st_n_mols]. rewrite upd_length.
      split; [exact Hlen|]. split; [destruct Hstep as (-> & _); exact Hn|].
      split; [eapply counts_step_trans; eassumption|].
      exists s0. rewrite nth_error_upd_other by lia. now split.
    + exists prev, pos. split; [exact Hprev|]. split; [exact Hpos|].
      split; [exact Hstep|]. split; [|reflexivity].
      intros Hp. eapply (returns_at_det _ _ _ _ (fun l => l = _)); [|exact Hb].
      now apply bleach_pass_all.
Qed.

Lemma map_min_idem (l : list Z) : map (Z.min 0) (map (Z.min 0) l) = map (Z.min 0) l.
Proof. rewrite map_map. apply map_ext. intros x. lia. Qed.

Lemma Forall2_pos_eq_trans (a b c : list (Q * Q)) :
  Forall2 pos_eq a b -> Forall2 pos_eq b c -> Forall2 pos_eq a c.
Proof.
  intros Hab. revert c. induction Hab as [|x y a b Hxy Hab IH]; intros c Hbc;
    inversion Hbc; subst; constructor; [eapply pos_eq_trans; eassumption | auto].
Qed.

Lemma stepwise_loop_full (params : Params) (g : list Z) (st : stepwise_state)
      (t k : nat) :
  (t <= num_frames params - 1)%nat ->
  stepwise_inv params g st -> st_n_mols st = g ->
  returns_at (rfor (seq 1 t) (stepwise_frame bits gauss params) st) k
             (stepwise_loop_inv params g (1 + t)).
Proof.
  intros Ht Hinv Hg.
  apply (returns_rfor_seq (stepwise_frame bits gauss params)
           (stepwise_loop_inv params g)).
  - split; [exact Hinv|]. split; [|split; [auto | intros _ ?; lia]].
    destruct Hinv as (_ & _ & _ & s0 & Hs0 & _). exists s0. split; [exact Hs0|].
    intros f s Hf. cbn in Hf. lia.
  - intros i s k0 Hi (Hs & (s0 & Hs0 & Hrec) & Hone & Hall).
    eapply returns_weaken; [apply (stepwise_frame_full params g i s k0); [lia | exact Hs]|].
    cbn beta. intros s' (Hs' & prev & pos & Hprev & Hpos & Hstep & Hmin & Hspots).
    split; [exact Hs'|]. split; [|split; [intros; lia|]].
    + exists s0. rewrite Hspots. split; [rewrite nth_error_upd_other by lia; exact Hs0|].
      replace (S i - 1)%nat with i by lia. intros f r Hf Hr.
      destruct (Nat.eq_dec f i) as [->|Hne].
      * destruct Hs as (Hlen & _).
        rewrite nth_error_upd_same in Hr by lia. injection Hr as <-.
        cbn [frame traj_num positions]. split; [reflexivity|].
        destruct (Nat.eq_dec i 1) as [->|Hi1].
        -- change (1 - 1)%nat with 0%nat in Hprev.
           rewrite Hs0 in Hprev. injection Hprev as <-.
           split; [reflexivity | exact Hpos].
        -- destruct (Hrec (i - 1)%nat prev) as (_ & Tp & Pp); [lia | exact Hprev|].
           split; [exact Tp | eapply Forall2_pos_eq_trans; eassumption].
      * rewrite nth_error_upd_other in Hr by lia. apply Hrec; [lia | exact Hr].
    + intros Hp _. rewrite (Hmin Hp). destruct (Nat.eq_dec i 1) as [->|Hi1].
      * now rewrite Hone.
      * rewrite Hall by (assumption || lia). apply map_min_idem.
Qed.

Lemma stepwise_after_full (params : Params) (turns k : nat) :
  (1 <= num_frames params)%nat -> molecules_ok params ->
  returns_at (stepwise_after bits gauss Spots_new params turns) k
    (fun r => stepwise_loop_inv params (snd r)
                (1 + Nat.min turns (num_frames params - 1)) (fst r)).
Proof.
  intros Hnf Hok. unfold stepwise_after.
  eapply returns_bind; [apply stepwise_init_returns; assumption|].
  intros [st0 g] k0 [Hinv Hg]. cbn [fst snd] in *.
  rewrite firstn_seq. eapply returns_bind.
  - apply stepwise_loop_full; [lia | exact Hinv | exact Hg].
  - intros st k1 Hst. now apply returns_ret.
Qed.

(** X20: in [simulate_stepwise_bleaching], whatever the draws, every
    record from frame 1 on carries its position as frame index, the ids
    of frame 0, and the positions of frame 0 (the diffusion step is 0). *)
Theorem stepwise_records (params : Params) (k : nat) :
  (1 <= num_frames params)%nat -> molecules_ok params ->
  exists st g k' s0,
    stepwise_spots bits gauss Spots_new params k = Some ((st, g), k') /\
    length (st_spots st) = num_frames params /\
    nth_error (st_spots st) 0 = Some s0 /\
    forall f s, (1 <= f)%nat -> nth_error (st_spots st) f = Some s ->
      frame s = Z.of_nat f /\ traj_num s = traj_num s0 /\
      Forall2 pos_eq (positions s0) (positions s).
Proof.
  intros Hnf Hok. unfold stepwise_spots.
  destruct (stepwise_after_full params (num_frames params - 1) k Hnf Hok)
    as ([st g] & k' & Hrun & Hinv & (s0 & Hs0 & Hrec) & _).
  cbn [fst snd] in *. exists st, g, k', s0. split; [exact Hrun|].
  destruct Hinv as (Hlen & _). split; [exact Hlen|]. split; [exact Hs0|].
  intros f s Hf Hs. apply Hrec; [|exact Hs].
  assert (f < length (st_spots st))%nat by (apply nth_error_Some; congruence). lia.
Qed.

(** X22: with [p_bleach_per_frame >= 1] every molecule bleaches in the
    first turn: from then on every count that was positive is 0 (and
    one that was not is as it was). *)
Theorem stepwise_all_bleach (params : Params) (turns k : nat) :
  (2 <= num_frames params)%nat -> molecules_ok params ->
  (1 <= p_bleach_per_frame params)%Q -> (1 <= turns)%nat ->
  exists st g k',
    stepwise_after bits gauss Spots_new params turns k = Some ((st, g), k') /\
    st_n_mols st = map (Z.min 0) g.
Proof.
  intros Hnf Hok Hp Ht.
  destruct (stepwise_after_full params turns k) as ([st g] & k' & Hrun & _ & _ & _ & Hall);
    [lia | exact Hok|].
  cbn [fst snd] in *. exists st, g, k'. split; [exact Hrun|].
  apply Hall; [exact Hp | lia].
Qed.

(** Later turns leave the records of earlier frames alone. *)
Lemma stepwise_loop_keeps (params : Params) (g : list Z) (st : stepwise_state)
      (a n k : nat) :
  (1 <= a)%nat -> (a + n <= num_frames params)%nat ->
  stepwise_inv params g st ->
  returns_at (rfor (seq a n) (stepwise_frame bits gauss params) st) k
    (fun st' => stepwise_inv params g st' /\
                forall j, (j < a)%nat ->
                          nth_error (st_spots st') j = nth_error (st_spots st) j).
Proof.
  intros Ha Hn Hinv. eapply returns_weaken.
  - apply (returns_rfor_seq (stepwise_frame bits gauss params)
             (fun _ s => stepwise_inv params g s /\
                forall j, (j < a)%nat ->
                          nth_error (st_spots s) j = nth_error (st_spots st) j)).
    + split; [exact Hinv | reflexivity].
    + intros i s k0 Hi [Hs Hkeep].
      eapply returns_weaken;
        [apply (stepwise_frame_full params g i s k0); [lia | exact Hs]|].
      cbn beta. intros s' (Hs' & prev & pos & _ & _ & _ & _ & Hspots).
      split; [exact Hs'|]. intros j Hj. rewrite Hspots.
      rewrite nth_error_upd_other by lia. now apply Hkeep.
  - cbn beta. auto.
Qed.

Lemma stepwise_init_full (params : Params) (k : nat) :
  (1 <= num_frames params)%nat -> molecules_ok params ->
  returns_at (stepwise_init bits Spots_new params) k
    (fun r => stepwise_inv params (snd r) (fst r) /\
              st_n_mols (fst r) = snd r /\
              exists s0, nth_error (st_spots (fst r)) 0 = Some s0 /\
                         spot_intensity s0 = intensities params (snd r)).
Proof.
  intros Hnf Hok.
  destruct (stepwise_init_returns bits Spots_new params k Hnf Hok)
    as ([st g] & k' & Hrun & Hinv & Hg).
  exists (st, g), k'. split; [exact Hrun|]. split; [exact Hinv|].
  split; [exact Hg|]. cbn [fst snd] in *.
  unfold stepwise_init, rbind, lift in Hrun.
  destruct (init_positions bits params _ k) as [[rs1 k1]|]; [|discriminate].
  destruct (initial_n_mols bits params k1) as [[nm k2]|]; [|discriminate].
  destruct (nth_error rs1 0) as [s1|] eqn:E1; [|discriminate].
  cbn [option_map] in Hrun. unfold rret in Hrun. injection Hrun as <- <- _.
  cbn [st_spots]. destruct rs1 as [|r t]; [discriminate E1|].
  eexists. split; reflexivity.
Qed.

(** X21: in [simulate_stepwise_bleaching] the record of frame 0 carries
    the intensities [Isingle * gtruth], and the record of frame [f + 1]
    carries [Isingle * n_mols] for the counts left by the first [f] turns
    of the loop: the bleaching of a turn shows one frame later, and
    frame 1 repeats the intensities of frame 0. *)
Theorem stepwise_intensities (params : Params) (f k : nat) :
  (f + 1 < num_frames params)%nat -> molecules_ok params ->
  exists st g k1 stF kF s0 s,
    stepwise_after bits gauss Spots_new params f k = Some ((st, g), k1) /\
    stepwise_spots bits gauss Spots_new params k = Some ((stF, g), kF) /\
    nth_error (st_spots stF) 0 = Some s0 /\
    spot_intensity s0 = intensities params g /\
    nth_error (st_spots stF) (f + 1) = Some s /\
    spot_intensity s = intensities params (st_n_mols st).
Proof.
  intros Hf Hok.
  destruct (stepwise_init_full params k) as ([st0 g] & k0 & Hinit & Hinv0 & Hg0 & s0 & Hs0 & Hi0);
    [lia | exact Hok|].
  cbn [fst snd] in *.
  destruct (stepwise_loop_keeps params g st0 1 f k0) as (st & k1 & Hl1 & Hinv1 & Hk1);
    [lia | lia | exact Hinv0|].
  destruct (stepwise_frame_full params g (f + 1) st k1)
    as (st1 & k2 & Hfr & Hinv2 & prev & pos & _ & _ & _ & _ & Hspots);
    [lia | exact Hinv1|].
  destruct (stepwise_loop_keeps params g st1 (f + 2) (num_frames params - 1 - (f + 1)) k2)
    as (stF & kF & Hl2 & _ & Hk2); [lia | lia | exact Hinv2|].
  set (rec := mk_Spots pos (traj_num prev) (intensities params (st_n_mols st))
                       (Z.of_nat (f + 1))) in *.
  exists st, g, k1, stF, kF, s0, rec.
  assert (Hlen : length (st_spots st) = num_frames params) by apply Hinv1.
  split; [|split; [|split; [|split; [exact Hi0 | split; [|reflexivity]]]]].
  - unfold stepwise_after, rbind. rewrite Hinit. cbn [fst snd].
    rewrite firstn_seq. replace (Nat.min f (num_frames params - 1)) with f by lia.
    now rewrite Hl1.
  - unfold stepwise_spots, stepwise_after, rbind. rewrite Hinit. cbn [fst snd].
    rewrite firstn_seq, Nat.min_id.
    replace (num_frames params - 1)%nat
      with (f + (1 + (num_frames params - 1 - (f + 1))))%nat at 1 by lia.
    rewrite seq_app. cbn [seq Nat.add].
    rewrite rfor_app. unfold rbind. rewrite Hl1.
    cbn [rfor]. unfold rbind. replace (S f) with (f + 1)%nat by lia.
    rewrite Hfr. replace (S (f + 1)) with (f + 2)%nat by lia. now rewrite Hl2.
  - rewrite Hk2 by lia. rewrite Hspots, nth_error_upd_other by lia.
    rewrite Hk1 by lia. exact Hs0.
  - rewrite Hk2 by lia. rewrite Hspots. apply nth_error_upd_same. lia.
Qed.
End StepwiseMore.

Lemma stepwise_records_witness :
  exists st g k' s0,
    stepwise_spots demo_bits demo_gauss demo_Spots
                   (demo_params 0 None (1 # 2)) 0%nat = Some ((st, g), k') /\
    length (st_spots st) = 3%nat /\
    nth_error (st_spots st) 0 = Some s0 /\
    forall f s, (1 <= f)%nat -> nth_error (st_spots st) f = Some s ->
      frame s = Z.of_nat f /\ traj_num s = traj_num s0 /\
      Forall2 pos_eq (positions s0) (positions s).
Proof.
  apply (stepwise_records demo_bits demo_gauss demo_Spots
           (demo_params 0 None (1 # 2)) 0%nat).
  - simpl. lia.
  - unfold molecules_ok. simpl. lia.
Defined.

Lemma stepwise_intensities_witness :
  exists st g k1 stF kF s0 s,
    stepwise_after demo_bits demo_gauss demo_Spots
                   (demo_params 0 None (1 # 2)) 1%nat 0%nat = Some ((st, g), k1) /\
    stepwise_spots demo_bits demo_gauss demo_Spots
                   (demo_params 0 None (1 # 2)) 0%nat = Some ((stF, g), kF) /\
    nth_error (st_spots stF) 0 = Some s0 /\
    spot_intensity s0 = intensities (demo_params 0 None (1 # 2)) g /\
    nth_error (st_spots stF) (1 + 1) = Some s /\
    spot_intensity s = intensities (demo_params 0 None (1 # 2)) (st_n_mols st).
Proof.
  apply (stepwise_intensities demo_bits demo_gauss demo_Spots
           (demo_params 0 None (1 # 2)) 1%nat 0%nat).
  - simpl. lia.
  - unfold molecules_ok. simpl. lia.
Defined.

Lemma stepwise_all_bleach_witness :
  exists st g k',
    stepwise_after demo_bits demo_gauss demo_Spots
                   (demo_params 0 None 1) 1%nat 0%nat = Some ((st, g), k') /\
    st_n_mols st = map (Z.min 0) g.
Proof.
  apply (stepwise_all_bleach demo_bits demo_gauss demo_Spots
           (demo_params 0 None 1) 1%nat 0%nat).
  - simpl. lia.
  - unfold molecules_ok. simpl. lia.
  - vm_compute. discriminate.
  - lia.
Defined.
